(** * img-duplicates: perceptual-hash duplicate finder

    A shallow embedding of [src/utils.ts] (px, binaryToHex, dhash, mapLimit,
    isImageFile) and of [findDuplicateImages] from the library entry point,
    together with the properties the specification states about them.

    Conventions of the embedding.
    - A JavaScript [number] used as a loop counter, array index or grid size is
      a [nat]; the options [maxDuplicates] and [maxDistance], which reach
      [Array.prototype.slice] and the k-d tree unchecked, are [Z].
    - A [Buffer] is a [list Z] of byte values; a JavaScript string is a
      [string] whose characters stand for its code units.
    - A rejected promise or a thrown exception is the [Err] outcome of the
      [result] monad.
    - The file system, the image decoder (sharp), the k-d tree (static-kdtree)
      and the runtime's collation are external: they are the fields of a
      [World] record the entry point is run in. *)

From Stdlib Require Import ZArith Lia Ascii String HexString.
From stdpp Require Import base list gmap strings sorting.

Local Open Scope string_scope.
Local Open Scope Z_scope.
Local Open Scope nat_scope.
Local Open Scope list_scope.

(** ** Outcomes *)

Inductive error : Type :=
| AssertionError                      (* assert(pixel < pixels.length) *)
| DecodeFailure (path : string)       (* sharp(path)....toBuffer() rejects *)
| ReaddirFailure (path : string)      (* fs.readdir(source) rejects *)
| MetadataReadFailure (path : string) (* "Could not read metadata for ..." *)
| Diverges.                           (* a loop that never ends *)

Inductive result (A : Type) : Type :=
| Ok (a : A)
| Err (e : error).
Arguments Ok {A} a.
Arguments Err {A} e.

#[global] Instance result_ret : MRet result := @Ok.
#[global] Instance result_bind : MBind result := λ A B f m,
  match m with
  | Ok a => f a
  | Err e => Err e
  end.

Definition is_Ok {A} (r : result A) : Prop :=
  match r with Ok _ => True | Err _ => False end.

Definition is_Err {A} (r : result A) : Prop :=
  match r with Ok _ => False | Err _ => True end.

(** [for (const x of xs) body], threading the mutated locals [s]. *)
Fixpoint for_each {A S : Type} (xs : list A) (body : A → S → result S) (s : S)
  : result S :=
  match xs with
  | [] => Ok s
  | x :: xs' => s' ← body x s; for_each xs' body s'
  end.

(** [Promise.all(batch.map(iteratee))]: all results in order, or the first
    rejection. *)
Fixpoint promise_all {A B : Type} (iteratee : A → result B) (batch : list A)
  : result (list B) :=
  match batch with
  | [] => Ok []
  | x :: batch' =>
      y ← iteratee x; ys ← promise_all iteratee batch'; Ok (y :: ys)
  end.

(** ** The world outside the library *)

(** What [sharp(file).metadata()] resolves to; either field may be
    [undefined]. *)
Record Metadata : Type := {
  meta_width : option Z;
  meta_height : option Z;
}.

Record World : Type := {
  (** [fs.access(p)] resolves *)
  fs_access : string → bool;
  (** [fs.stat(p)] resolves and [isDirectory()] holds *)
  fs_isDirectory : string → bool;
  (** [fs.readdir(p)]; [None] when it rejects *)
  fs_readdir : string → option (list string);
  (** [sharp(p).grayscale().resize({width, height, fit: "fill"}).raw()
      .toBuffer()]; [None] when it rejects *)
  sharp_raw : string → nat → nat → option (list Z);
  (** [sharp(p).metadata()]; [None] when it rejects *)
  sharp_metadata : string → option Metadata;
  (** [createKDTree(points).knn(query, k, maxDistance)] on the tree this
      call builds; how it orders points at one distance is the tree's own
      matter, so another call is another world (see [another_run]) *)
  kdtree_knn : list (list Z) → list Z → Z → Z → list nat;
  (** [a.localeCompare(b)] in the runtime's default locale *)
  localeCompare : string → string → Z;
}.

(** ** utils.ts *)

Module Utils.

Definition isFolder (w : World) (path : string) : bool := fs_isDirectory w path.

Definition pathExists (w : World) (filePath : string) : bool := fs_access w filePath.

(** [String.prototype.endsWith]. *)
Definition endsWith (s suffix : string) : bool :=
  let n := String.length s in
  let m := String.length suffix in
  if m <=? n then String.eqb (substring (n - m) m s) suffix else false.

Definition isImageFile (path : string) : bool :=
  endsWith path ".png" ||
  endsWith path ".jpg" ||
  endsWith path ".jpeg" ||
  endsWith path ".webp" ||
  endsWith path ".gif" ||
  endsWith path ".avif" ||
  endsWith path ".tiff" ||
  endsWith path ".tif" ||
  endsWith path ".svg".

(** [array.slice(i, j)] for non-negative [i] and [j]. *)
Definition slice {A} (array : list A) (i j : nat) : list A :=
  take (j - i) (drop i array).

(** [mapLimit]: the loop [for (i = 0; i < array.length; i += limit)].  With
    [limit = 0] the counter never advances, so the loop is run on fuel and
    [None] is the run that is still going when the fuel is spent. *)
Fixpoint mapLimit_loop {T R : Type} (fuel : nat) (array : list T) (limit : nat)
    (iteratee : T → result R) (i : nat) (results : list R)
  : option (result (list R)) :=
  match fuel with
  | O => None
  | S fuel' =>
      if i <? length array then
        let batch := slice array i (i + limit) in
        match promise_all iteratee batch with
        | Err e => Some (Err e)
        | Ok batchResults =>
            mapLimit_loop fuel' array limit iteratee (i + limit)
                          (results ++ batchResults)
        end
      else Some (Ok results)
  end.

Definition mapLimit_fuel {T R : Type} (fuel : nat) (array : list T)
    (limit : nat) (iteratee : T → result R) : option (result (list R)) :=
  mapLimit_loop fuel array limit iteratee 0 [].

(** One unit of fuel per element and one for the final test is enough for
    every [limit >= 1] (lemma [mapLimit_loop_spec]); a run that outlives it
    is the divergent one. *)
Definition mapLimit {T R : Type} (array : list T) (limit : nat)
    (iteratee : T → result R) : result (list R) :=
  match mapLimit_fuel (S (length array)) array limit iteratee with
  | Some r => r
  | None => Err Diverges
  end.

(** [px]: the assertion guards the read. *)
Definition px (pixels : list Z) (width x y : nat) : result Z :=
  let pixel := width * y + x in
  if pixel <? length pixels then Ok (nth pixel pixels 0%Z)
  else Err AssertionError.

(** [s.slice(i, j)] on strings. *)
Definition str_slice (s : string) (i j : nat) : string :=
  substring i (Nat.min j (String.length s) - i) s.

(** [parseInt(s, 2)] on a string without leading blanks or sign: the value of
    the longest prefix of binary digits, [None] (NaN) when that is empty. *)
Fixpoint parseInt2_from (s : string) (acc : option N) : option N :=
  match s with
  | String "0" s' => parseInt2_from s' (Some (2 * default 0 acc)%N)
  | String "1" s' => parseInt2_from s' (Some (2 * default 0 acc + 1)%N)
  | _ => acc
  end.
Definition parseInt2 (s : string) : option N := parseInt2_from s None.

(** [decimal.toString(16)]. *)
Definition toString16 (decimal : option N) : string :=
  match decimal with
  | Some N0 => "0"
  | Some (Npos p) => HexString.Raw.of_pos p ""
  | None => "NaN"
  end.

(** [Buffer.from(output, "hex")]: one byte per pair of hex digits; decoding
    stops at the first pair that is not two hex digits, and a trailing single
    digit is dropped. *)
Fixpoint Buffer_from_hex (output : string) : list Z :=
  match output with
  | String hi (String lo rest) =>
      match HexString.ascii_to_digit hi, HexString.ascii_to_digit lo with
      | Some h, Some l => Z.of_N (16 * h + l) :: Buffer_from_hex rest
      | _, _ => []
      end
  | _ => []
  end.

(** The loop of [binaryToHex], four characters a turn; [String.length s]
    turns always reach [i >= s.length]. *)
Fixpoint binaryToHex_loop (fuel : nat) (s : string) (i : nat) (output : string)
  : string :=
  match fuel with
  | O => output
  | S fuel' =>
      if i <? String.length s then
        let bytes := str_slice s i (i + 4) in
        let decimal := parseInt2 bytes in
        let hex := toString16 decimal in
        binaryToHex_loop fuel' s (i + 4) (output +:+ hex)
      else output
  end.

Definition binaryToHex_output (s : string) : string :=
  binaryToHex_loop (String.length s) s 0 "".

Definition binaryToHex (s : string) : list Z :=
  Buffer_from_hex (binaryToHex_output s).

(** The double loop of [dhash] over the decoded buffer: the string
    [difference]. *)
Definition dhash_difference (pixels : list Z) (hashSize : nat) : result string :=
  let height := hashSize in
  let width := height + 1 in
  for_each (seq 0 height) (λ row difference,
    for_each (seq 0 height) (λ col difference,
      left ← px pixels width col row;
      right ← px pixels width (col + 1) row;
      Ok (difference +:+ (if (left <? right)%Z then "1" else "0")))
    difference) "".

(** [dhash] after the decoder has produced [pixels]. *)
Definition dhash_pixels (pixels : list Z) (hashSize : nat) : result (list Z) :=
  difference ← dhash_difference pixels hashSize;
  Ok (binaryToHex difference).

(** [dhash]: decode to an [(hashSize + 1) x hashSize] grey grid, then hash. *)
Definition dhash (w : World) (path : string) (hashSize : nat) : result (list Z) :=
  let height := hashSize in
  let width := height + 1 in
  match sharp_raw w path width height with
  | None => Err (DecodeFailure path)
  | Some pixels => dhash_pixels pixels hashSize
  end.

End Utils.

(** ** Runtime library: sorting and paths *)

(** [Array.prototype.sort(cmp)].  The sort is stable and, for a consistent
    comparator, returns the one stable sorted arrangement; an insertion sort
    computes it: [x] goes in front of the first [y] with [cmp x y <= 0]. *)
Fixpoint sort_insert {A} (cmp : A → A → Z) (x : A) (l : list A) : list A :=
  match l with
  | [] => [x]
  | y :: l' =>
      if (cmp x y <=? 0)%Z then x :: y :: l' else y :: sort_insert cmp x l'
  end.

Fixpoint Array_sort {A} (cmp : A → A → Z) (l : list A) : list A :=
  match l with
  | [] => []
  | x :: l' => sort_insert cmp x (Array_sort cmp l')
  end.

(** The comparator of [sort()] without argument: order of the code units. *)
Definition default_compare (a b : string) : Z :=
  match String.compare a b with
  | Lt => (-1)%Z
  | Eq => 0%Z
  | Gt => 1%Z
  end.

(** [array.slice(0, end)] with a signed [end]: a negative [end] counts from
    the back. *)
Definition slice0 {A} (array : list A) (e : Z) : list A :=
  if (e <? 0)%Z then take (Z.to_nat (Z.of_nat (length array) + e)) array
  else take (Z.to_nat e) array.

Module Path.

Definition sep : ascii := "/"%char.

Fixpoint split_go (cur : string) (s : string) : list string :=
  match s with
  | "" => [String.rev cur]
  | String c s' =>
      if Ascii.eqb c sep then String.rev cur :: split_go "" s'
      else split_go (String c cur) s'
  end.
(** [s.split("/")] *)
Definition split (s : string) : list string := split_go "" s.

(** [segs.join("/")] *)
Fixpoint join_segments (segs : list string) : string :=
  match segs with
  | [] => ""
  | [x] => x
  | x :: rest => x +:+ "/" +:+ join_segments rest
  end.

(** [normalizeString]: drop empty and ["."] segments, let [".."] cancel the
    segment before it; [stack] is the kept segments, last first. *)
Fixpoint normalize_segments (allowAboveRoot : bool) (segs : list string)
    (stack : list string) : list string :=
  match segs with
  | [] => rev stack
  | seg :: segs' =>
      if String.eqb seg "" || String.eqb seg "." then
        normalize_segments allowAboveRoot segs' stack
      else if String.eqb seg ".." then
        match stack with
        | top :: stack' =>
            if String.eqb top ".." then
              normalize_segments allowAboveRoot segs' (seg :: stack)
            else normalize_segments allowAboveRoot segs' stack'
        | [] =>
            if allowAboveRoot then
              normalize_segments allowAboveRoot segs' [seg]
            else normalize_segments allowAboveRoot segs' []
        end
      else normalize_segments allowAboveRoot segs' (seg :: stack)
  end.

Definition starts_with_sep (s : string) : bool :=
  match s with String c _ => Ascii.eqb c sep | "" => false end.

Definition ends_with_sep (s : string) : bool :=
  starts_with_sep (String.rev s).

(** [path.posix.normalize] *)
Definition normalize (p : string) : string :=
  if String.eqb p "" then "."
  else
    let isAbsolute := starts_with_sep p in
    let trailingSeparator := ends_with_sep p in
    let body := join_segments (normalize_segments (negb isAbsolute) (split p) []) in
    if String.eqb body "" then
      if isAbsolute then "/" else if trailingSeparator then "./" else "."
    else
      let body := if trailingSeparator then body +:+ "/" else body in
      if isAbsolute then "/" +:+ body else body.

(** [path.posix.join(a, b)]: the non-empty arguments joined by ["/"], then
    normalised. *)
Definition join (a b : string) : string :=
  if String.eqb a "" then (if String.eqb b "" then "." else normalize b)
  else if String.eqb b "" then normalize a
  else normalize (a +:+ "/" +:+ b).

Fixpoint drop_seps (s : string) : string :=
  match s with
  | String c s' => if Ascii.eqb c sep then drop_seps s' else s
  | "" => ""
  end.

Fixpoint take_segment (s : string) : string :=
  match s with
  | String c s' => if Ascii.eqb c sep then "" else String c (take_segment s')
  | "" => ""
  end.

(** [path.posix.basename(p)]: the last segment, trailing separators
    ignored. *)
Definition basename (p : string) : string :=
  String.rev (take_segment (drop_seps (String.rev p))).

End Path.

(** ** The library entry point *)

Inductive Source : Type :=
| SourceDir (source : string)
| SourceArray (source : list string).

Record Options : Type := {
  hashSize : nat;
  maxDuplicates : Z;
  maxDistance : Z;
}.

Definition defaultOptions : Options :=
  {| hashSize := 8; maxDuplicates := 100; maxDistance := 5 |}.

Record Image : Type := {
  path : string;
  width : Z;
  height : Z;
}.

Definition resolution (a : Image) : Z := (width a * height a)%Z.

Section FindDuplicateImages.

Variable w : World.

(** [files.filter(isImageFile).sort().map((f) => path.join(dir, f))] *)
Definition imagePathsOf (dir : string) (files : list string) : list string :=
  let imageFiles := Array_sort default_compare (List.filter Utils.isImageFile files) in
  map (λ f, Path.join dir f) imageFiles.

(** One turn of [for (const item of source)]. *)
Definition collect_item (allImagePaths : list string) (item : string)
  : list string :=
  if negb (Utils.pathExists w item) then allImagePaths
  else if Utils.isFolder w item then
    match fs_readdir w item with
    | Some files => allImagePaths ++ imagePathsOf item files
    | None => allImagePaths
    end
  else if Utils.isImageFile item then allImagePaths ++ [item]
  else allImagePaths.

Definition allImagePaths (source : list string) : list string :=
  fold_left collect_item source [].

(** The value of [imageFilePaths] once the [if (Array.isArray(source))]
    statement is done. *)
Definition imageFilePathsOf (source : Source) : result (list string) :=
  match source with
  | SourceArray items => Ok (Array_sort default_compare (allImagePaths items))
  | SourceDir dir =>
      match fs_readdir w dir with
      | Some files => Ok (imagePathsOf dir files)
      | None => Err (ReaddirFailure dir)
      end
  end.

(** [mapLimit(imageFilePaths, 1, async (file) => [...await dhash(file, hashSize)])] *)
Definition hashListOf (imageFilePaths : list string) (hashSize : nat)
  : result (list (list Z)) :=
  Utils.mapLimit imageFilePaths 1 (λ file, Utils.dhash w file hashSize).

(** The state the grouping loop mutates: [duplicateIdxSet] and
    [duplicates].  A group holds [imageFilePaths[i]], which is [undefined]
    ([None]) for an [i] outside the array. *)
Definition GroupState : Type := gset nat * list (list (option string)).

(** The body of [for (let i = 0; i < hashList.length; i++)]. *)
Definition group_step (imageFilePaths : list string) (hashList : list (list Z))
    (maxDuplicates maxDistance : Z) (st : GroupState) (i : nat) : GroupState :=
  let '(duplicateIdxSet, duplicates) := st in
  if decide (i ∈ duplicateIdxSet) then st
  else
    let hash := nth i hashList [] in
    let duplicatesIdx := kdtree_knn w hashList hash (maxDuplicates + 1)%Z maxDistance in
    if 1 <? length duplicatesIdx then
      let duplicatesIdx := filter (λ idx, idx ∉ duplicateIdxSet) duplicatesIdx in
      if 1 <? length duplicatesIdx then
        let limitedDuplicates := slice0 duplicatesIdx maxDuplicates in
        let dups := map (λ i, imageFilePaths !! i) limitedDuplicates in
        (duplicateIdxSet ∪ list_to_set limitedDuplicates, duplicates ++ [dups])
      else st
    else st.

Definition group_loop (imageFilePaths : list string) (hashList : list (list Z))
    (maxDuplicates maxDistance : Z) : GroupState :=
  fold_left (group_step imageFilePaths hashList maxDuplicates maxDistance)
            (seq 0 (length hashList)) (∅, []).

(** [duplicates] after the grouping loop. *)
Definition duplicatesOf (imageFilePaths : list string) (hashList : list (list Z))
    (maxDuplicates maxDistance : Z) : list (list (option string)) :=
  (group_loop imageFilePaths hashList maxDuplicates maxDistance).2.

(** The body of [for (const file of files)]: [pathExists(undefined)] is
    [false], since [fs.access] rejects it. *)
Definition resolve_file (file : option string) (filesWithMetadata : list Image)
  : result (list Image) :=
  match file with
  | None => Ok filesWithMetadata
  | Some file =>
      if Utils.pathExists w file then
        match sharp_metadata w file with
        | Some metadata =>
            Ok (filesWithMetadata ++
                [{| path := file;
                    width := default 0%Z (meta_width metadata);
                    height := default 0%Z (meta_height metadata) |}])
        | None => Err (MetadataReadFailure file)
        end
      else Ok filesWithMetadata
  end.

(** The comparator handed to [filesWithMetadata.sort]. *)
Definition compareImages (a b : Image) : Z :=
  let resolutionDiff := (width b * height b - width a * height a)%Z in
  if decide (resolutionDiff ≠ 0%Z) then resolutionDiff
  else localeCompare w (Path.basename (path a)) (Path.basename (path b)).

(** The body of [for (const files of duplicates)]. *)
Definition resolve_group (files : list (option string))
    (duplicatesWithMetadata : list (list Image)) : result (list (list Image)) :=
  filesWithMetadata ← for_each files resolve_file [];
  let filesWithMetadata := Array_sort compareImages filesWithMetadata in
  if 0 <? length filesWithMetadata then
    Ok (duplicatesWithMetadata ++ [filesWithMetadata])
  else Ok duplicatesWithMetadata.

Definition resolveGroups (duplicates : list (list (option string)))
  : result (list (list Image)) :=
  for_each duplicates resolve_group [].

Definition findDuplicateImages (source : Source) (options : Options)
  : result (list (list Image)) :=
  imageFilePaths ← imageFilePathsOf source;
  hashList ← hashListOf imageFilePaths (hashSize options);
  let duplicates :=
    duplicatesOf imageFilePaths hashList (maxDuplicates options) (maxDistance options) in
  resolveGroups duplicates.

End FindDuplicateImages.

(** ** Reference instances of the external parts

    Concrete worlds to run the entry point in.  The index is a linear scan
    that meets the contract of a nearest-neighbour query (the positions
    within [maxDistance], nearest first, at most [k] of them); the collation
    [Collation.compare] orders ASCII letters as the default collation of the
    runtime does (alphabetically first, lower case before upper case as the
    tie-break), which is not the order of the code units. *)

Module Reference.

Definition dist2 (p q : list Z) : Z :=
  foldr Z.add 0%Z (zip_with (λ a b, ((a - b) * (a - b))%Z) p q).

Definition knn (points : list (list Z)) (query : list Z) (k maxDistance : Z)
  : list nat :=
  if ((maxDistance <? 0) || (k <=? 0))%Z then []
  else
    let near :=
      List.filter (λ ip, (dist2 ip.2 query <=? maxDistance * maxDistance)%Z)
                  (imap pair points) in
    let byDistance :=
      Array_sort (λ a b, (dist2 a.2 query - dist2 b.2 query)%Z) near in
    take (Z.to_nat k) (map fst byDistance).

End Reference.

Module Collation.

Definition lower (c : ascii) : ascii :=
  let n := nat_of_ascii c in
  if (65 <=? n) && (n <=? 90) then ascii_of_nat (n + 32) else c.

Fixpoint lower_string (s : string) : string :=
  match s with
  | "" => ""
  | String c s' => String (lower c) (lower_string s')
  end.

Definition compare (a b : string) : Z :=
  match String.compare (lower_string a) (lower_string b) with
  | Lt => (-1)%Z
  | Gt => 1%Z
  | Eq => default_compare b a
  end.

End Collation.

Module Disk.

(** A stored image: the grey grid the decoder yields for it and what the
    metadata reader yields ([None]: it rejects). *)
Record File : Type := {
  file_path : string;
  file_pixels : list Z;
  file_metadata : option Metadata;
}.

Definition sized (width height : Z) : option Metadata :=
  Some {| meta_width := Some width; meta_height := Some height |}.

Record Dir : Type := {
  dir_path : string;
  dir_entries : list string;
}.

Definition find_file (files : list File) (p : string) : option File :=
  List.find (λ f, String.eqb (file_path f) p) files.

Definition find_dir (dirs : list Dir) (p : string) : option Dir :=
  List.find (λ d, String.eqb (dir_path d) p) dirs.

Definition world (files : list File) (dirs : list Dir)
    (collate : string → string → Z) : World :=
  {| fs_access p := bool_decide (is_Some (find_file files p))
                    || bool_decide (is_Some (find_dir dirs p));
     fs_isDirectory p := bool_decide (is_Some (find_dir dirs p));
     fs_readdir p := dir_entries <$> find_dir dirs p;
     sharp_raw p width height := file_pixels <$> find_file files p;
     sharp_metadata p := find_file files p ≫= file_metadata;
     kdtree_knn := Reference.knn;
     localeCompare := collate |}.

(** A flat grey 9 x 8 grid: every comparison of neighbours is false. *)
Definition flat : list Z := replicate 72 7%Z.

(** A 9 x 8 grid rising from left to right in every row. *)
Definition rising : list Z :=
  concat (replicate 8 [0; 10; 20; 30; 40; 50; 60; 70; 80]%Z).

(** Two flat images and one different image in a directory, next to a text
    file. *)
Definition a_png : File :=
  {| file_path := "dir/a.png"; file_pixels := flat;
     file_metadata := sized 100 100 |}.
Definition B_png : File :=
  {| file_path := "dir/B.png"; file_pixels := flat;
     file_metadata := sized 100 100 |}.
Definition c_png : File :=
  {| file_path := "dir/c.png"; file_pixels := rising;
     file_metadata := sized 10 10 |}.
Definition dir : Dir :=
  {| dir_path := "dir"; dir_entries := ["a.png"; "B.png"; "c.png"; "x.txt"] |}.

(** A directory without images, and the text file in it. *)
Definition todo_txt : File :=
  {| file_path := "notes/todo.txt"; file_pixels := []; file_metadata := None |}.
Definition notes : Dir :=
  {| dir_path := "notes"; dir_entries := ["todo.txt"] |}.

Definition album : World :=
  world [a_png; B_png; c_png; todo_txt] [dir; notes] Collation.compare.

(** The same directory in a world whose collation is the order of the code
    units. *)
Definition album_ordinal : World :=
  world [a_png; B_png; c_png] [dir] default_compare.


End Disk.

(** ** Vocabulary of the properties *)

(** The character [dhash] appends for a comparison. *)
Definition bit_char (b : bool) : ascii := if b then "1"%char else "0"%char.

(** A bit sequence as the string of its ["0"] and ["1"] characters. *)
Fixpoint bits_string (bits : list bool) : string :=
  match bits with
  | [] => ""
  | b :: bits' => String (bit_char b) (bits_string bits')
  end.

(** The grey value at column [x] of row [y] in a grid [width] wide. *)
Definition pixel_at (pixels : list Z) (width x y : nat) : Z :=
  nth (width * y + x) pixels 0%Z.

(** Left neighbour strictly darker than the right one. *)
Definition gradient (pixels : list Z) (n row col : nat) : bool :=
  (pixel_at pixels (n + 1) col row <? pixel_at pixels (n + 1) (col + 1) row)%Z.

(** The comparisons of the grid, row by row. *)
Definition gradients (pixels : list Z) (n : nat) : list bool :=
  flat_map (λ row, map (gradient pixels n row) (seq 0 n)) (seq 0 n).

(** The value [parseInt(chunk, 2)] of a chunk of binary digits. *)
Definition chunk_value (chunk : list bool) (acc : N) : N :=
  fold_left (λ v (b : bool), if b then (2 * v + 1)%N else (2 * v)%N) chunk acc.

(** The hex digits [binaryToHex] writes: one per chunk of four bits, the last
    chunk as short as the bits that are left. *)
Fixpoint pack (bits : list bool) : string :=
  match bits with
  | [] => ""
  | a :: b :: c :: d :: rest =>
      Utils.toString16 (Some (chunk_value [a; b; c; d] 0)) +:+ pack rest
  | short => Utils.toString16 (Some (chunk_value short 0))
  end.

(** The bits of a byte, most significant first, and of a buffer. *)
Definition byte_bits (byte : Z) : list bool :=
  map (λ k, Z.testbit byte (Z.of_nat k)) [7; 6; 5; 4; 3; 2; 1; 0].

Definition unpack (bytes : list Z) : list bool := flat_map byte_bits bytes.

(** The file of a group slot that gets an entry: defined and present. *)
Definition kept (w : World) (file : option string) : option string :=
  match file with
  | Some p => if Utils.pathExists w p then Some p else None
  | None => None
  end.

(** An item of the input array that contributes no image path: it does not
    exist, or it is a file without an image extension, or it is a directory
    that cannot be listed or lists no image file. *)
Definition contributes_nothing (w : World) (item : string) : Prop :=
  Utils.pathExists w item = false ∨
  (Utils.isFolder w item = false ∧ Utils.isImageFile item = false) ∨
  (Utils.isFolder w item = true ∧
   ∀ files, fs_readdir w item = Some files →
            List.filter Utils.isImageFile files = []).


(** The grouping loop with the groups kept as index positions, before
    [imageFilePaths[i]] is read. *)
Definition IdxState : Type := gset nat * list (list nat).

Section IndexGroups.

Variable w : World.
Variables (imageFilePaths : list string) (hashList : list (list Z)).
Variables (maxDup maxDist : Z).

(** The neighbours of image [i] that no earlier group has claimed. *)
Definition unclaimed (seen : gset nat) (i : nat) : list nat :=
  filter (λ idx, idx ∉ seen)
         (kdtree_knn w hashList (nth i hashList []) (maxDup + 1)%Z maxDist).

Definition group_step_idx (st : IdxState) (i : nat) : IdxState :=
  let '(seen, groups) := st in
  if decide (i ∈ seen) then st
  else if 1 <? length (kdtree_knn w hashList (nth i hashList [])
                                  (maxDup + 1)%Z maxDist) then
    if 1 <? length (unclaimed seen i) then
      (seen ∪ list_to_set (slice0 (unclaimed seen i) maxDup),
       groups ++ [slice0 (unclaimed seen i) maxDup])
    else st
  else st.

Definition group_loop_idx : IdxState :=
  fold_left group_step_idx (seq 0 (length hashList)) (∅, []).

Definition paths_at (idxs : list nat) : list (option string) :=
  map (λ i, imageFilePaths !! i) idxs.

Definition with_paths (st : IdxState) : GroupState :=
  (st.1, map paths_at st.2).

(** Every group is the front of the unclaimed neighbours of its seed, of
    which there were at least two. *)
Definition group_origin (g : list nat) : Prop :=
  ∃ seen i, 1 < length (unclaimed seen i) ∧ g = slice0 (unclaimed seen i) maxDup.

End IndexGroups.

(** Every position in a group has been claimed. *)
Definition claimed_inv (st : IdxState) : Prop :=
  ∀ i, i ∈ concat st.2 → i ∈ st.1.

(** The paths of the output, group after group. *)
Definition output_paths (groups : list (list Image)) : list string :=
  map path (concat groups).

(** What [Array.prototype.sort] needs of a comparator to define the result:
    being consistent. *)
Definition consistent_comparator {A} (cmp : A → A → Z) : Prop :=
  (∀ a b c, (cmp a b ≤ 0)%Z → (cmp b c ≤ 0)%Z → (cmp a c ≤ 0)%Z) ∧
  (∀ a b, (0 < cmp a b)%Z → (cmp b a ≤ 0)%Z).

(** Larger resolution first. *)
Definition by_resolution (a b : Image) : Prop :=
  (resolution b ≤ resolution a)%Z.

(** Larger resolution first; at equal resolution, the basenames in the order
    of [localeCompare]. *)
Definition by_resolution_then_name (w : World) (a b : Image) : Prop :=
  (resolution b < resolution a)%Z ∨
  (resolution a = resolution b ∧
   (localeCompare w (Path.basename (path a)) (Path.basename (path b)) ≤ 0)%Z).

(** The order the specification states: resolution never increasing and, at
    equal resolution, the basenames ascending by code units. *)
Definition sorted_as_stated (g : list Image) : Prop :=
  ∀ i j a b, i < j → g !! i = Some a → g !! j = Some b →
    (resolution b ≤ resolution a)%Z ∧
    (resolution a = resolution b →
     String.le (Path.basename (path a)) (Path.basename (path b))).

From stdpp Require Import pretty.

(** ** Vocabulary of the further properties *)

(** A result that is a value or the failed assertion of [px]. *)
Definition only_assertion {A} (r : result A) : Prop :=
  match r with
  | Ok _ => True
  | Err e => e = AssertionError
  end.

(** Where a hashed path comes from: an existing item of the input array that
    is an image file by its name, or an entry with an image name in the
    listing of an item that is a directory. *)
Definition gathered (w : World) (items : list string) (p : string) : Prop :=
  ∃ item, item ∈ items ∧ Utils.pathExists w item = true ∧
    ((Utils.isFolder w item = false ∧ Utils.isImageFile item = true ∧ p = item) ∨
     (Utils.isFolder w item = true ∧
      ∃ files f, fs_readdir w item = Some files ∧ f ∈ files ∧
                 Utils.isImageFile f = true ∧ p = Path.join item f)).

(** An entry of the output as the resolution loop builds it: the file is
    there, its metadata was read, and an undefined dimension became 0. *)
Definition resolved (w : World) (img : Image) : Prop :=
  Utils.pathExists w (path img) = true ∧
  ∃ metadata, sharp_metadata w (path img) = Some metadata ∧
              width img = default 0%Z (meta_width metadata) ∧
              height img = default 0%Z (meta_height metadata).

(** Further worlds to run the entry point in. *)
Module Scenes.

(** A directory whose listing names an image that cannot be decoded. *)
Definition broken : Disk.Dir :=
  {| Disk.dir_path := "broken"; Disk.dir_entries := ["ghost.png"] |}.

Definition album_broken : World :=
  Disk.world [Disk.a_png; Disk.B_png; Disk.c_png] [Disk.dir; broken]
             Collation.compare.

End Scenes.

(** ** cli.ts *)

Module Cli.

(** A JavaScript number as the command line produces it: an integer, or NaN
    ([None]) from [parseInt]. *)
Definition number : Type := option Z.

(** [a < b] and [a > b] on numbers: false as soon as one side is NaN. *)
Definition lt (a b : number) : bool :=
  match a, b with
  | Some x, Some y => (x <? y)%Z
  | _, _ => false
  end.
Definition gt (a b : number) : bool := lt b a.

Record CLIOptions : Type := {
  source : list string;
  hashSize : number;
  maxDuplicates : number;
  maxDistance : number;
  delete : bool;
  forceDelete : bool;
  help : bool;
  version : bool;
}.

(** What the process writes: [console.log], [console.error], and the prompt
    of [readline]. *)
Inductive Line : Type :=
| Log (text : string)
| ErrorLog (text : string)
| Prompt (text : string).

(** The state a run changes: what has been written, and the paths that
    exist.  A path is the name [resolve] gives it. *)
Record Process : Type := {
  console : list Line;
  disk : gset string;
}.

(** How a step ends: with a value, or in [process.exit(code)]. *)
Inductive Outcome (A : Type) : Type :=
| Returns (a : A)
| Exits (code : Z).
Arguments Returns {A} a.
Arguments Exits {A} code.

Definition cli (A : Type) : Type := Process → Process * Outcome A.

#[global] Instance cli_ret : MRet cli := λ A a p, (p, Returns a).
#[global] Instance cli_bind : MBind cli := λ A B f m p,
  match m p with
  | (p', Returns a) => f a p'
  | (p', Exits code) => (p', Exits code)
  end.

(** What a run is given and does not change. *)
Record Env : Type := {
  (** [process.cwd()], an absolute path *)
  cwd : string;
  (** [unlink] of this existing path is allowed to succeed *)
  unlinkable : string → bool;
  (** [error.message] when [unlink] of this path rejects *)
  unlink_message : string → string;
  (** the line typed at the prompt *)
  answer : string;
  (** [findDuplicateImages(paths, {hashSize, maxDuplicates, maxDistance})]:
      the groups, or [error.message] when it rejects *)
  library : list string → number → number → number → string + list (list Image);
}.

Definition log (text : string) : cli unit := λ p,
  ({| console := console p ++ [Log text]; disk := disk p |}, Returns tt).

Definition error (text : string) : cli unit := λ p,
  ({| console := console p ++ [ErrorLog text]; disk := disk p |}, Returns tt).

Definition prompt (text : string) : cli unit := λ p,
  ({| console := console p ++ [Prompt text]; disk := disk p |}, Returns tt).

Definition exit {A} (code : Z) : cli A := λ p, (p, Exits code).

(** [access(path)]: whether it resolves. *)
Definition access (path : string) : cli bool := λ p,
  (p, Returns (bool_decide (path ∈ disk p))).

(** [unlink(file)]: removes an existing path that may be removed; otherwise
    rejects, with the message returned. *)
Definition unlink (env : Env) (file : string) : cli (option string) := λ p,
  if bool_decide (file ∈ disk p) && unlinkable env file
  then ({| console := console p; disk := disk p ∖ {[file]} |}, Returns None)
  else (p, Returns (Some (unlink_message env file))).

(** [for (const x of xs)] and [xs.forEach], threading the mutated locals. *)
Fixpoint for_each {A S : Type} (xs : list A) (body : A → S → cli S) (s : S)
  : cli S :=
  match xs with
  | [] => mret s
  | x :: xs' => s' ← body x s; for_each xs' body s'
  end.

Definition LF : string := String (ascii_of_nat 10) "".

Definition HELP_TEXT : string :=
  String.concat LF [
    "";
    "Duplicate Image Finder";
    "";
    "Usage: img-duplicates [options] <source...>";
    "";
    "Arguments:";
    "  source                One or more directories or image files to search for duplicates";
    "";
    "Options:";
    "  -h, --hash-size <size>     Hash size for perceptual hashing (default: 8)";
    "  -d, --max-duplicates <num> Maximum number of duplicates to find per image (default: 100)";
    "  -m, --max-distance <dist>  Maximum distance for similarity matching (default: 5)";
    "  --delete                   Delete duplicate images (keeps highest resolution, asks for confirmation)";
    "  --force-delete             Delete duplicate images without confirmation";
    "  --help                     Show this help message";
    "  --version                  Show version number";
    "";
    "Examples:";
    "  img-duplicates /path/to/images";
    "  img-duplicates /path/to/dir1 /path/to/dir2";
    "  img-duplicates --hash-size 16 --max-distance 3 /path/to/images";
    "  img-duplicates /path/to/image1.jpg /path/to/image2.png /path/to/dir";
    "  img-duplicates --delete /path/to/images";
    "  img-duplicates --force-delete /path/to/images";
    "";
    "Note: When using --delete or --force-delete, the image with the highest resolution";
    "      in each duplicate group will be kept, and all others will be deleted.";
    ""
  ].

(** [parseInt(s)] without radix, on strings of ASCII: blanks are skipped, a
    sign is read, ["0x"] switches to base 16, the longest prefix of digits is
    the value, and without a digit the result is NaN. *)
Definition is_blank (c : ascii) : bool :=
  let n := nat_of_ascii c in
  ((9 <=? n) && (n <=? 13)) || (n =? 32).

Fixpoint skip_blanks (s : string) : string :=
  match s with
  | String c s' => if is_blank c then skip_blanks s' else s
  | "" => ""
  end.

Definition digit_of (radix : N) (c : ascii) : option N :=
  match HexString.ascii_to_digit c with
  | Some v => if (v <? radix)%N then Some v else None
  | None => None
  end.

Fixpoint parse_digits (radix : N) (s : string) (acc : option N) : option N :=
  match s with
  | String c s' =>
      match digit_of radix c with
      | Some v => parse_digits radix s' (Some (radix * default 0 acc + v)%N)
      | None => acc
      end
  | "" => acc
  end.

Definition parseInt (s : string) : number :=
  let s := skip_blanks s in
  let '(sign, s) :=
    match s with
    | String "-" s' => ((-1)%Z, s')
    | String "+" s' => (1%Z, s')
    | _ => (1%Z, s)
    end in
  let '(radix, s) :=
    match s with
    | String "0" (String "x" s') => (16%N, s')
    | String "0" (String "X" s') => (16%N, s')
    | _ => (10%N, s)
    end in
  match parse_digits radix s None with
  | Some v => Some (sign * Z.of_N v)%Z
  | None => None
  end.

(** What [parseArgs] returns in [values]: an option is [undefined] when it
    was not given. *)
Record Values : Type := {
  hash_size : option string;
  max_duplicates : option string;
  max_distance : option string;
  delete_flag : option bool;
  force_delete_flag : option bool;
  help_flag : option bool;
  version_flag : option bool;
}.

(** [values[name] ? parseInt(values[name]) : fallback]: the empty string is
    falsy. *)
Definition number_option (value : option string) (fallback : Z) : number :=
  match value with
  | Some s => if String.eqb s "" then Some fallback else parseInt s
  | None => Some fallback
  end.

(** [parseArguments], given what [parseArgs] did with the arguments: threw
    ([inl], with the message) or returned [values] and [positionals]. *)
Definition parseArguments (parsed : string + Values * list string)
  : cli CLIOptions :=
  match parsed with
  | inr (values, positionals) =>
      mret {| source := positionals;
              hashSize := number_option (hash_size values) 8;
              maxDuplicates := number_option (max_duplicates values) 100;
              maxDistance := number_option (max_distance values) 5;
              delete := default false (delete_flag values);
              forceDelete := default false (force_delete_flag values);
              help := default false (help_flag values);
              version := default false (version_flag values) |}
  | inl message =>
      error ("Error parsing arguments: " +:+ message) ;; exit 1
  end.

(** [path.posix.resolve(p)] against the working directory. *)
Definition resolve (env : Env) (p : string) : string :=
  let full := if Path.starts_with_sep p then p else cwd env +:+ "/" +:+ p in
  "/" +:+ Path.join_segments (Path.normalize_segments false (Path.split full) []).

(** The body of [for (const path of paths)]. *)
Definition validate_path (env : Env) (path : string) (resolvedPaths : list string)
  : cli (list string) :=
  let resolvedPath := resolve env path in
  access resolvedPath ≫= λ found : bool,
    if found then mret (resolvedPaths ++ [resolvedPath])
    else error ("Error: Path does not exist: " +:+ path) ;; exit 1.

Definition validatePaths (env : Env) (paths : list string) : cli (list string) :=
  for_each paths (validate_path env) [].

Definition validateOptions (options : CLIOptions) : cli unit :=
  (if lt (hashSize options) (Some 1%Z) || gt (hashSize options) (Some 32%Z)
   then error "Error: Hash size must be between 1 and 32" ;; exit 1
   else mret tt) ;;
  (if lt (maxDuplicates options) (Some 1%Z)
   then error "Error: Max duplicates must be at least 1" ;; exit 1
   else mret tt) ;;
  (if lt (maxDistance options) (Some 0%Z)
   then error "Error: Max distance must be non-negative" ;; exit 1
   else mret tt) ;;
  (if delete options && forceDelete options
   then error "Error: Cannot use both --delete and --force-delete at the same time" ;;
        exit 1
   else mret tt).

Definition marker (showDelete : bool) (imageIndex : nat) : string :=
  if imageIndex =? 0 then
    if showDelete then "(highest resolution - will be kept)"
    else "(highest resolution)"
  else if showDelete then "(will be deleted)"
  else "".

Definition formatResults (duplicates : list (list Image)) (showDelete : bool)
  : cli unit :=
  if length duplicates =? 0 then log "No duplicate images found."
  else
    log ("Found " +:+ pretty (length duplicates)
         +:+ " group(s) of duplicate images:" +:+ LF) ;;
    for_each (imap pair duplicates) (λ '(index, group) _,
      log ("Group " +:+ pretty (index + 1) +:+ ":") ;;
      for_each (imap pair group) (λ '(imageIndex, image) _,
        let resolution := pretty (width image) +:+ "x" +:+ pretty (height image) in
        log ("  " +:+ path image +:+ " [" +:+ resolution +:+ "] "
             +:+ marker showDelete imageIndex)) tt ;;
      log "") tt.

(** [answer.toLowerCase()] for the comparison with ["y"] and ["yes"], which
    only ASCII letters can meet. *)
Definition toLowerCase (s : string) : string := Collation.lower_string s.

Definition askForConfirmation (env : Env) (message : string) : cli bool :=
  prompt (message +:+ " (y/N): ") ;;
  mret (String.eqb (toLowerCase (answer env)) "y"
        || String.eqb (toLowerCase (answer env)) "yes").

(** The paths [deleteDuplicates] collects: every image of every group but
    the first. *)
Definition filesToDelete (duplicates : list (list Image)) : list string :=
  flat_map (λ group, map path (drop 1 group)) duplicates.

(** The body of [for (const file of filesToDelete)], on the two counters. *)
Definition delete_file (env : Env) (file : string) (counts : nat * nat)
  : cli (nat * nat) :=
  let '(deletedCount, errorCount) := counts in
  rejected ← unlink env file;
  match rejected with
  | None => log ("Deleted: " +:+ file) ;; mret (deletedCount + 1, errorCount)
  | Some message =>
      error ("Failed to delete " +:+ file +:+ ": " +:+ message) ;;
      mret (deletedCount, errorCount + 1)
  end.

Definition deleteDuplicates (env : Env) (duplicates : list (list Image))
    (forceDelete : bool) : cli unit :=
  if length duplicates =? 0 then mret tt
  else
    let filesToDelete := filesToDelete duplicates in
    if length filesToDelete =? 0 then log "No files to delete."
    else
      log (LF +:+ "About to delete " +:+ pretty (length filesToDelete)
           +:+ " duplicate image(s):") ;;
      for_each filesToDelete (λ file _, log ("  " +:+ file)) tt ;;
      log "" ;;
      shouldDelete ← (if forceDelete then mret true
                      else askForConfirmation env
                             "Do you want to proceed with deletion?");
      if negb shouldDelete then log "Deletion cancelled."
      else
        for_each filesToDelete (delete_file env) (0, 0) ≫= λ counts : nat * nat,
          log (LF +:+ "Deletion completed: " +:+ pretty counts.1
               +:+ " files deleted, " +:+ pretty counts.2 +:+ " errors.").

Definition main (env : Env) (parsed : string + Values * list string) : cli unit :=
  options ← parseArguments parsed;
  (if help options then log HELP_TEXT ;; exit 0 else mret tt) ;;
  (if version options then log "1.0.0" ;; exit 0 else mret tt) ;;
  (if length (source options) =? 0
   then error "Error: No source paths provided" ;; log HELP_TEXT ;; exit 1
   else mret tt) ;;
  validateOptions options ;;
  validatedPaths ← validatePaths env (source options);
  log "Searching for duplicate images..." ;;
  match library env validatedPaths (hashSize options) (maxDuplicates options)
                (maxDistance options) with
  | inr duplicates =>
      let shouldDelete := delete options || forceDelete options in
      formatResults duplicates shouldDelete ;;
      if shouldDelete then deleteDuplicates env duplicates (forceDelete options)
      else mret tt
  | inl message =>
      error ("Error finding duplicates: " +:+ message) ;; exit 1
  end.

End Cli.

(** ** Vocabulary of the properties of the command line *)

(** A number that is NaN, or an integer from [lo] up to [hi] when there is
    one. *)
Definition number_between (lo : Z) (hi : option Z) (n : Cli.number) : Prop :=
  match n with
  | None => True
  | Some x => (lo ≤ x)%Z ∧ match hi with Some h => (x ≤ h)%Z | None => True end
  end.

(** The process after one more line on the console. *)
Definition wrote (line : Cli.Line) (p : Cli.Process) : Cli.Process :=
  {| Cli.console := Cli.console p ++ [line]; Cli.disk := Cli.disk p |}.

(** A step that leaves every path where it is. *)
Definition keeps_disk {A} (m : Cli.cli A) : Prop :=
  ∀ p, Cli.disk (m p).1 = Cli.disk p.

(** The answer at the prompt is a yes. *)
Definition confirmed (env : Cli.Env) : bool :=
  String.eqb (Cli.toLowerCase (Cli.answer env)) "y"
  || String.eqb (Cli.toLowerCase (Cli.answer env)) "yes".

(** The files among the collected ones whose removal is allowed. *)
Definition removable (env : Cli.Env) (files : list string) : gset string :=
  list_to_set (List.filter (Cli.unlinkable env) files).

(** The values of a command line that gives [--hash-size] only. *)
Definition only_hash_size (value : string) : Cli.Values :=
  {| Cli.hash_size := Some value; Cli.max_duplicates := None;
     Cli.max_distance := None; Cli.delete_flag := None;
     Cli.force_delete_flag := None; Cli.help_flag := None;
     Cli.version_flag := None |}.

(** A step that returns and leaves every path where it is. *)
Definition quiet {A} (m : Cli.cli A) : Prop :=
  ∀ p, ∃ p' a, m p = (p', Cli.Returns a) ∧ Cli.disk p' = Cli.disk p.

(** The last line of [deleteDuplicates] for the two counters. *)
Definition completed_line (deletedCount errorCount : nat) : Cli.Line :=
  Cli.Log (Cli.LF +:+ "Deletion completed: " +:+ pretty deletedCount
           +:+ " files deleted, " +:+ pretty errorCount +:+ " errors.").

(** The options [parseArguments] builds from the parsed arguments. *)
Definition built_options (values : Cli.Values) (positionals : list string)
  : Cli.CLIOptions :=
  {| Cli.source := positionals;
     Cli.hashSize := Cli.number_option (Cli.hash_size values) 8;
     Cli.maxDuplicates := Cli.number_option (Cli.max_duplicates values) 100;
     Cli.maxDistance := Cli.number_option (Cli.max_distance values) 5;
     Cli.delete := default false (Cli.delete_flag values);
     Cli.forceDelete := default false (Cli.force_delete_flag values);
     Cli.help := default false (Cli.help_flag values);
     Cli.version := default false (Cli.version_flag values) |}.

(** ** Two calls *)

(** Every call of [findDuplicateImages] builds a k-d tree of its own.  A
    second call in the same file system is the same world with the answers
    of that second tree. *)
Definition another_run (w : World)
    (knn : list (list Z) → list Z → Z → Z → list nat) : World :=
  {| fs_access := fs_access w;
     fs_isDirectory := fs_isDirectory w;
     fs_readdir := fs_readdir w;
     sharp_raw := sharp_raw w;
     sharp_metadata := sharp_metadata w;
     kdtree_knn := knn;
     localeCompare := localeCompare w |}.

(** The two trees answer alike on every query the grouping loop makes for
    the fingerprints [hashList]. *)
Definition same_answers (w : World)
    (knn : list (list Z) → list Z → Z → Z → list nat)
    (hashList : list (list Z)) (options : Options) : Prop :=
  ∀ i, i < length hashList →
    knn hashList (nth i hashList []) (maxDuplicates options + 1)%Z
        (maxDistance options)
    = kdtree_knn w hashList (nth i hashList []) (maxDuplicates options + 1)%Z
                 (maxDistance options).

(** An index that differs from [Reference.knn] only in the order of the
    positions at one distance: the later position comes first. *)
Definition knn_backwards (points : list (list Z)) (query : list Z)
    (k maxDistance : Z) : list nat :=
  if ((maxDistance <? 0) || (k <=? 0))%Z then []
  else
    let near :=
      List.filter (λ ip, (Reference.dist2 ip.2 query <=? maxDistance * maxDistance)%Z)
                  (reverse (imap pair points)) in
    let byDistance :=
      Array_sort (λ a b, (Reference.dist2 a.2 query - Reference.dist2 b.2 query)%Z)
                 near in
    take (Z.to_nat k) (map fst byDistance).

Fixpoint rising_distances (distances : list Z) : bool :=
  match distances with
  | a :: (b :: _) as rest => (a <=? b)%Z && rising_distances rest
  | _ => true
  end.

(** [answer] is what a nearest-neighbour query for at most [k] points within
    [maxDistance] of [query] may return: positions of [points], none twice,
    each within the distance, by distance from the nearest on, as many as
    there are up to [k], and no point left out is nearer than one returned. *)
Definition is_knn_answer (points : list (list Z)) (query : list Z)
    (k maxDistance : Z) (answer : list nat) : bool :=
  let distance i := Reference.dist2 (nth i points []) query in
  let within i := (distance i <=? maxDistance * maxDistance)%Z in
  let near := List.filter within (seq 0 (length points)) in
  bool_decide (NoDup answer)
  && forallb (λ i, (i <? length points) && within i) answer
  && rising_distances (map distance answer)
  && (length answer =? Nat.min (Z.to_nat k) (length near))
  && forallb (λ j, bool_decide (j ∈ answer)
                   || forallb (λ i, (distance i <=? distance j)%Z) answer) near.

(** Three images with the same grid in one directory. *)
Module Triplets.

Definition d_png : Disk.File :=
  {| Disk.file_path := "dir/d.png"; Disk.file_pixels := Disk.flat;
     Disk.file_metadata := Disk.sized 100 100 |}.

Definition dir : Disk.Dir :=
  {| Disk.dir_path := "dir"; Disk.dir_entries := ["a.png"; "B.png"; "d.png"] |}.

Definition world : World :=
  Disk.world [Disk.a_png; Disk.B_png; d_png] [dir] Collation.compare.

Definition pairs : Options :=
  {| hashSize := 8; maxDuplicates := 2; maxDistance := 5 |}.

End Triplets.

(** * Properties *)

(** ** The embedding at work *)

Example isImageFile_png : Utils.isImageFile "dir/a.png" = true.
Proof. reflexivity. Qed.
Example isImageFile_txt : Utils.isImageFile "notes.txt" = false.
Proof. reflexivity. Qed.
Example binaryToHex_1010 : Utils.binaryToHex "1010" = [].
Proof. reflexivity. Qed.
Example binaryToHex_af0f :
  Utils.binaryToHex "1010111100001111" = [175%Z; 15%Z].
Proof. reflexivity. Qed.
Example binaryToHex_empty : Utils.binaryToHex "" = [].
Proof. reflexivity. Qed.
Example px_example : Utils.px [10; 20; 30; 40; 50; 60]%Z 3 1 1 = Ok 50%Z.
Proof. reflexivity. Qed.
Example mapLimit_example :
  Utils.mapLimit [1; 2; 3] 1 (λ n, Ok (n * 3)) = Ok [3; 6; 9].
Proof. reflexivity. Qed.
Example mapLimit_batches :
  Utils.mapLimit [1; 2; 3; 4; 5; 6; 7; 8; 9; 10] 3 (λ n, Ok (n * 2))
  = Ok [2; 4; 6; 8; 10; 12; 14; 16; 18; 20].
Proof. reflexivity. Qed.
Example mapLimit_rejects :
  Utils.mapLimit ["a.png"; "b.png"] 1
    (λ f, if String.eqb f "b.png" then Err (DecodeFailure f) else Ok f)
  = Err (DecodeFailure "b.png").
Proof. reflexivity. Qed.

Example join_dir_file : Path.join "dir" "a.png" = "dir/a.png".
Proof. reflexivity. Qed.
Example join_trailing : Path.join "/tmp/imgs/" "a.png" = "/tmp/imgs/a.png".
Proof. reflexivity. Qed.
Example join_dot : Path.join "./imgs" "a.png" = "imgs/a.png".
Proof. reflexivity. Qed.
Example basename_file : Path.basename "/tmp/imgs/a.png" = "a.png".
Proof. reflexivity. Qed.
Example Array_sort_strings :
  Array_sort default_compare ["b.png"; "a.png"; "B.png"] = ["B.png"; "a.png"; "b.png"].
Proof. reflexivity. Qed.
Example slice0_negative : slice0 [1; 2; 3] (-1) = [1; 2].
Proof. reflexivity. Qed.
Example album_groups :
  findDuplicateImages Disk.album (SourceDir "dir") defaultOptions
  = Ok [[ {| path := "dir/a.png"; width := 100; height := 100 |};
          {| path := "dir/B.png"; width := 100; height := 100 |} ]].
Proof. vm_compute. reflexivity. Qed.
Example album_ordinal_groups :
  findDuplicateImages Disk.album_ordinal (SourceDir "dir") defaultOptions
  = Ok [[ {| path := "dir/B.png"; width := 100; height := 100 |};
          {| path := "dir/a.png"; width := 100; height := 100 |} ]].
Proof. vm_compute. reflexivity. Qed.
Example album_missing_directory :
  findDuplicateImages Disk.album (SourceDir "nowhere") defaultOptions
  = Err (ReaddirFailure "nowhere").
Proof. reflexivity. Qed.


(** ** Strings *)

Lemma append_cons (c : ascii) (s1 s2 : string) :
  String c s1 +:+ s2 = String c (s1 +:+ s2).
Proof. reflexivity. Qed.

Lemma append_nil_l (s : string) : "" +:+ s = s.
Proof. reflexivity. Qed.

Lemma append_nil_r (s : string) : s +:+ "" = s.
Proof. induction s as [|c s IH]; [done | by rewrite append_cons, IH]. Qed.

Lemma append_assoc (s1 s2 s3 : string) : (s1 +:+ s2) +:+ s3 = s1 +:+ (s2 +:+ s3).
Proof. induction s1 as [|c s1 IH]; [done | by rewrite !append_cons, IH]. Qed.

Lemma length_append (s1 s2 : string) :
  String.length (s1 +:+ s2) = String.length s1 + String.length s2.
Proof. induction s1 as [|c s1 IH]; [done | by rewrite append_cons; simpl; rewrite IH]. Qed.

(** ** The bits [dhash] emits *)

Lemma bits_string_app (b1 b2 : list bool) :
  bits_string (b1 ++ b2) = bits_string b1 +:+ bits_string b2.
Proof. induction b1 as [|b b1 IH]; simpl; [done | by rewrite append_cons, IH]. Qed.

Lemma length_bits_string (bits : list bool) :
  String.length (bits_string bits) = length bits.
Proof. induction bits as [|b bits IH]; simpl; [done | by rewrite IH]. Qed.

Lemma get_bits_string (bits : list bool) (i : nat) :
  String.get i (bits_string bits) = bit_char <$> bits !! i.
Proof.
  revert i. induction bits as [|b bits IH]; intros [|i]; simpl; done.
Qed.

Lemma px_Ok (pixels : list Z) (width x y : nat) :
  width * y + x < length pixels →
  Utils.px pixels width x y = Ok (pixel_at pixels width x y).
Proof.
  intros Hlt. unfold Utils.px, pixel_at.
  by destruct (Nat.ltb_spec (width * y + x) (length pixels)); [|lia].
Qed.

Lemma px_Err (pixels : list Z) (width x y : nat) :
  length pixels ≤ width * y + x →
  Utils.px pixels width x y = Err AssertionError.
Proof.
  intros Hge. unfold Utils.px.
  by destruct (Nat.ltb_spec (width * y + x) (length pixels)); [lia|].
Qed.

(** The largest index the loops of [dhash] ask for is the last cell of the
    grid. *)
Lemma grid_index_bound (n row x : nat) :
  row < n → x ≤ n → (n + 1) * row + x < (n + 1) * n.
Proof. intros Hrow Hx. nia. Qed.

Section DhashLoop.

Variables (pixels : list Z) (n : nat).
Hypothesis pixels_cover_grid : (n + 1) * n ≤ length pixels.

Lemma dhash_row (row : nat) (cols : list nat) (difference : string) :
  row < n → Forall (λ col, col < n) cols →
  for_each cols (λ col difference,
      left ← Utils.px pixels (n + 1) col row;
      right ← Utils.px pixels (n + 1) (col + 1) row;
      Ok (difference +:+ (if (left <? right)%Z then "1" else "0")))
    difference
  = Ok (difference +:+ bits_string (map (gradient pixels n row) cols)).
Proof.
  intros Hrow Hcols. revert difference.
  induction Hcols as [|col cols Hcol _ IH]; intros difference; simpl.
  - by rewrite append_nil_r.
  - rewrite !px_Ok by (pose proof (grid_index_bound n row col);
                       pose proof (grid_index_bound n row (col + 1)); lia).
    simpl. rewrite IH, append_assoc. f_equal. f_equal.
    unfold gradient. by destruct (_ <? _)%Z.
Qed.

Lemma dhash_rows (rows : list nat) (difference : string) :
  Forall (λ row, row < n) rows →
  for_each rows (λ row difference,
    for_each (seq 0 n) (λ col difference,
      left ← Utils.px pixels (n + 1) col row;
      right ← Utils.px pixels (n + 1) (col + 1) row;
      Ok (difference +:+ (if (left <? right)%Z then "1" else "0")))
    difference) difference
  = Ok (difference +:+
        bits_string (flat_map (λ row, map (gradient pixels n row) (seq 0 n)) rows)).
Proof.
  intros Hrows. revert difference.
  induction Hrows as [|row rows Hrow _ IH]; intros difference; simpl.
  - by rewrite append_nil_r.
  - rewrite dhash_row; [|done|].
    + simpl. by rewrite IH, append_assoc, bits_string_app.
    + apply Forall_forall. intros col Hin%elem_of_seq. lia.
Qed.

Lemma dhash_difference_gradients :
  Utils.dhash_difference pixels n = Ok (bits_string (gradients pixels n)).
Proof.
  unfold Utils.dhash_difference, gradients.
  rewrite dhash_rows; [done|].
  apply Forall_forall. intros row Hin%elem_of_seq. lia.
Qed.

End DhashLoop.

Lemma lookup_flat_map_rows {A} (f : nat → list A) (n k start r c : nat) :
  (∀ row, length (f row) = n) → r < k → c < n →
  flat_map f (seq start k) !! (r * n + c) = f (start + r) !! c.
Proof.
  intros Hlen. revert start r.
  induction k as [|k IH]; intros start r Hr Hc; [lia|].
  simpl. destruct r as [|r].
  - rewrite lookup_app_l by (rewrite Hlen; lia).
    by rewrite Nat.add_0_r.
  - rewrite lookup_app_r by (rewrite Hlen; lia).
    rewrite Hlen. replace (S r * n + c - n) with (r * n + c) by lia.
    rewrite IH by lia. f_equal. f_equal. lia.
Qed.

Lemma length_flat_map_rows {A} (f : nat → list A) (n : nat) (rows : list nat) :
  (∀ row, length (f row) = n) → length (flat_map f rows) = length rows * n.
Proof.
  intros Hlen. induction rows as [|row rows IH]; simpl; [done|].
  by rewrite length_app, Hlen, IH.
Qed.

Lemma length_gradients (pixels : list Z) (n : nat) :
  length (gradients pixels n) = n * n.
Proof.
  unfold gradients. rewrite (length_flat_map_rows _ n).
  - by rewrite length_seq.
  - intros row. by rewrite length_map, length_seq.
Qed.

Lemma lookup_gradients (pixels : list Z) (n r c : nat) :
  r < n → c < n →
  gradients pixels n !! (r * n + c) = Some (gradient pixels n r c).
Proof.
  intros Hr Hc. unfold gradients.
  rewrite (lookup_flat_map_rows _ n) by
    (try done; intros; by rewrite length_map, length_seq).
  rewrite list_lookup_fmap, lookup_seq_lt by done. done.
Qed.

(** C4.  On a decoded grid of [n + 1] columns and [n] rows the string
    [dhash] builds before packing is the row-major sequence of [n * n] bits
    in which the bit of row [r] and column [c] is 1 exactly when the pixel at
    [(c, r)] is strictly less than the pixel at [(c + 1, r)]. *)
Theorem dhash_bit_is_gradient (n : nat) (pixels : list Z) :
  1 ≤ n → length pixels = (n + 1) * n →
  ∃ bits : list bool,
    Utils.dhash_difference pixels n = Ok (bits_string bits) ∧
    Utils.dhash_pixels pixels n = Ok (Utils.binaryToHex (bits_string bits)) ∧
    length bits = n * n ∧
    ∀ r c, r < n → c < n →
      bits !! (r * n + c) =
        Some (bool_decide (pixel_at pixels (n + 1) c r < pixel_at pixels (n + 1) (c + 1) r)%Z)
      ∧ String.get (r * n + c) (bits_string bits) =
        Some (if bool_decide (pixel_at pixels (n + 1) c r < pixel_at pixels (n + 1) (c + 1) r)%Z
              then "1"%char else "0"%char).
Proof.
  intros Hn Hlen. exists (gradients pixels n). split; [|split; [|split]].
  - apply dhash_difference_gradients. lia.
  - unfold Utils.dhash_pixels. rewrite dhash_difference_gradients by lia. done.
  - apply length_gradients.
  - intros r c Hr Hc.
    assert (gradient pixels n r c =
            bool_decide (pixel_at pixels (n + 1) c r < pixel_at pixels (n + 1) (c + 1) r)%Z)
      as Hbit.
    { unfold gradient. destruct (Z.ltb_spec (pixel_at pixels (n + 1) c r)
                                            (pixel_at pixels (n + 1) (c + 1) r)).
      - by rewrite bool_decide_eq_true_2.
      - rewrite bool_decide_eq_false_2; [done | lia]. }
    rewrite get_bits_string, lookup_gradients by done. simpl.
    rewrite Hbit. split; [done|]. by destruct (bool_decide _).
Qed.

Lemma dhash_bit_is_gradient_witness :
  ∃ bits : list bool,
    Utils.dhash_difference [0; 1; 2; 2; 1; 0]%Z 2 = Ok (bits_string bits) ∧
    Utils.dhash_pixels [0; 1; 2; 2; 1; 0]%Z 2
      = Ok (Utils.binaryToHex (bits_string bits)) ∧
    length bits = 2 * 2 ∧
    ∀ r c, r < 2 → c < 2 →
      bits !! (r * 2 + c) =
        Some (bool_decide (pixel_at [0; 1; 2; 2; 1; 0]%Z (2 + 1) c r
                           < pixel_at [0; 1; 2; 2; 1; 0]%Z (2 + 1) (c + 1) r)%Z)
      ∧ String.get (r * 2 + c) (bits_string bits) =
        Some (if bool_decide (pixel_at [0; 1; 2; 2; 1; 0]%Z (2 + 1) c r
                              < pixel_at [0; 1; 2; 2; 1; 0]%Z (2 + 1) (c + 1) r)%Z
              then "1"%char else "0"%char).
Proof. apply (dhash_bit_is_gradient 2 [0; 1; 2; 2; 1; 0]%Z); [lia | reflexivity]. Defined.

(** C10.  Under [n >= 1] and a buffer of at least [(n + 1) * n] bytes, every
    [px] call of the double loop of [dhash] reads an index below the buffer
    length: the assertion holds, [px] returns the pixel, and the loop never
    takes the error branch. *)
Theorem dhash_px_assertion_holds (n : nat) (pixels : list Z) :
  1 ≤ n → (n + 1) * n ≤ length pixels →
  (∀ row col x, row < n → col < n → x = col ∨ x = col + 1 →
     (n + 1) * row + x < length pixels ∧
     Utils.px pixels (n + 1) x row = Ok (pixel_at pixels (n + 1) x row) ∧
     Utils.px pixels (n + 1) x row ≠ Err AssertionError)
  ∧ is_Ok (Utils.dhash_difference pixels n).
Proof.
  intros Hn Hlen. split.
  - intros row col x Hrow Hcol Hx.
    assert ((n + 1) * row + x < length pixels) as Hidx.
    { pose proof (grid_index_bound n row x). lia. }
    split; [done|]. rewrite px_Ok by done. done.
  - by rewrite dhash_difference_gradients.
Qed.

Lemma dhash_px_assertion_holds_witness :
  (∀ row col x, row < 2 → col < 2 → x = col ∨ x = col + 1 →
     (2 + 1) * row + x < length [0; 1; 2; 2; 1; 0; 9]%Z ∧
     Utils.px [0; 1; 2; 2; 1; 0; 9]%Z (2 + 1) x row
       = Ok (pixel_at [0; 1; 2; 2; 1; 0; 9]%Z (2 + 1) x row) ∧
     Utils.px [0; 1; 2; 2; 1; 0; 9]%Z (2 + 1) x row ≠ Err AssertionError)
  ∧ is_Ok (Utils.dhash_difference [0; 1; 2; 2; 1; 0; 9]%Z 2).
Proof. apply (dhash_px_assertion_holds 2 [0; 1; 2; 2; 1; 0; 9]%Z); simpl; lia. Defined.

(** ** The result monad and [mapLimit] *)

Lemma promise_all_app {A B} (f : A → result B) (l1 l2 : list A) :
  promise_all f (l1 ++ l2) =
    (ys1 ← promise_all f l1; ys2 ← promise_all f l2; Ok (ys1 ++ ys2)).
Proof.
  induction l1 as [|x l1 IH]; simpl.
  - by destruct (promise_all f l2).
  - destruct (f x) as [y|e]; simpl; [|done].
    rewrite IH. destruct (promise_all f l1) as [ys1|e]; simpl; [|done].
    by destruct (promise_all f l2).
Qed.

Lemma promise_all_Ok {A B} (f : A → result B) (l : list A) (ys : list B) :
  promise_all f l = Ok ys ↔ Forall2 (λ x y, f x = Ok y) l ys.
Proof.
  revert ys. induction l as [|x l IH]; intros ys; simpl.
  - split; [intros [= <-]; constructor | by inversion 1].
  - split.
    + destruct (f x) as [y|e] eqn:Hx; simpl; [|done].
      destruct (promise_all f l) as [ys'|e]; simpl; [|done].
      intros [= <-]. constructor; [done | by apply IH].
    + inversion 1 as [|? y ? ys' Hx Hrest]; subst.
      rewrite Hx. simpl. apply IH in Hrest. by rewrite Hrest.
Qed.

Lemma promise_all_total {A B} (f : A → result B) (l : list A) :
  Forall (λ x, is_Ok (f x)) l → is_Ok (promise_all f l).
Proof.
  induction 1 as [|x l Hx _ IH]; simpl; [done|].
  destruct (f x); simpl; [|done]. by destruct (promise_all f l).
Qed.

(** With a limit of at least one the loop of [mapLimit] ends within the fuel
    it is given and maps the rest of the array in order. *)
Lemma mapLimit_loop_spec {T R} (array : list T) (limit : nat)
    (iteratee : T → result R) (fuel i : nat) (results : list R) :
  1 ≤ limit → length array - i < fuel →
  Utils.mapLimit_loop fuel array limit iteratee i results =
    Some (ys ← promise_all iteratee (drop i array); Ok (results ++ ys)).
Proof.
  intros Hlimit. revert i results.
  induction fuel as [|fuel IH]; intros i results Hfuel; [lia|].
  simpl. destruct (Nat.ltb_spec i (length array)) as [Hi|Hi].
  - unfold Utils.slice. replace (i + limit - i) with limit by lia.
    rewrite <-(take_drop limit (drop i array)) at 2.
    rewrite promise_all_app, drop_drop.
    destruct (promise_all iteratee (take limit (drop i array))) as [ys1|e];
      simpl; [|done].
    rewrite IH by lia.
    destruct (promise_all iteratee (drop (i + limit) array)) as [ys2|e];
      simpl; [|done].
    by rewrite app_assoc.
  - rewrite drop_ge by done. simpl. by rewrite app_nil_r.
Qed.

Lemma mapLimit_promise_all {T R} (array : list T) (limit : nat)
    (iteratee : T → result R) :
  1 ≤ limit → Utils.mapLimit array limit iteratee = promise_all iteratee array.
Proof.
  intros Hlimit. unfold Utils.mapLimit, Utils.mapLimit_fuel.
  rewrite mapLimit_loop_spec by (simpl; lia).
  rewrite drop_0. by destruct (promise_all iteratee array).
Qed.

(** A limit of zero never advances the counter. *)
Lemma mapLimit_zero_diverges {T R} (x : T) (array : list T)
    (iteratee : T → result R) (fuel : nat) (results : list R) :
  Utils.mapLimit_loop fuel (x :: array) 0 iteratee 0 results = None.
Proof. revert results. induction fuel as [|fuel IH]; intros; simpl; [done | apply IH]. Qed.

Lemma hashListOf_promise_all (w : World) (imageFilePaths : list string) (n : nat) :
  hashListOf w imageFilePaths n =
    promise_all (λ file, Utils.dhash w file n) imageFilePaths.
Proof. apply mapLimit_promise_all. lia. Qed.

Lemma hashListOf_Forall2 (w : World) (imageFilePaths : list string) (n : nat)
    (hashList : list (list Z)) :
  hashListOf w imageFilePaths n = Ok hashList →
  Forall2 (λ file hash, Utils.dhash w file n = Ok hash) imageFilePaths hashList.
Proof. rewrite hashListOf_promise_all. apply promise_all_Ok. Qed.

(** C8.  [mapLimit] with the [dhash] iteratee keeps the order of the paths:
    it returns a list as soon as every path hashes, the list is as long as
    the path list, its [i]-th entry is the fingerprint of the [i]-th path,
    and so a position of the hash list names the image at the same position
    of [imageFilePaths]. *)
Theorem hashList_order_preserving (w : World) (imageFilePaths : list string)
    (n : nat) :
  (Forall (λ file, is_Ok (Utils.dhash w file n)) imageFilePaths →
   is_Ok (hashListOf w imageFilePaths n)) ∧
  ∀ hashList, hashListOf w imageFilePaths n = Ok hashList →
    length hashList = length imageFilePaths ∧
    (∀ i file, imageFilePaths !! i = Some file →
       ∃ hash, Utils.dhash w file n = Ok hash ∧ hashList !! i = Some hash) ∧
    (∀ idx hash, hashList !! idx = Some hash →
       ∃ file, imageFilePaths !! idx = Some file ∧ Utils.dhash w file n = Ok hash).
Proof.
  split.
  - rewrite hashListOf_promise_all. apply promise_all_total.
  - intros hashList Hall%hashListOf_Forall2. split; [|split].
    + symmetry. by eapply Forall2_length.
    + intros i file Hi.
      destruct (Forall2_lookup_l _ _ _ _ _ Hall Hi) as (hash & Hh & Hd). eauto.
    + intros idx hash Hidx.
      destruct (Forall2_lookup_r _ _ _ _ _ Hall Hidx) as (file & Hf & Hd). eauto.
Qed.

Lemma hashList_order_preserving_witness :
  hashListOf Disk.album ["dir/B.png"; "dir/c.png"] 8
    = Ok [replicate 8 0%Z; replicate 8 255%Z] ∧
  length [replicate 8 0%Z; replicate 8 255%Z] = length ["dir/B.png"; "dir/c.png"] ∧
  ∃ hash, Utils.dhash Disk.album "dir/c.png" 8 = Ok hash ∧
          [replicate 8 0%Z; replicate 8 255%Z] !! 1 = Some hash.
Proof.
  assert (hashListOf Disk.album ["dir/B.png"; "dir/c.png"] 8
          = Ok [replicate 8 0%Z; replicate 8 255%Z]) as Hrun by reflexivity.
  split; [exact Hrun|].
  destruct (hashList_order_preserving Disk.album ["dir/B.png"; "dir/c.png"] 8)
    as [_ Hspec].
  destruct (Hspec _ Hrun) as (Hlen & Hfwd & _).
  split; [exact Hlen|]. apply (Hfwd 1 "dir/c.png"). reflexivity.
Defined.

(** ** [Array.prototype.sort] *)

Lemma sort_insert_Permutation {A} (cmp : A → A → Z) (x : A) (l : list A) :
  sort_insert cmp x l ≡ₚ x :: l.
Proof.
  induction l as [|y l IH]; simpl; [done|].
  destruct (cmp x y <=? 0)%Z; [done|].
  rewrite IH. apply Permutation_swap.
Qed.

Lemma Array_sort_Permutation {A} (cmp : A → A → Z) (l : list A) :
  Array_sort cmp l ≡ₚ l.
Proof.
  induction l as [|x l IH]; simpl; [done|].
  by rewrite sort_insert_Permutation, IH.
Qed.

Lemma length_Array_sort {A} (cmp : A → A → Z) (l : list A) :
  length (Array_sort cmp l) = length l.
Proof. apply Permutation_length, Array_sort_Permutation. Qed.

Section SortedBy.

(** [R] is an order the comparator decides: [cmp x y <= 0] puts [x] before
    [y], anything else puts [y] before [x]. *)
Context {A : Type} (cmp : A → A → Z) (R : relation A).
Hypothesis R_trans : Transitive R.
Hypothesis cmp_le : ∀ x y, (cmp x y ≤ 0)%Z → R x y.
Hypothesis cmp_gt : ∀ x y, (0 < cmp x y)%Z → R y x.

Lemma sort_insert_StronglySorted (x : A) (l : list A) :
  StronglySorted R l → StronglySorted R (sort_insert cmp x l).
Proof.
  induction 1 as [|y l Hl IH Hy]; simpl.
  - repeat constructor.
  - destruct (Z.leb_spec (cmp x y) 0) as [Hle|Hgt].
    + constructor; [by constructor|].
      constructor; [by apply cmp_le|].
      eapply Forall_impl; [exact Hy|]. intros z Hz. simpl in Hz.
      etrans; [by apply cmp_le | done].
    + constructor; [done|].
      rewrite sort_insert_Permutation. constructor; [by apply cmp_gt | done].
Qed.

Lemma Array_sort_StronglySorted (l : list A) :
  StronglySorted R (Array_sort cmp l).
Proof.
  induction l as [|x l IH]; simpl; [constructor|].
  by apply sort_insert_StronglySorted.
Qed.

Lemma Array_sort_ordered (l : list A) (i j : nat) (a b : A) :
  i < j → Array_sort cmp l !! i = Some a → Array_sort cmp l !! j = Some b →
  R a b.
Proof.
  intros Hij Hi Hj.
  pose proof (Array_sort_StronglySorted l) as Hsorted.
  revert i j Hij Hi Hj. induction Hsorted as [|y l' _ IH Hy]; intros i j Hij Hi Hj.
  - by rewrite lookup_nil in Hi.
  - destruct j as [|j]; [lia|]. simpl in Hj. destruct i as [|i].
    + simpl in Hi. injection Hi as ->.
      rewrite Forall_forall in Hy. apply Hy.
      by eapply list_elem_of_lookup_2.
    + simpl in Hi. apply (IH i j); [lia | done | done].
Qed.

End SortedBy.

Lemma default_compare_le (x y : string) :
  (default_compare x y ≤ 0)%Z → String.le x y.
Proof.
  unfold default_compare, String.le, String.leb.
  destruct (String.compare x y); simpl; [done | done | lia].
Qed.

Lemma default_compare_gt (x y : string) :
  (0 < default_compare x y)%Z → String.le y x.
Proof.
  unfold default_compare, String.le, String.leb.
  rewrite (String.compare_antisym y x).
  destruct (String.compare x y); simpl; [lia | lia | done].
Qed.

(** Sorting strings by code units forgets the order they arrived in. *)
Lemma Array_sort_strings_unique (l1 l2 : list string) :
  l1 ≡ₚ l2 → Array_sort default_compare l1 = Array_sort default_compare l2.
Proof.
  intros Hperm. apply (StronglySorted_unique String.le).
  - apply Array_sort_StronglySorted;
      [apply _ | apply default_compare_le | apply default_compare_gt].
  - apply Array_sort_StronglySorted;
      [apply _ | apply default_compare_le | apply default_compare_gt].
  - by rewrite !Array_sort_Permutation.
Qed.

(** ** Collecting the image paths *)

Section Collect.

Variable w : World.

Lemma allImagePaths_fold (source : list string) (acc : list string) :
  fold_left (collect_item w) source acc =
  acc ++ concat (map (collect_item w []) source).
Proof.
  revert acc. induction source as [|item source IH]; intros acc; simpl.
  - by rewrite app_nil_r.
  - rewrite IH, app_assoc. f_equal.
    unfold collect_item.
    destruct (negb _); [by rewrite app_nil_r|].
    destruct (Utils.isFolder w item).
    + destruct (fs_readdir w item); by rewrite ?app_nil_r.
    + destruct (Utils.isImageFile item); by rewrite ?app_nil_r.
Qed.

Lemma allImagePaths_concat (source : list string) :
  allImagePaths w source = concat (map (collect_item w []) source).
Proof. unfold allImagePaths. by rewrite allImagePaths_fold. Qed.


Lemma allImagePaths_Permutation (l1 l2 : list string) :
  l1 ≡ₚ l2 → allImagePaths w l1 ≡ₚ allImagePaths w l2.
Proof. intros Hperm. rewrite !allImagePaths_concat. by rewrite Hperm. Qed.

End Collect.

(** ** Resolving groups to metadata *)

Lemma for_each_app {A S} (xs ys : list A) (body : A → S → result S) (s : S) :
  for_each (xs ++ ys) body s = (s' ← for_each xs body s; for_each ys body s').
Proof.
  revert s. induction xs as [|x xs IH]; intros s; simpl; [done|].
  destruct (body x s); simpl; [apply IH | done].
Qed.

Lemma for_each_cons {A S} (x : A) (xs : list A) (body : A → S → result S) (s : S) :
  for_each (x :: xs) body s = (s' ← body x s; for_each xs body s').
Proof. reflexivity. Qed.

(** A turn that fails whatever the state makes the whole loop fail. *)
Lemma for_each_fails {A S} (xs : list A) (body : A → S → result S) (x : A) (s : S) :
  x ∈ xs → (∀ s', is_Err (body x s')) → is_Err (for_each xs body s).
Proof.
  intros Hin Hfail. revert s.
  induction Hin as [x xs|x y xs _ IH]; intros s; simpl.
  - specialize (Hfail s). by destruct (body x s).
  - destruct (body y s); simpl; [by apply IH | done].
Qed.

Section Resolve.

Variable w : World.

Lemma resolve_files_paths (files : list (option string)) (acc imgs : list Image) :
  for_each files (resolve_file w) acc = Ok imgs →
  ∃ imgs', imgs = acc ++ imgs' ∧ map path imgs' = omap (kept w) files.
Proof.
  revert acc. induction files as [|file files IH]; intros acc; simpl.
  - intros [= <-]. exists []. by rewrite app_nil_r.
  - unfold resolve_file at 1, kept at 1. destruct file as [p|]; simpl.
    + destruct (Utils.pathExists w p); simpl; [|apply IH].
      destruct (sharp_metadata w p) as [m|]; simpl; [|done].
      intros (imgs' & -> & Hpaths)%IH.
      eexists (_ :: imgs'). rewrite <-app_assoc. split; [done|].
      simpl. by rewrite Hpaths.
    + apply IH.
Qed.




Lemma resolve_group_spec (files : list (option string))
    (out out' : list (list Image)) :
  resolve_group w files out = Ok out' →
  ∃ imgs : list Image,
    map path imgs = omap (kept w) files ∧
    out' = out ++ (if 0 <? length imgs
                   then [Array_sort (compareImages w) imgs] else []).
Proof.
  unfold resolve_group.
  destruct (for_each files (resolve_file w) []) as [imgs|e] eqn:Hfiles;
    simpl; [|done].
  apply resolve_files_paths in Hfiles as (imgs' & -> & Hpaths). simpl.
  rewrite length_Array_sort. exists imgs'. split; [done|].
  destruct (0 <? length imgs'); simplify_eq; [done | by rewrite app_nil_r].
Qed.

(** What the resolution loop returns: each group's entries sorted, the
    groups left without entry dropped. *)
Lemma resolve_loop_spec (duplicates : list (list (option string)))
    (out groups : list (list Image)) :
  for_each duplicates (resolve_group w) out = Ok groups →
  ∃ entries : list (list Image),
    Forall2 (λ files imgs, map path imgs = omap (kept w) files) duplicates entries ∧
    groups = out ++ map (Array_sort (compareImages w))
                        (List.filter (λ imgs, 0 <? length imgs) entries).
Proof.
  revert out. induction duplicates as [|files duplicates IH]; intros out.
  - intros [= <-]. exists []. split; [constructor | by rewrite app_nil_r].
  - rewrite for_each_cons.
    destruct (resolve_group w files out) as [out'|e] eqn:Hgroup; simpl; [|done].
    apply resolve_group_spec in Hgroup as (imgs & Hpaths & ->).
    intros (entries & Hall & ->)%IH. exists (imgs :: entries).
    split; [by constructor|]. simpl.
    destruct (0 <? length imgs); simpl; by rewrite <-app_assoc.
Qed.

Lemma resolveGroups_spec (duplicates : list (list (option string)))
    (groups : list (list Image)) :
  resolveGroups w duplicates = Ok groups →
  ∃ entries : list (list Image),
    Forall2 (λ files imgs, map path imgs = omap (kept w) files) duplicates entries ∧
    groups = map (Array_sort (compareImages w))
                 (List.filter (λ imgs, 0 <? length imgs) entries).
Proof. apply resolve_loop_spec. Qed.

(** Every returned group is the sorted entries of one group of
    [duplicates]. *)
Lemma resolveGroups_group (duplicates : list (list (option string)))
    (groups : list (list Image)) (g : list Image) :
  resolveGroups w duplicates = Ok groups → g ∈ groups →
  ∃ files imgs, files ∈ duplicates ∧ map path imgs = omap (kept w) files ∧
                0 < length imgs ∧ g = Array_sort (compareImages w) imgs.
Proof.
  intros (entries & Hall & ->)%resolveGroups_spec Hg.
  apply list_elem_of_fmap in Hg as (imgs & -> & Himgs).
  apply list_elem_of_In, filter_In in Himgs as [Himgs%list_elem_of_In Hlen].
  apply list_elem_of_lookup in Himgs as [k Hk].
  destruct (Forall2_lookup_r _ _ _ _ _ Hall Hk) as (files & Hfiles & Hpaths).
  exists files, imgs. split; [by eapply list_elem_of_lookup_2|].
  split; [done|]. split; [by apply Nat.ltb_lt | done].
Qed.

Lemma concat_filter_nonempty {A} (ls : list (list A)) :
  concat (List.filter (λ l, 0 <? length l) ls) = concat ls.
Proof.
  induction ls as [|l ls IH]; simpl; [done|].
  destruct l as [|x l]; simpl; [done | by rewrite IH].
Qed.

Lemma concat_sorted_Permutation {A} (cmp : A → A → Z) (ls : list (list A)) :
  concat (map (Array_sort cmp) ls) ≡ₚ concat ls.
Proof.
  induction ls as [|l ls IH]; simpl; [done|].
  by rewrite Array_sort_Permutation, IH.
Qed.

Lemma omap_concat {A B} (f : A → option B) (ls : list (list A)) :
  omap f (concat ls) = concat (map (omap f) ls).
Proof.
  induction ls as [|l ls IH]; simpl; [done|]. by rewrite omap_app, IH.
Qed.

(** The paths of the output are, up to order, the kept files of the
    groups. *)
Lemma resolveGroups_paths (duplicates : list (list (option string)))
    (groups : list (list Image)) :
  resolveGroups w duplicates = Ok groups →
  map path (concat groups) ≡ₚ omap (kept w) (concat duplicates).
Proof.
  intros (entries & Hall & ->)%resolveGroups_spec.
  rewrite concat_sorted_Permutation, concat_filter_nonempty.
  rewrite omap_concat.
  replace (map path (concat entries)) with (concat (map (map path) entries)).
  - f_equiv. induction Hall as [|files imgs ?? Hp _ IH]; simpl; [done|].
    by rewrite Hp, IH.
  - clear Hall. induction entries as [|e entries IH]; simpl; [done|].
    by rewrite map_app, IH.
Qed.

End Resolve.

(** ** Inputs without images, and inputs that are skipped *)

Lemma collect_item_nothing (w : World) (item : string) (acc : list string) :
  contributes_nothing w item → collect_item w acc item = acc.
Proof.
  unfold collect_item.
  intros [Hmissing | [[Hfile Hext] | [Hdir Hfiles]]].
  - by rewrite Hmissing.
  - rewrite Hfile, Hext. by destruct (negb _).
  - rewrite Hdir. destruct (negb _); [done|].
    destruct (fs_readdir w item) as [files|]; [|done].
    unfold imagePathsOf. rewrite (Hfiles files eq_refl). simpl.
    by rewrite app_nil_r.
Qed.


Lemma allImagePaths_nothing (w : World) (source : list string) :
  Forall (contributes_nothing w) source → allImagePaths w source = [].
Proof.
  intros Hall. rewrite allImagePaths_concat.
  induction Hall as [|item source Hitem _ IH]; simpl; [done|].
  by rewrite collect_item_nothing, IH.
Qed.

(** Without image paths nothing is hashed, no query is made and no group is
    resolved. *)
Lemma no_paths_no_groups (w : World) (options : Options) :
  (hashList ← hashListOf w [] (hashSize options);
   resolveGroups w (duplicatesOf w [] hashList (maxDuplicates options)
                                 (maxDistance options))) = Ok [].
Proof. reflexivity. Qed.

(** C9.  The empty list, a list of paths that are all missing or not images
    (or directories without image files), and an existing directory without
    image-file children all give the empty list of groups. *)
Theorem findDuplicateImages_no_images (w : World) (options : Options) :
  findDuplicateImages w (SourceArray []) options = Ok [] ∧
  (∀ source, Forall (contributes_nothing w) source →
     findDuplicateImages w (SourceArray source) options = Ok []) ∧
  (∀ dir files, fs_readdir w dir = Some files →
     List.filter Utils.isImageFile files = [] →
     findDuplicateImages w (SourceDir dir) options = Ok []).
Proof.
  split; [reflexivity|]. split.
  - intros source Hall. unfold findDuplicateImages. simpl.
    by rewrite allImagePaths_nothing.
  - intros dir files Hdir Hnone. unfold findDuplicateImages. simpl.
    rewrite Hdir. unfold imagePathsOf. by rewrite Hnone.
Qed.

Lemma findDuplicateImages_no_images_witness :
  Forall (contributes_nothing Disk.album) ["missing.png"; "notes/todo.txt"; "notes"] ∧
  findDuplicateImages Disk.album (SourceArray []) defaultOptions = Ok [] ∧
  findDuplicateImages Disk.album
    (SourceArray ["missing.png"; "notes/todo.txt"; "notes"]) defaultOptions = Ok [] ∧
  findDuplicateImages Disk.album (SourceDir "notes") defaultOptions = Ok [].
Proof.
  assert (Forall (contributes_nothing Disk.album)
                 ["missing.png"; "notes/todo.txt"; "notes"]) as Hall.
  { constructor; [|constructor; [|constructor; [|constructor]]].
    - left. reflexivity.
    - right. left. split; reflexivity.
    - right. right. split; [reflexivity|].
      intros files Hread. vm_compute in Hread. injection Hread as <-. reflexivity. }
  destruct (findDuplicateImages_no_images Disk.album defaultOptions)
    as (Hempty & Hlist & Hdir).
  split; [exact Hall|]. split; [exact Hempty|]. split.
  - apply Hlist, Hall.
  - apply (Hdir "notes" ["todo.txt"]); reflexivity.
Defined.



(** ** The grouping loop *)

Lemma fold_left_invariant {A S} (P : S → Prop) (step : S → A → S)
    (xs : list A) (s : S) :
  P s → (∀ s x, P s → P (step s x)) → P (fold_left step xs s).
Proof.
  intros Hs Hstep. revert s Hs.
  induction xs as [|x xs IH]; intros s Hs; simpl; [done|].
  apply IH. by apply Hstep.
Qed.

Lemma slice0_take {A} (l : list A) (e : Z) : ∃ k, slice0 l e = take k l.
Proof. unfold slice0. destruct (e <? 0)%Z; eauto. Qed.

Lemma slice0_sublist {A} (l : list A) (e : Z) : slice0 l e `sublist_of` l.
Proof. destruct (slice0_take l e) as [k ->]. apply sublist_take. Qed.

Lemma length_slice0 {A} (l : list A) (e : Z) :
  (0 ≤ e)%Z → length (slice0 l e) = Nat.min (Z.to_nat e) (length l).
Proof.
  intros He. unfold slice0.
  destruct (Z.ltb_spec e 0); [lia|]. by rewrite length_take.
Qed.

Section Grouping.

Variable w : World.
Variables (imageFilePaths : list string) (hashList : list (list Z)).
Variables (maxDup maxDist : Z).

Lemma group_step_with_paths (st : IdxState) (i : nat) :
  group_step w imageFilePaths hashList maxDup maxDist (with_paths imageFilePaths st) i =
  with_paths imageFilePaths (group_step_idx w hashList maxDup maxDist st i).
Proof.
  destruct st as [seen groups]. unfold group_step, group_step_idx, with_paths.
  simpl. destruct (decide (i ∈ seen)); [done|].
  destruct (1 <? length (kdtree_knn _ _ _ _ _)); [|done].
  fold (unclaimed w hashList maxDup maxDist seen i).
  destruct (1 <? length (unclaimed w hashList maxDup maxDist seen i)); [|done].
  simpl. by rewrite map_app.
Qed.

Lemma group_loop_with_paths (xs : list nat) (st : IdxState) :
  fold_left (group_step w imageFilePaths hashList maxDup maxDist) xs (with_paths imageFilePaths st) =
  with_paths imageFilePaths (fold_left (group_step_idx w hashList maxDup maxDist) xs st).
Proof.
  revert st. induction xs as [|x xs IH]; intros st; [done|].
  cbn [fold_left]. by rewrite group_step_with_paths, IH.
Qed.

Lemma duplicatesOf_paths :
  duplicatesOf w imageFilePaths hashList maxDup maxDist =
  map (paths_at imageFilePaths) (group_loop_idx w hashList maxDup maxDist).2.
Proof.
  unfold duplicatesOf, group_loop, group_loop_idx.
  pose proof (group_loop_with_paths (seq 0 (length hashList)) (∅, [])) as Hloop.
  unfold with_paths at 1 in Hloop. cbn [map fst snd] in Hloop.
  by rewrite Hloop.
Qed.

Lemma group_step_idx_cases (st : IdxState) (i : nat) :
  group_step_idx w hashList maxDup maxDist st i = st ∨
  (1 < length (unclaimed w hashList maxDup maxDist st.1 i) ∧
   group_step_idx w hashList maxDup maxDist st i =
     (st.1 ∪ list_to_set (slice0 (unclaimed w hashList maxDup maxDist st.1 i) maxDup),
      st.2 ++ [slice0 (unclaimed w hashList maxDup maxDist st.1 i) maxDup])).
Proof.
  destruct st as [seen groups]. unfold group_step_idx. simpl.
  destruct (decide (i ∈ seen)); [by left|].
  destruct (1 <? length (kdtree_knn _ _ _ _ _)); [|by left].
  destruct (Nat.ltb_spec 1 (length (unclaimed w hashList maxDup maxDist seen i))); [by right | by left].
Qed.

Lemma group_loop_claimed : claimed_inv (group_loop_idx w hashList maxDup maxDist).
Proof.
  unfold group_loop_idx. apply (fold_left_invariant claimed_inv).
  - intros i. simpl. by rewrite elem_of_nil.
  - intros st x Hinv. destruct (group_step_idx_cases st x) as [-> | [_ ->]]; [done|].
    intros i. simpl. rewrite concat_app. simpl. rewrite app_nil_r.
    rewrite elem_of_app, elem_of_union, elem_of_list_to_set.
    intros [Hold | Hnew]; [left; by apply Hinv | by right].
Qed.

Lemma group_loop_origin : Forall (group_origin w hashList maxDup maxDist) (group_loop_idx w hashList maxDup maxDist).2.
Proof.
  unfold group_loop_idx.
  apply (fold_left_invariant (λ st, Forall (group_origin w hashList maxDup maxDist) st.2)).
  - constructor.
  - intros st x Hinv. destruct (group_step_idx_cases st x) as [-> | [Hlen ->]]; [done|].
    simpl. apply Forall_app. split; [done|].
    constructor; [|constructor]. by exists st.1, x.
Qed.

Lemma unclaimed_fresh (seen : gset nat) (i idx : nat) :
  idx ∈ slice0 (unclaimed w hashList maxDup maxDist seen i) maxDup → idx ∉ seen.
Proof.
  intros Hin. eapply elem_of_sublist in Hin; [|apply slice0_sublist].
  unfold unclaimed in Hin. by apply list_elem_of_filter in Hin as [? _].
Qed.

Section DistinctNeighbours.

(** The contract of the index used here: a query returns each position at
    most once. *)
Hypothesis knn_NoDup : ∀ points query k d, NoDup (kdtree_knn w points query k d).

Lemma unclaimed_NoDup (seen : gset nat) (i : nat) :
  NoDup (slice0 (unclaimed w hashList maxDup maxDist seen i) maxDup).
Proof.
  eapply sublist_NoDup; [|apply slice0_sublist].
  unfold unclaimed. apply NoDup_filter, knn_NoDup.
Qed.

(** No position is put into two groups, nor twice into one. *)
Lemma group_loop_NoDup : NoDup (concat (group_loop_idx w hashList maxDup maxDist).2).
Proof.
  unfold group_loop_idx.
  apply (fold_left_invariant (λ st, claimed_inv st ∧ NoDup (concat st.2))).
  - split; [intros i; simpl; by rewrite elem_of_nil | constructor].
  - intros st x [Hclaimed Hnodup].
    destruct (group_step_idx_cases st x) as [-> | [_ ->]]; [done|].
    split.
    + intros i. simpl. rewrite concat_app. simpl. rewrite app_nil_r.
      rewrite elem_of_app, elem_of_union, elem_of_list_to_set.
      intros [Hold | Hnew]; [left; by apply Hclaimed | by right].
    + simpl. rewrite concat_app. simpl. rewrite app_nil_r.
      apply NoDup_app. split; [done|]. split; [|apply unclaimed_NoDup].
      intros i Hold Hnew. apply unclaimed_fresh in Hnew.
      by apply Hnew, Hclaimed.
Qed.

End DistinctNeighbours.

End Grouping.

(** Distinct positions of a list without repetition hold distinct paths. *)
Lemma kept_paths_NoDup (w : World) (imageFilePaths : list string) (idxs : list nat) :
  NoDup imageFilePaths → NoDup idxs →
  NoDup (omap (kept w) (paths_at imageFilePaths idxs)).
Proof.
  intros Hpaths. induction 1 as [|i idxs Hi _ IH]; simpl; [constructor|].
  destruct (kept w (imageFilePaths !! i)) as [p|] eqn:Hkept; [|done].
  constructor; [|done].
  intros (file & Hfile & Hp)%list_elem_of_omap.
  apply list_elem_of_fmap in Hfile as (j & -> & Hj).
  assert (imageFilePaths !! i = Some p) as Hip.
  { unfold kept in Hkept. destruct (imageFilePaths !! i) as [q|]; [|done].
    destruct (Utils.pathExists w q); naive_solver. }
  assert (imageFilePaths !! j = Some p) as Hjp.
  { unfold kept in Hp. destruct (imageFilePaths !! j) as [q|]; [|done].
    destruct (Utils.pathExists w q); naive_solver. }
  assert (i = j) as -> by (by apply (NoDup_lookup imageFilePaths i j p)).
  done.
Qed.

Lemma concat_paths_at (imageFilePaths : list string) (groups : list (list nat)) :
  concat (map (paths_at imageFilePaths) groups) =
  paths_at imageFilePaths (concat groups).
Proof.
  induction groups as [|g groups IH]; simpl; [done|].
  unfold paths_at in *. by rewrite map_app, IH.
Qed.

(** ** The reference index meets the contract *)

Lemma fst_imap_pair {A} (l : list A) (start : nat) :
  map fst (imap (λ i x, (start + i, x)) l) = seq start (length l).
Proof.
  revert start. induction l as [|x l IH]; intros start; simpl; [done|].
  rewrite Nat.add_0_r. f_equal.
  rewrite <-(IH (S start)). f_equal. apply imap_ext. intros i y _. simpl.
  f_equal. lia.
Qed.

Lemma fst_imap_pair0 {A} (l : list A) :
  map fst (imap pair l) = seq 0 (length l).
Proof. rewrite <-(fst_imap_pair l 0). f_equal. Qed.

Lemma filter_fst_sublist {A B} (P : A * B → bool) (l : list (A * B)) :
  map fst (List.filter P l) `sublist_of` map fst l.
Proof.
  induction l as [|x l IH]; simpl; [done|].
  destruct (P x); simpl; [by apply sublist_skip | by apply sublist_cons].
Qed.

Lemma Reference_knn_sublist_perm (points : list (list Z)) (query : list Z)
    (k maxDistance : Z) :
  ∃ l, Reference.knn points query k maxDistance `sublist_of` l ∧
       l ≡ₚ map fst (List.filter
              (λ ip, (Reference.dist2 ip.2 query <=? maxDistance * maxDistance)%Z)
              (imap pair points)).
Proof.
  unfold Reference.knn. destruct (_ || _).
  - eexists. split; [apply sublist_nil_l | done].
  - eexists. split; [apply sublist_take|].
    by rewrite Array_sort_Permutation.
Qed.

Lemma Reference_knn_NoDup (points : list (list Z)) (query : list Z)
    (k maxDistance : Z) :
  NoDup (Reference.knn points query k maxDistance).
Proof.
  destruct (Reference_knn_sublist_perm points query k maxDistance)
    as (l & Hsub & Hperm).
  eapply sublist_NoDup; [|exact Hsub]. rewrite Hperm.
  eapply sublist_NoDup; [|apply filter_fst_sublist].
  rewrite fst_imap_pair0. apply NoDup_seq.
Qed.

Lemma Reference_knn_in_range (points : list (list Z)) (query : list Z)
    (k maxDistance : Z) (idx : nat) :
  idx ∈ Reference.knn points query k maxDistance → idx < length points.
Proof.
  destruct (Reference_knn_sublist_perm points query k maxDistance)
    as (l & Hsub & Hperm).
  intros Hin. eapply elem_of_sublist in Hin; [|exact Hsub].
  rewrite Hperm in Hin.
  eapply elem_of_sublist in Hin; [|apply filter_fst_sublist].
  rewrite fst_imap_pair0 in Hin. apply elem_of_seq in Hin. lia.
Qed.

(** ** Partition *)

(** When the index returns each position at most once and the sorted list of
    image paths holds no path twice, no image path appears in two groups of
    the output nor twice in one group: the set of claimed positions does its
    work as long as a path has one position. *)
Theorem groups_partition_paths (w : World) (source : Source) (options : Options)
    (imageFilePaths : list string) (groups : list (list Image)) :
  (∀ points query k d, NoDup (kdtree_knn w points query k d)) →
  imageFilePathsOf w source = Ok imageFilePaths →
  NoDup imageFilePaths →
  findDuplicateImages w source options = Ok groups →
  NoDup (output_paths groups).
Proof.
  intros Hknn Hpaths Hnodup. unfold findDuplicateImages.
  rewrite Hpaths. simpl.
  destruct (hashListOf w imageFilePaths (hashSize options)) as [hashList|e];
    simpl; [|done].
  intros Hgroups%resolveGroups_paths. unfold output_paths.
  rewrite Hgroups, duplicatesOf_paths, concat_paths_at.
  apply kept_paths_NoDup; [done|]. by apply group_loop_NoDup.
Qed.

Lemma groups_partition_paths_witness :
  findDuplicateImages Disk.album (SourceDir "dir") defaultOptions
    = Ok [[ {| path := "dir/a.png"; width := 100; height := 100 |};
            {| path := "dir/B.png"; width := 100; height := 100 |} ]] ∧
  NoDup (output_paths
           [[ {| path := "dir/a.png"; width := 100; height := 100 |};
              {| path := "dir/B.png"; width := 100; height := 100 |} ]]).
Proof.
  assert (findDuplicateImages Disk.album (SourceDir "dir") defaultOptions
          = Ok [[ {| path := "dir/a.png"; width := 100; height := 100 |};
                  {| path := "dir/B.png"; width := 100; height := 100 |} ]])
    as Hrun by (vm_compute; reflexivity).
  split; [exact Hrun|].
  apply (groups_partition_paths Disk.album (SourceDir "dir") defaultOptions
           ["dir/B.png"; "dir/a.png"; "dir/c.png"]).
  - apply Reference_knn_NoDup.
  - vm_compute; reflexivity.
  - apply (bool_decide_unpack _). vm_compute. exact I.
  - exact Hrun.
Defined.

(** C1 fails for a file given both through its directory and by its own
    path: the path is listed twice, hashed twice, and returned twice in one
    group, since the loop claims positions of the list and nothing removes a
    repeated path from it. *)
Theorem repeated_path_grouped_with_itself :
  findDuplicateImages Disk.album (SourceArray ["dir"; "dir/a.png"]) defaultOptions
    = Ok [[ {| path := "dir/a.png"; width := 100; height := 100 |};
            {| path := "dir/a.png"; width := 100; height := 100 |};
            {| path := "dir/B.png"; width := 100; height := 100 |} ]] ∧
  ¬ NoDup (output_paths
             [[ {| path := "dir/a.png"; width := 100; height := 100 |};
                {| path := "dir/a.png"; width := 100; height := 100 |};
                {| path := "dir/B.png"; width := 100; height := 100 |} ]]).
Proof.
  split; [vm_compute; reflexivity|].
  unfold output_paths. simpl. intros Hnodup.
  apply NoDup_cons in Hnodup as [Hnotin _]. apply Hnotin. left.
Qed.

(** ** Group sizes *)

Lemma length_omap_le {A B} (f : A → option B) (l : list A) :
  length (omap f l) ≤ length l.
Proof.
  induction l as [|x l IH]; csimpl; [done|].
  destruct (f x); csimpl; lia.
Qed.

Lemma length_omap_total {A B} (f : A → option B) (l : list A) :
  Forall (λ x, is_Some (f x)) l → length (omap f l) = length l.
Proof.
  induction 1 as [|x l [y Hy] _ IH]; csimpl; [done|].
  rewrite Hy. csimpl. by rewrite IH.
Qed.

(** Where a returned group comes from: the sorted entries of the kept files
    of a group of positions the loop formed. *)
Lemma output_group_origin (w : World) (source : Source) (options : Options)
    (groups : list (list Image)) (g : list Image) :
  findDuplicateImages w source options = Ok groups → g ∈ groups →
  ∃ imageFilePaths hashList idxs imgs,
    imageFilePathsOf w source = Ok imageFilePaths ∧
    hashListOf w imageFilePaths (hashSize options) = Ok hashList ∧
    group_origin w hashList (maxDuplicates options) (maxDistance options) idxs ∧
    map path imgs = omap (kept w) (paths_at imageFilePaths idxs) ∧
    0 < length imgs ∧
    g = Array_sort (compareImages w) imgs.
Proof.
  unfold findDuplicateImages.
  destruct (imageFilePathsOf w source) as [imageFilePaths|e]; simpl; [|done].
  destruct (hashListOf w imageFilePaths (hashSize options)) as [hashList|e]
    eqn:Hhash; simpl; [|done].
  intros Hres Hg.
  destruct (resolveGroups_group w _ _ _ Hres Hg)
    as (files & imgs & Hfiles & Hpaths & Hlen & ->).
  rewrite duplicatesOf_paths in Hfiles.
  apply list_elem_of_fmap in Hfiles as (idxs & -> & Hidxs).
  pose proof (group_loop_origin w hashList (maxDuplicates options)
                                (maxDistance options)) as Horigin.
  rewrite Forall_forall in Horigin.
  exists imageFilePaths, hashList, idxs, imgs. eauto 10.
Qed.

(** No group is empty, and none is larger than a non-negative
    [maxDuplicates]. *)
Lemma group_size_upper (w : World) (source : Source) (options : Options)
    (groups : list (list Image)) (g : list Image) :
  (0 ≤ maxDuplicates options)%Z →
  findDuplicateImages w source options = Ok groups → g ∈ groups →
  1 ≤ length g ∧ (Z.of_nat (length g) ≤ maxDuplicates options)%Z.
Proof.
  intros Hmax Hrun Hg.
  destruct (output_group_origin w source options groups g Hrun Hg)
    as (paths & hashList & idxs & imgs & _ & _ & Horigin & Hpaths & Hlen & ->).
  rewrite length_Array_sort. split; [lia|].
  destruct Horigin as (seen & i & _ & ->).
  rewrite <-(length_map path), Hpaths.
  pose proof (length_omap_le (kept w)
    (paths_at paths (slice0 (unclaimed w hashList (maxDuplicates options)
                               (maxDistance options) seen i)
                            (maxDuplicates options)))) as Hle.
  unfold paths_at in Hle at 2. rewrite length_map, length_slice0 in Hle by done.
  lia.
Qed.

(** With [maxDuplicates >= 2], an index that answers with positions of the
    indexed list, and decoded files that exist, every group has at least two
    images. *)
Lemma group_size_lower (w : World) (source : Source) (options : Options)
    (groups : list (list Image)) (g : list Image) :
  (2 ≤ maxDuplicates options)%Z →
  (∀ points query k d idx,
     idx ∈ kdtree_knn w points query k d → idx < length points) →
  (∀ p width height pixels,
     sharp_raw w p width height = Some pixels → Utils.pathExists w p = true) →
  findDuplicateImages w source options = Ok groups → g ∈ groups →
  2 ≤ length g.
Proof.
  intros Hmax Hrange Hdecoded Hrun Hg.
  destruct (output_group_origin w source options groups g Hrun Hg)
    as (paths & hashList & idxs & imgs & _ & Hhash & Horigin & Hpaths & _ & ->).
  rewrite length_Array_sort, <-(length_map path), Hpaths.
  destruct Horigin as (seen & i & Hfound & ->).
  pose proof (hashListOf_Forall2 w paths _ hashList Hhash) as Hall.
  rewrite length_omap_total.
  - unfold paths_at. rewrite length_map, length_slice0 by lia. lia.
  - apply Forall_forall. intros file Hfile.
    apply list_elem_of_fmap in Hfile as (idx & -> & Hidx).
    eapply elem_of_sublist in Hidx; [|apply slice0_sublist].
    apply list_elem_of_filter in Hidx as [_ Hidx]. apply Hrange in Hidx.
    destruct (lookup_lt_is_Some_2 hashList idx Hidx) as [hash Hh].
    destruct (Forall2_lookup_r _ _ _ _ _ Hall Hh) as (file & -> & Hd).
    unfold Utils.dhash in Hd.
    destruct (sharp_raw w file (hashSize options + 1) (hashSize options))
      as [pixels|] eqn:Hraw; [|done].
    simpl. rewrite (Hdecoded _ _ _ _ Hraw). done.
Qed.

(** C2 fails at [maxDuplicates = 1]: two images with the same fingerprint
    pass the test for "more than one", the group is then cut to one image,
    and that group of one is returned. *)
Theorem maxDuplicates_one_group_of_one :
  findDuplicateImages Disk.album (SourceDir "dir")
    {| hashSize := 8; maxDuplicates := 1; maxDistance := 5 |}
  = Ok [[ {| path := "dir/B.png"; width := 100; height := 100 |} ]].
Proof. vm_compute. reflexivity. Qed.

(** ** Order within a group *)

Lemma compare_refl (s : string) : String.compare s s = Eq.
Proof.
  pose proof (String.compare_antisym s s) as Hanti.
  destruct (String.compare s s); simpl in Hanti; congruence.
Qed.

Lemma default_compare_le_iff (x y : string) :
  (default_compare x y ≤ 0)%Z ↔ String.le x y.
Proof.
  split; [apply default_compare_le|].
  unfold default_compare, String.le, String.leb.
  destruct (String.compare x y); simpl; [lia | lia | done].
Qed.

Lemma compare_Lt_iff (x y : string) :
  String.compare x y = Lt ↔ String.le x y ∧ x ≠ y.
Proof.
  split.
  - intros Hlt. split.
    + unfold String.le, String.leb. by rewrite Hlt.
    + intros ->. by rewrite compare_refl in Hlt.
  - intros [Hle Hne]. unfold String.le, String.leb in Hle.
    destruct (String.compare x y) eqn:Hcmp; [|done|done].
    by apply String.compare_eq_iff in Hcmp.
Qed.

Lemma compare_Lt_trans (x y z : string) :
  String.compare x y = Lt → String.compare y z = Lt → String.compare x z = Lt.
Proof.
  rewrite !compare_Lt_iff. intros [Hxy Hne] [Hyz _]. split.
  - by etrans.
  - intros ->. apply Hne. by apply (anti_symm String.le).
Qed.

Lemma default_compare_consistent : consistent_comparator default_compare.
Proof.
  split.
  - intros a b c. rewrite !default_compare_le_iff. intros. by etrans.
  - intros a b Hgt. apply default_compare_le_iff. by apply default_compare_gt.
Qed.

Lemma Collation_compare_le_iff (a b : string) :
  (Collation.compare a b ≤ 0)%Z ↔
  String.compare (Collation.lower_string a) (Collation.lower_string b) = Lt ∨
  (Collation.lower_string a = Collation.lower_string b ∧ String.le b a).
Proof.
  unfold Collation.compare.
  destruct (String.compare (Collation.lower_string a) (Collation.lower_string b))
    eqn:Hcmp.
  - rewrite default_compare_le_iff. apply String.compare_eq_iff in Hcmp.
    split; [by right | by intros [? | [_ ?]]].
  - split; [by left | lia].
  - split; [lia|]. intros [? | [Heq _]]; [done|].
    rewrite Heq, compare_refl in Hcmp. done.
Qed.

Lemma Collation_compare_consistent : consistent_comparator Collation.compare.
Proof.
  split.
  - intros a b c. rewrite !Collation_compare_le_iff.
    intros [Hab | [Hab Hba]] [Hbc | [Hbc Hcb]].
    + left. by eapply compare_Lt_trans.
    + left. by rewrite <-Hbc.
    + left. by rewrite Hab.
    + right. split; [congruence | by etrans].
  - intros a b Hgt. apply Collation_compare_le_iff.
    unfold Collation.compare in Hgt.
    rewrite (String.compare_antisym (Collation.lower_string b)).
    destruct (String.compare (Collation.lower_string a) (Collation.lower_string b))
      eqn:Hcmp; simpl.
    + right. apply String.compare_eq_iff in Hcmp. split; [done|].
      by apply default_compare_gt.
    + lia.
    + by left.
Qed.

Section GroupOrder.

Variable w : World.

Lemma compareImages_cases (a b : Image) :
  (resolution a ≠ resolution b ∧
   compareImages w a b = (resolution b - resolution a)%Z) ∨
  (resolution a = resolution b ∧
   compareImages w a b =
     localeCompare w (Path.basename (path a)) (Path.basename (path b))).
Proof.
  unfold compareImages, resolution.
  destruct (decide _) as [Hne|Heq]; [left | right]; split; try done; lia.
Qed.

Lemma by_resolution_trans : Transitive by_resolution.
Proof. unfold by_resolution. intros a b c ??. lia. Qed.

Lemma compareImages_le_resolution (a b : Image) :
  (compareImages w a b ≤ 0)%Z → by_resolution a b.
Proof.
  unfold by_resolution.
  destruct (compareImages_cases a b) as [[? ->] | [? _]]; lia.
Qed.

Lemma compareImages_gt_resolution (a b : Image) :
  (0 < compareImages w a b)%Z → by_resolution b a.
Proof.
  unfold by_resolution.
  destruct (compareImages_cases a b) as [[? ->] | [? _]]; lia.
Qed.

Section Collated.

Hypothesis collation_consistent : consistent_comparator (localeCompare w).

Lemma by_resolution_then_name_trans : Transitive (by_resolution_then_name w).
Proof.
  destruct collation_consistent as [Htrans _].
  intros a b c [Hab | [Hab Hnab]] [Hbc | [Hbc Hnbc]].
  - left. lia.
  - left. lia.
  - left. lia.
  - right. split; [lia|]. by eapply Htrans.
Qed.

Lemma compareImages_le_name (a b : Image) :
  (compareImages w a b ≤ 0)%Z → by_resolution_then_name w a b.
Proof.
  destruct (compareImages_cases a b) as [[Hne ->] | [Heq ->]]; intros Hle.
  - left. lia.
  - by right.
Qed.

Lemma compareImages_gt_name (a b : Image) :
  (0 < compareImages w a b)%Z → by_resolution_then_name w b a.
Proof.
  destruct collation_consistent as [_ Hsym].
  destruct (compareImages_cases a b) as [[Hne ->] | [Heq ->]]; intros Hgt.
  - left. lia.
  - right. split; [done|]. by apply Hsym.
Qed.

End Collated.

End GroupOrder.

(** C5, as amended.  In every returned group the resolution [width * height]
    never increases from one member to a later one; and, the collation of the
    runtime being a consistent comparator, two members of equal resolution
    stand in the order [localeCompare] gives their basenames. *)
Theorem groups_sorted_by_resolution (w : World) (source : Source)
    (options : Options) (groups : list (list Image)) (g : list Image) :
  findDuplicateImages w source options = Ok groups → g ∈ groups →
  (∀ i j a b, i < j → g !! i = Some a → g !! j = Some b →
     (resolution b ≤ resolution a)%Z) ∧
  (consistent_comparator (localeCompare w) →
   ∀ i j a b, i < j → g !! i = Some a → g !! j = Some b →
     resolution a = resolution b →
     (localeCompare w (Path.basename (path a)) (Path.basename (path b)) ≤ 0)%Z).
Proof.
  intros Hrun Hg.
  destruct (output_group_origin w source options groups g Hrun Hg)
    as (_ & _ & _ & imgs & _ & _ & _ & _ & _ & ->).
  split.
  - intros i j a b Hij Ha Hb.
    apply (Array_sort_ordered (compareImages w) by_resolution
             (by_resolution_trans)
             (compareImages_le_resolution w) (compareImages_gt_resolution w)
             imgs i j a b Hij Ha Hb).
  - intros Hcons i j a b Hij Ha Hb Heq.
    destruct (Array_sort_ordered (compareImages w) (by_resolution_then_name w)
                (by_resolution_then_name_trans w Hcons)
                (compareImages_le_name w) (compareImages_gt_name w Hcons)
                imgs i j a b Hij Ha Hb) as [Hlt | [_ Hname]]; [lia | done].
Qed.

Lemma groups_sorted_by_resolution_witness :
  findDuplicateImages Disk.album (SourceArray ["dir"]) defaultOptions
    = Ok [[ {| path := "dir/a.png"; width := 100; height := 100 |};
            {| path := "dir/B.png"; width := 100; height := 100 |} ]] ∧
  (resolution {| path := "dir/B.png"; width := 100; height := 100 |}
   ≤ resolution {| path := "dir/a.png"; width := 100; height := 100 |})%Z ∧
  (localeCompare Disk.album (Path.basename "dir/a.png") (Path.basename "dir/B.png")
   ≤ 0)%Z.
Proof.
  assert (findDuplicateImages Disk.album (SourceArray ["dir"]) defaultOptions
          = Ok [[ {| path := "dir/a.png"; width := 100; height := 100 |};
                  {| path := "dir/B.png"; width := 100; height := 100 |} ]])
    as Hrun by (vm_compute; reflexivity).
  split; [exact Hrun|].
  destruct (groups_sorted_by_resolution Disk.album (SourceArray ["dir"])
              defaultOptions _ _ Hrun (list_elem_of_here _ _)) as [Hres Hname].
  split.
  - apply (Hres 0 1); [lia | reflexivity | reflexivity].
  - apply (Hname Collation_compare_consistent 0 1
             {| path := "dir/a.png"; width := 100; height := 100 |}
             {| path := "dir/B.png"; width := 100; height := 100 |});
      [lia | reflexivity | reflexivity | reflexivity].
Defined.

(** C5 as stated fails: where the runtime collates ["a.png"] before
    ["B.png"], two images of equal resolution are returned in that order,
    which is descending by code units. *)
Lemma groups_sorted_counterexample :
  findDuplicateImages Disk.album (SourceDir "dir") defaultOptions
    = Ok [[ {| path := "dir/a.png"; width := 100; height := 100 |};
            {| path := "dir/B.png"; width := 100; height := 100 |} ]] ∧
  ¬ sorted_as_stated
      [ {| path := "dir/a.png"; width := 100; height := 100 |};
        {| path := "dir/B.png"; width := 100; height := 100 |} ].
Proof.
  split; [vm_compute; reflexivity|].
  intros Hsorted.
  destruct (Hsorted 0 1 _ _ (Nat.lt_0_succ 0) eq_refl eq_refl) as [_ Hname].
  specialize (Hname eq_refl). vm_compute in Hname. done.
Qed.

(** ** Packing the bits *)

Lemma parseInt2_from_bits (chunk : list bool) (acc : option N) :
  Utils.parseInt2_from (bits_string chunk) acc =
  match chunk with
  | [] => acc
  | _ => Some (chunk_value chunk (default 0%N acc))
  end.
Proof.
  revert acc. induction chunk as [|b chunk IH]; intros acc; [done|].
  destruct b; simpl; rewrite IH; by destruct chunk.
Qed.

Lemma parseInt2_bits (chunk : list bool) :
  chunk ≠ [] →
  Utils.parseInt2 (bits_string chunk) = Some (chunk_value chunk 0).
Proof.
  intros Hne. unfold Utils.parseInt2. rewrite parseInt2_from_bits.
  by destruct chunk.
Qed.

Lemma substring_bits_string (m : nat) (bits : list bool) :
  substring 0 m (bits_string bits) = bits_string (take m bits).
Proof.
  revert bits. induction m as [|m IH]; intros [|b bits]; simpl; try done.
  by rewrite IH.
Qed.

Lemma substring_skip (pre bits : list bool) (m : nat) :
  substring (length pre) m (bits_string (pre ++ bits)) =
  substring 0 m (bits_string bits).
Proof. induction pre as [|b pre IH]; simpl; [done | apply IH]. Qed.

Lemma str_slice_bits (pre bits : list bool) :
  Utils.str_slice (bits_string (pre ++ bits)) (length pre) (length pre + 4) =
  bits_string (take 4 bits).
Proof.
  unfold Utils.str_slice.
  rewrite length_bits_string, length_app, substring_skip, substring_bits_string.
  f_equal.
  destruct (Nat.le_ge_cases 4 (length bits)).
  - f_equal. lia.
  - rewrite !take_ge by lia. done.
Qed.

Lemma binaryToHex_loop_done (fuel : nat) (s : string) (i : nat) (output : string) :
  String.length s ≤ i → Utils.binaryToHex_loop fuel s i output = output.
Proof.
  intros Hi. destruct fuel as [|fuel]; simpl; [done|].
  by destruct (Nat.ltb_spec i (String.length s)); [lia|].
Qed.

Lemma binaryToHex_loop_pack (fuel : nat) (pre bits : list bool) (output : string) :
  length bits ≤ fuel →
  Utils.binaryToHex_loop fuel (bits_string (pre ++ bits)) (length pre) output =
  output +:+ pack bits.
Proof.
  revert pre bits output.
  induction fuel as [|fuel IH]; intros pre bits output Hfuel.
  - destruct bits; [|simpl in Hfuel; lia]. simpl. by rewrite append_nil_r.
  - simpl. rewrite length_bits_string, length_app.
    destruct (Nat.ltb_spec (length pre) (length pre + length bits)) as [Hlt|Hge].
    + rewrite str_slice_bits.
      rewrite parseInt2_bits by (destruct bits; [simpl in Hlt; lia | done]).
      destruct bits as [|a [|b [|c [|d rest]]]].
      * simpl in Hlt. lia.
      * rewrite binaryToHex_loop_done; [done|].
        rewrite length_bits_string, length_app. simpl. lia.
      * rewrite binaryToHex_loop_done; [done|].
        rewrite length_bits_string, length_app. simpl. lia.
      * rewrite binaryToHex_loop_done; [done|].
        rewrite length_bits_string, length_app. simpl. lia.
      * replace (pre ++ a :: b :: c :: d :: rest)
          with ((pre ++ [a; b; c; d]) ++ rest) by by rewrite <-app_assoc.
        replace (length pre + 4) with (length (pre ++ [a; b; c; d]))
          by (rewrite length_app; simpl; lia).
        rewrite IH by (simpl in Hfuel; lia).
        by rewrite append_assoc.
    + destruct bits; [|simpl in Hge; lia]. simpl. by rewrite append_nil_r.
Qed.

Lemma binaryToHex_output_pack (bits : list bool) :
  Utils.binaryToHex_output (bits_string bits) = pack bits.
Proof.
  unfold Utils.binaryToHex_output.
  rewrite (binaryToHex_loop_pack _ [] bits "") by by rewrite length_bits_string.
  done.
Qed.

(** Eight bits make one byte, and the byte gives the eight bits back. *)
Lemma binaryToHex_byte (a b c d e f g h : bool) (rest : list bool) :
  Utils.Buffer_from_hex (pack (a :: b :: c :: d :: e :: f :: g :: h :: rest)) =
  Z.of_N (chunk_value [a; b; c; d; e; f; g; h] 0)
    :: Utils.Buffer_from_hex (pack rest).
Proof. destruct a, b, c, d, e, f, g, h; reflexivity. Qed.

Lemma byte_bits_value (a b c d e f g h : bool) :
  byte_bits (Z.of_N (chunk_value [a; b; c; d; e; f; g; h] 0)) =
  [a; b; c; d; e; f; g; h].
Proof. destruct a, b, c, d, e, f, g, h; reflexivity. Qed.

(** Fewer than eight bits: one byte if two hex digits were written, none
    otherwise. *)
Lemma binaryToHex_tail (bits : list bool) :
  length bits < 8 →
  length (Utils.Buffer_from_hex (pack bits)) = (length bits + 3) / 4 / 2.
Proof.
  intros Hlen.
  destruct bits as [|a [|b [|c [|d [|e [|f [|g [|h rest]]]]]]]];
    try (simpl in Hlen; lia).
  - reflexivity.
  - destruct a; reflexivity.
  - destruct a, b; reflexivity.
  - destruct a, b, c; reflexivity.
  - destruct a, b, c, d; reflexivity.
  - destruct a, b, c, d, e; reflexivity.
  - destruct a, b, c, d, e, f; reflexivity.
  - destruct a, b, c, d, e, f, g; reflexivity.
Qed.

Lemma eight_at_a_time {A} (P : list A → Prop) :
  (∀ l, length l < 8 → P l) →
  (∀ a b c d e f g h rest, P rest →
     P (a :: b :: c :: d :: e :: f :: g :: h :: rest)) →
  ∀ l, P l.
Proof.
  intros Hshort Hstep l.
  induction l as [l IH] using (induction_ltof1 _ (@length A)).
  unfold ltof in IH.
  destruct l as [|a [|b [|c [|d [|e [|f [|g [|h rest]]]]]]]];
    try (apply Hshort; simpl; lia).
  apply Hstep, IH. simpl. lia.
Qed.

(** The fingerprint has one byte for every two hex digits, that is
    [ceil(bits / 4) / 2] bytes. *)
Lemma length_binaryToHex (bits : list bool) :
  length (Utils.binaryToHex (bits_string bits)) = (length bits + 3) / 4 / 2.
Proof.
  unfold Utils.binaryToHex. rewrite binaryToHex_output_pack.
  induction bits as [bits Hshort | a b c d e f g h rest IH] using eight_at_a_time.
  - by apply binaryToHex_tail.
  - rewrite binaryToHex_byte. cbn [length]. rewrite IH.
    rewrite !Nat.Div0.div_div.
    replace (S (S (S (S (S (S (S (S (length rest)))))))) + 3)
      with (length rest + 3 + 1 * (4 * 2)) by lia.
    rewrite Nat.div_add by lia. lia.
Qed.

(** A whole number of bytes is packed without loss. *)
Lemma unpack_binaryToHex (bits : list bool) :
  length bits `mod` 8 = 0 →
  unpack (Utils.binaryToHex (bits_string bits)) = bits.
Proof.
  unfold Utils.binaryToHex. rewrite binaryToHex_output_pack.
  induction bits as [bits Hshort | a b c d e f g h rest IH] using eight_at_a_time.
  - intros Hmod. rewrite Nat.mod_small in Hmod by done.
    by destruct bits.
  - intros Hmod. rewrite binaryToHex_byte. unfold unpack. cbn [flat_map].
    rewrite byte_bits_value. simpl. do 8 f_equal. apply IH.
    cbn [length] in Hmod.
    replace (S (S (S (S (S (S (S (S (length rest))))))))) with (length rest + 1 * 8)
      in Hmod by lia.
    by rewrite Nat.Div0.mod_add in Hmod.
Qed.

(** X5.  On a decoded grid that is large enough [dhash] returns a
    fingerprint; for a grid size that is a multiple of four it holds exactly
    the [n * n] gradient bits, in order, and for every other size it holds
    fewer bits than the grid has gradients. *)
Lemma dhash_fingerprint_bits (n : nat) (pixels : list Z) :
  (n + 1) * n ≤ length pixels →
  ∃ fingerprint,
    Utils.dhash_pixels pixels n = Ok fingerprint ∧
    (n `mod` 4 = 0 →
       8 * length fingerprint = n * n ∧ unpack fingerprint = gradients pixels n) ∧
    (n `mod` 4 ≠ 0 → 8 * length fingerprint < n * n).
Proof.
  intros Hgrid.
  exists (Utils.binaryToHex (bits_string (gradients pixels n))).
  split; [unfold Utils.dhash_pixels; by rewrite dhash_difference_gradients|].
  rewrite length_binaryToHex, length_gradients, Nat.Div0.div_div.
  pose proof (Nat.div_mod_eq n 4) as Hn.
  pose proof (Nat.mod_upper_bound n 4) as Hr.
  split.
  - intros Hmod. rewrite Hmod in Hn.
    assert (n * n = 2 * (n `div` 4) * (n `div` 4) * 8) as Hsq by nia.
    split.
    + rewrite Hsq.
      replace (2 * (n `div` 4) * (n `div` 4) * 8 + 3)
        with (3 + 2 * (n `div` 4) * (n `div` 4) * (4 * 2)) by lia.
      rewrite Nat.div_add by lia. simpl. lia.
    + apply unpack_binaryToHex. rewrite length_gradients, Hsq.
      apply Nat.Div0.mod_mul.
  - intros Hmod.
    set (q := n `div` 4) in *. set (r := n `mod` 4) in *.
    assert (n * n + 3 = (r * r + 3) + (2 * q * q + q * r) * (4 * 2)) as Hsq by nia.
    rewrite Hsq, Nat.div_add by lia.
    assert (r = 1 ∨ r = 2 ∨ r = 3) as [-> | [-> | ->]] by lia; simpl; nia.
Qed.

(** C3 fails at [hashSize = 2]: the four bits make a single hex digit, which
    the hex decoder drops, so two grids with opposite bits both get the empty
    fingerprint. *)
Theorem dhash_hashSize2_fingerprint_empty :
  Utils.dhash_difference [0; 1; 2; 0; 1; 2]%Z 2 = Ok "1111" ∧
  Utils.dhash_difference [2; 1; 0; 2; 1; 0]%Z 2 = Ok "0000" ∧
  Utils.binaryToHex_output "1111" = "f" ∧
  Utils.dhash_pixels [0; 1; 2; 0; 1; 2]%Z 2 = Ok [] ∧
  Utils.dhash_pixels [2; 1; 0; 2; 1; 0]%Z 2 = Ok [].
Proof. repeat split; reflexivity. Qed.

(** * Further properties of the library *)

(** ** [mapLimit] with any limit *)

Lemma promise_all_Err {A B} (f : A → result B) (l : list A) :
  is_Err (promise_all f l) ↔ Exists (λ x, is_Err (f x)) l.
Proof.
  induction l as [|x l IH]; simpl.
  - split; [done | by inversion 1].
  - rewrite Exists_cons. destruct (f x) as [y|e]; simpl.
    + rewrite <-IH. destruct (promise_all f l); simpl.
      * split; [done | by intros [[]|[]]].
      * split; [by right | done].
    + split; [by left | done].
Qed.

(** X1.  With a limit of at least one, [mapLimit] resolves exactly when the
    iteratee resolves for every element, to the results in the order of the
    array, whatever the limit; it rejects exactly when the iteratee rejects
    for some element, and then returns no partial list. *)
Theorem mapLimit_resolves_in_order {T R} (array : list T) (limit : nat)
    (iteratee : T → result R) :
  1 ≤ limit →
  (∀ results, Utils.mapLimit array limit iteratee = Ok results ↔
              Forall2 (λ x y, iteratee x = Ok y) array results) ∧
  (is_Err (Utils.mapLimit array limit iteratee) ↔
   Exists (λ x, is_Err (iteratee x)) array) ∧
  (∀ results, Utils.mapLimit array limit iteratee = Ok results →
              length results = length array).
Proof.
  intros Hlimit. rewrite mapLimit_promise_all by done.
  split; [|split].
  - intros results. apply promise_all_Ok.
  - apply promise_all_Err.
  - intros results Hall%promise_all_Ok. symmetry. by eapply Forall2_length.
Qed.

Lemma mapLimit_resolves_in_order_witness :
  Utils.mapLimit [1; 2; 3; 4; 5] 2 (λ n, Ok (n * n)) = Ok [1; 4; 9; 16; 25] ∧
  length [1; 4; 9; 16; 25] = length [1; 2; 3; 4; 5].
Proof.
  destruct (mapLimit_resolves_in_order [1; 2; 3; 4; 5] 2 (λ n, Ok (n * n)))
    as (Hok & _ & Hlen); [lia|].
  assert (Utils.mapLimit [1; 2; 3; 4; 5] 2 (λ n, Ok (n * n)) = Ok [1; 4; 9; 16; 25])
    as Hrun.
  { apply Hok. repeat constructor. }
  split; [exact Hrun | exact (Hlen _ Hrun)].
Defined.

(** X2.  With a limit of zero the counter of [mapLimit] never advances: on a
    non-empty array the loop is still running after any number of turns, and
    only the empty array is mapped (to the empty list). *)
Theorem mapLimit_limit_zero {T R} (iteratee : T → result R) :
  (∀ fuel x array, Utils.mapLimit_fuel fuel (x :: array) 0 iteratee = None) ∧
  (∀ x array, Utils.mapLimit (x :: array) 0 iteratee = Err Diverges) ∧
  Utils.mapLimit [] 0 iteratee = Ok [].
Proof.
  split; [|split].
  - intros fuel x array. apply mapLimit_zero_diverges.
  - intros x array. unfold Utils.mapLimit, Utils.mapLimit_fuel.
    by rewrite mapLimit_zero_diverges.
  - reflexivity.
Qed.

(** ** What [binaryToHex] returns *)

Lemma ascii_to_digit_lt (c : ascii) (v : N) :
  HexString.ascii_to_digit c = Some v → (v < 16)%N.
Proof.
  destruct c as [[] [] [] [] [] [] [] []]; simpl; intros [= <-]; lia.
Qed.

Lemma Buffer_from_hex_bytes (output : string) :
  Forall (λ byte, (0 ≤ byte < 256)%Z) (Utils.Buffer_from_hex output).
Proof.
  induction output as [output IH] using (induction_ltof1 _ String.length).
  unfold ltof in IH.
  destruct output as [|hi [|lo rest]]; simpl; [constructor | constructor|].
  destruct (HexString.ascii_to_digit hi) as [h|] eqn:Hh; [|constructor].
  destruct (HexString.ascii_to_digit lo) as [l|] eqn:Hl; [|constructor].
  apply ascii_to_digit_lt in Hh, Hl.
  constructor; [lia | apply IH; simpl; lia].
Qed.

(** X3.  For a string of [L] binary digits [binaryToHex] returns
    [ceil(L / 4) / 2] bytes (integer division), each between 0 and 255: a
    trailing odd hex digit gives no byte. *)
Theorem binaryToHex_length_and_range (bits : list bool) :
  length (Utils.binaryToHex (bits_string bits)) = (length bits + 3) / 4 / 2 ∧
  8 * length (Utils.binaryToHex (bits_string bits)) ≤ length bits + 3 ∧
  Forall (λ byte, (0 ≤ byte < 256)%Z) (Utils.binaryToHex (bits_string bits)).
Proof.
  split; [apply length_binaryToHex|]. split.
  - rewrite length_binaryToHex, Nat.Div0.div_div.
    pose proof (Nat.Div0.mul_div_le (length bits + 3) (4 * 2)). lia.
  - apply Buffer_from_hex_bytes.
Qed.

(** X4.  On binary strings whose length is a multiple of eight
    [binaryToHex] loses nothing: the bits of the bytes, most significant
    first, are the digits of the string, so two such strings with the same
    buffer are the same string. *)
Theorem binaryToHex_whole_bytes_injective (bits1 bits2 : list bool) :
  length bits1 `mod` 8 = 0 → length bits2 `mod` 8 = 0 →
  unpack (Utils.binaryToHex (bits_string bits1)) = bits1 ∧
  8 * length (Utils.binaryToHex (bits_string bits1)) = length bits1 ∧
  (Utils.binaryToHex (bits_string bits1) = Utils.binaryToHex (bits_string bits2) →
   bits1 = bits2).
Proof.
  intros Hlen1 Hlen2. split; [by apply unpack_binaryToHex|]. split.
  - rewrite length_binaryToHex, Nat.Div0.div_div.
    pose proof (Nat.div_mod_eq (length bits1) 8) as Hdiv.
    rewrite Hlen1 in Hdiv.
    replace (length bits1 + 3) with (3 + length bits1 `div` 8 * (4 * 2)) by lia.
    rewrite Nat.div_add by lia. change (3 / (4 * 2)) with 0. lia.
  - intros Heq.
    rewrite <-(unpack_binaryToHex bits1), <-(unpack_binaryToHex bits2) by done.
    by rewrite Heq.
Qed.

Lemma binaryToHex_whole_bytes_injective_witness :
  unpack (Utils.binaryToHex
            (bits_string [true; false; true; false; true; true; true; true]))
    = [true; false; true; false; true; true; true; true] ∧
  8 * length (Utils.binaryToHex
                (bits_string [true; false; true; false; true; true; true; true]))
    = length [true; false; true; false; true; true; true; true].
Proof.
  destruct (binaryToHex_whole_bytes_injective
              [true; false; true; false; true; true; true; true]
              [true; false; true; false; true; true; true; true])
    as (Hround & Hlen & _); [reflexivity | reflexivity |].
  split; [exact Hround | exact Hlen].
Defined.

(** ** When the loop of [dhash] fails *)

Lemma for_each_only_assertion {A S} (xs : list A) (body : A → S → result S) (s : S) :
  (∀ x s', only_assertion (body x s')) → only_assertion (for_each xs body s).
Proof.
  intros Hbody. revert s. induction xs as [|x xs IH]; intros s; simpl; [done|].
  specialize (Hbody x s). destruct (body x s); simpl; [apply IH | done].
Qed.

Lemma px_only_assertion (pixels : list Z) (width x y : nat) :
  only_assertion (Utils.px pixels width x y).
Proof. unfold Utils.px. by destruct (_ <? _). Qed.

Lemma dhash_difference_only_assertion (pixels : list Z) (n : nat) :
  only_assertion (Utils.dhash_difference pixels n).
Proof.
  unfold Utils.dhash_difference.
  apply for_each_only_assertion. intros row difference.
  apply for_each_only_assertion. intros col difference'.
  pose proof (px_only_assertion pixels (n + 1) col row) as Hleft.
  destruct (Utils.px pixels (n + 1) col row); simpl; [|done].
  pose proof (px_only_assertion pixels (n + 1) (col + 1) row) as Hright.
  by destruct (Utils.px pixels (n + 1) (col + 1) row).
Qed.

Lemma dhash_difference_short (pixels : list Z) (n : nat) :
  1 ≤ n → length pixels < (n + 1) * n →
  is_Err (Utils.dhash_difference pixels n).
Proof.
  intros Hn Hshort. unfold Utils.dhash_difference.
  apply (for_each_fails _ _ (n - 1)).
  - apply elem_of_seq. lia.
  - intros difference. apply (for_each_fails _ _ (n - 1)).
    + apply elem_of_seq. lia.
    + intros difference'.
      destruct (Utils.px pixels (n + 1) (n - 1) (n - 1)); simpl; [|done].
      rewrite px_Err; [done | nia].
Qed.

(** X6.  For a grid size of at least one, the double loop of [dhash] fails
    exactly when the decoded buffer is shorter than the [(n + 1) * n] grid,
    and the only failure it has is the assertion of [px]; with a buffer that
    covers the grid it returns [n * n] binary digits. *)
Theorem dhash_difference_fails_iff_short (n : nat) (pixels : list Z) :
  1 ≤ n →
  (Utils.dhash_difference pixels n = Err AssertionError ↔
   length pixels < (n + 1) * n) ∧
  (length pixels < (n + 1) * n →
   Utils.dhash_pixels pixels n = Err AssertionError) ∧
  ((n + 1) * n ≤ length pixels →
   ∃ difference, Utils.dhash_difference pixels n = Ok difference ∧
                 String.length difference = n * n).
Proof.
  intros Hn.
  assert (length pixels < (n + 1) * n →
          Utils.dhash_difference pixels n = Err AssertionError) as Hshort.
  { intros Hlt. pose proof (dhash_difference_short pixels n Hn Hlt) as Herr.
    pose proof (dhash_difference_only_assertion pixels n) as Honly.
    destruct (Utils.dhash_difference pixels n); simpl in *; [done | by subst]. }
  split; [|split].
  - split; [|done]. intros Herr.
    destruct (Nat.lt_ge_cases (length pixels) ((n + 1) * n)) as [|Hge]; [done|].
    by rewrite dhash_difference_gradients in Herr.
  - intros Hlt. unfold Utils.dhash_pixels. by rewrite Hshort.
  - intros Hge. exists (bits_string (gradients pixels n)).
    split; [by apply dhash_difference_gradients|].
    by rewrite length_bits_string, length_gradients.
Qed.

Lemma dhash_difference_fails_iff_short_witness :
  Utils.dhash_difference [0; 1; 2; 3; 4]%Z 2 = Err AssertionError ∧
  Utils.dhash_pixels [0; 1; 2; 3; 4]%Z 2 = Err AssertionError.
Proof.
  destruct (dhash_difference_fails_iff_short 2 [0; 1; 2; 3; 4]%Z)
    as (Hiff & Hpix & _); [lia|].
  split; [apply Hiff; simpl; lia | apply Hpix; simpl; lia].
Defined.

Lemma dhash_fingerprint_bits_witness :
  ∃ fingerprint,
    Utils.dhash_pixels (replicate 20 0%Z) 4 = Ok fingerprint ∧
    (4 `mod` 4 = 0 →
       8 * length fingerprint = 4 * 4 ∧
       unpack fingerprint = gradients (replicate 20 0%Z) 4) ∧
    (4 `mod` 4 ≠ 0 → 8 * length fingerprint < 4 * 4).
Proof. apply (dhash_fingerprint_bits 4 (replicate 20 0%Z)). simpl. lia. Defined.

(** ** Failure of the decoder *)

Lemma promise_all_first_Err {A B} (f : A → result B) (pre post : list A)
    (x : A) (e : error) :
  Forall (λ y, is_Ok (f y)) pre → f x = Err e →
  promise_all f (pre ++ x :: post) = Err e.
Proof.
  intros Hpre Hx. induction Hpre as [|y pre Hy _ IH]; simpl.
  - by rewrite Hx.
  - destruct (f y); simpl; [|done]. by rewrite IH.
Qed.

(** X7.  An image path that the decoder rejects aborts the whole call: when
    the paths before it in the sorted list hash, the call returns the decode
    failure of that path and no groups. *)
Theorem findDuplicateImages_decode_failure (w : World) (source : Source)
    (options : Options) (before after : list string) (file : string) :
  imageFilePathsOf w source = Ok (before ++ file :: after) →
  Forall (λ f, is_Ok (Utils.dhash w f (hashSize options))) before →
  sharp_raw w file (hashSize options + 1) (hashSize options) = None →
  Utils.dhash w file (hashSize options) = Err (DecodeFailure file) ∧
  findDuplicateImages w source options = Err (DecodeFailure file).
Proof.
  intros Hpaths Hbefore Hraw.
  assert (Utils.dhash w file (hashSize options) = Err (DecodeFailure file)) as Hd.
  { unfold Utils.dhash. by rewrite Hraw. }
  split; [done|]. unfold findDuplicateImages. rewrite Hpaths. simpl.
  rewrite hashListOf_promise_all.
  by rewrite (promise_all_first_Err _ before after file (DecodeFailure file)).
Qed.

Lemma findDuplicateImages_decode_failure_witness :
  Utils.dhash Scenes.album_broken "broken/ghost.png" 8
    = Err (DecodeFailure "broken/ghost.png") ∧
  findDuplicateImages Scenes.album_broken (SourceArray ["dir"; "broken"])
                      defaultOptions
    = Err (DecodeFailure "broken/ghost.png").
Proof.
  apply (findDuplicateImages_decode_failure Scenes.album_broken
           (SourceArray ["dir"; "broken"]) defaultOptions
           [] ["dir/B.png"; "dir/a.png"; "dir/c.png"] "broken/ghost.png").
  - vm_compute; reflexivity.
  - constructor.
  - reflexivity.
Defined.

(** ** Which paths are hashed *)

Lemma elem_of_concat {A} (x : A) (ls : list (list A)) :
  x ∈ concat ls ↔ ∃ l, l ∈ ls ∧ x ∈ l.
Proof.
  rewrite list_elem_of_In, in_concat. split.
  - intros (l & Hl & Hx). exists l. by rewrite !list_elem_of_In.
  - intros (l & Hl & Hx). exists l. by rewrite <-!list_elem_of_In.
Qed.

Lemma elem_of_imagePathsOf (dir : string) (files : list string) (p : string) :
  p ∈ imagePathsOf dir files ↔
  ∃ f, f ∈ files ∧ Utils.isImageFile f = true ∧ p = Path.join dir f.
Proof.
  unfold imagePathsOf. rewrite list_elem_of_fmap. split.
  - intros (f & -> & Hf). rewrite Array_sort_Permutation in Hf.
    apply list_elem_of_In, filter_In in Hf as [Hf Himg].
    exists f. by rewrite list_elem_of_In.
  - intros (f & Hf & Himg & ->). exists f. split; [done|].
    rewrite Array_sort_Permutation. apply list_elem_of_In, filter_In.
    by rewrite <-list_elem_of_In.
Qed.

Lemma elem_of_collect_item (w : World) (item p : string) :
  p ∈ collect_item w [] item ↔
  Utils.pathExists w item = true ∧
  ((Utils.isFolder w item = false ∧ Utils.isImageFile item = true ∧ p = item) ∨
   (Utils.isFolder w item = true ∧
    ∃ files f, fs_readdir w item = Some files ∧ f ∈ files ∧
               Utils.isImageFile f = true ∧ p = Path.join item f)).
Proof.
  unfold collect_item.
  destruct (Utils.pathExists w item); simpl;
    [|rewrite elem_of_nil; split; [done | by intros [? _]]].
  destruct (Utils.isFolder w item).
  - destruct (fs_readdir w item) as [files|]; simpl.
    + rewrite elem_of_imagePathsOf. split.
      * intros (f & Hf & Himg & ->). split; [done|]. right. split; [done|].
        by exists files, f.
      * intros [_ [[? _] | [_ (files' & f & [= <-] & Hf & Himg & ->)]]]; [done|].
        by exists f.
    + rewrite elem_of_nil. split; [done|].
      by intros [_ [[? _] | [_ (? & ? & ? & _)]]].
  - destruct (Utils.isImageFile item); simpl.
    + rewrite list_elem_of_singleton. split.
      * intros ->. split; [done|]. by left.
      * by intros [_ [(_ & _ & ->) | [? _]]].
    + rewrite elem_of_nil. split; [done|].
      by intros [_ [(_ & ? & _) | [? _]]].
Qed.

(** X8.  For an array input the list that is hashed is in ascending order of
    code units, and it holds exactly the paths gathered from the items:
    existing files with an image extension given by name, and the entries
    with an image extension of the directories that could be listed, joined
    to the directory; nothing else is hashed, and no gathered path is left
    out. *)
Theorem imageFilePaths_sorted_and_gathered (w : World) (items : list string) :
  ∃ imageFilePaths,
    imageFilePathsOf w (SourceArray items) = Ok imageFilePaths ∧
    StronglySorted String.le imageFilePaths ∧
    ∀ p, p ∈ imageFilePaths ↔ gathered w items p.
Proof.
  eexists. split; [reflexivity|]. split.
  - apply Array_sort_StronglySorted;
      [apply _ | apply default_compare_le | apply default_compare_gt].
  - intros p. rewrite Array_sort_Permutation, allImagePaths_concat.
    rewrite elem_of_concat. unfold gathered. split.
    + intros (l & Hl & Hp). apply list_elem_of_fmap in Hl as (item & -> & Hitem).
      apply elem_of_collect_item in Hp as [Hex Hcases]. by exists item.
    + intros (item & Hitem & Hex & Hcases).
      exists (collect_item w [] item). split.
      * apply list_elem_of_fmap. by exists item.
      * by apply elem_of_collect_item.
Qed.

(** ** What the output holds *)

Lemma for_each_invariant {A S} (P : S → Prop) (xs : list A)
    (body : A → S → result S) (s s' : S) :
  P s → (∀ x t t', P t → body x t = Ok t' → P t') →
  for_each xs body s = Ok s' → P s'.
Proof.
  intros Hs Hstep. revert s Hs.
  induction xs as [|x xs IH]; intros s Hs; simpl.
  - by intros [= <-].
  - destruct (body x s) as [t|e] eqn:Hbody; simpl; [|done].
    apply IH. by eapply Hstep.
Qed.

Lemma resolve_file_resolved (w : World) (file : option string)
    (acc acc' : list Image) :
  Forall (resolved w) acc → resolve_file w file acc = Ok acc' →
  Forall (resolved w) acc'.
Proof.
  intros Hacc. unfold resolve_file. destruct file as [p|]; [|by intros [= <-]].
  destruct (Utils.pathExists w p) eqn:Hex; [|by intros [= <-]].
  destruct (sharp_metadata w p) as [m|] eqn:Hm; [|done].
  intros [= <-]. apply Forall_app. split; [done|].
  constructor; [|constructor]. split; [done|]. by exists m.
Qed.

Lemma resolve_group_resolved (w : World) (files : list (option string))
    (out out' : list (list Image)) :
  Forall (Forall (resolved w)) out → resolve_group w files out = Ok out' →
  Forall (Forall (resolved w)) out'.
Proof.
  intros Hout. unfold resolve_group.
  destruct (for_each files (resolve_file w) []) as [imgs|e] eqn:Hfiles;
    simpl; [|done].
  assert (Forall (resolved w) imgs) as Himgs.
  { eapply (for_each_invariant (Forall (resolved w))); [|..|exact Hfiles].
    - constructor.
    - intros file t t' Ht Hbody. by eapply resolve_file_resolved. }
  destruct (0 <? _); intros [= <-]; [|done].
  apply Forall_app. split; [done|]. constructor; [|constructor].
  by rewrite Array_sort_Permutation.
Qed.

Lemma resolveGroups_resolved (w : World) (duplicates : list (list (option string)))
    (groups : list (list Image)) :
  resolveGroups w duplicates = Ok groups → Forall (Forall (resolved w)) groups.
Proof.
  unfold resolveGroups.
  apply (for_each_invariant (Forall (Forall (resolved w)))); [constructor|].
  intros files t t' Ht Hbody. by eapply resolve_group_resolved.
Qed.

(** X9.  Every image of the output is one of the hashed paths, passed the
    existence check, and carries the width and height of its metadata, an
    undefined one replaced by 0. *)
Theorem output_images_resolved (w : World) (source : Source) (options : Options)
    (groups : list (list Image)) (g : list Image) (img : Image) :
  findDuplicateImages w source options = Ok groups → g ∈ groups → img ∈ g →
  resolved w img ∧
  ∃ imageFilePaths, imageFilePathsOf w source = Ok imageFilePaths ∧
                    path img ∈ imageFilePaths.
Proof.
  intros Hrun Hg Himg. split.
  - unfold findDuplicateImages in Hrun.
    destruct (imageFilePathsOf w source) as [paths|e]; simpl in Hrun; [|done].
    destruct (hashListOf w paths (hashSize options)) as [hashList|e];
      simpl in Hrun; [|done].
    apply resolveGroups_resolved in Hrun.
    rewrite Forall_forall in Hrun. specialize (Hrun g Hg).
    rewrite Forall_forall in Hrun. by apply Hrun.
  - destruct (output_group_origin w source options groups g Hrun Hg)
      as (paths & hashList & idxs & imgs & Hpaths & _ & _ & Hkept & _ & ->).
    exists paths. split; [done|].
    rewrite Array_sort_Permutation in Himg.
    assert (path img ∈ map path imgs) as Hin
      by (apply list_elem_of_fmap; by exists img).
    rewrite Hkept in Hin.
    apply list_elem_of_omap in Hin as (file & Hfile & Hk).
    apply list_elem_of_fmap in Hfile as (i & -> & _).
    unfold kept in Hk. destruct (paths !! i) as [q|] eqn:Hq; [|done].
    destruct (Utils.pathExists w q); [|done]. injection Hk as <-.
    by eapply list_elem_of_lookup_2.
Qed.

Lemma output_images_resolved_witness :
  resolved Disk.album {| path := "dir/a.png"; width := 100; height := 100 |} ∧
  ∃ imageFilePaths,
    imageFilePathsOf Disk.album (SourceDir "dir") = Ok imageFilePaths ∧
    path {| path := "dir/a.png"; width := 100; height := 100 |} ∈ imageFilePaths.
Proof.
  apply (output_images_resolved Disk.album (SourceDir "dir") defaultOptions
           [[ {| path := "dir/a.png"; width := 100; height := 100 |};
              {| path := "dir/B.png"; width := 100; height := 100 |} ]]
           [ {| path := "dir/a.png"; width := 100; height := 100 |};
             {| path := "dir/B.png"; width := 100; height := 100 |} ]).
  - vm_compute; reflexivity.
  - apply list_elem_of_here.
  - apply list_elem_of_here.
Defined.

(** ** How many images come out *)

(** X10.  With a non-negative [maxDuplicates] every returned group has at
    least one and at most [maxDuplicates] images, so [maxDuplicates = 0]
    returns no group at all; with [maxDuplicates >= 2], an index that answers
    with positions of the indexed list and decoded files that pass the
    existence check, every group has at least two. *)
Theorem group_size_bounds (w : World) (source : Source) (options : Options)
    (groups : list (list Image)) :
  findDuplicateImages w source options = Ok groups →
  ((0 ≤ maxDuplicates options)%Z →
   Forall (λ g, 1 ≤ length g ∧ (Z.of_nat (length g) ≤ maxDuplicates options)%Z)
          groups) ∧
  (maxDuplicates options = 0%Z → groups = []) ∧
  ((2 ≤ maxDuplicates options)%Z →
   (∀ points query k d idx,
      idx ∈ kdtree_knn w points query k d → idx < length points) →
   (∀ p width height pixels,
      sharp_raw w p width height = Some pixels → Utils.pathExists w p = true) →
   Forall (λ g, 2 ≤ length g) groups).
Proof.
  intros Hrun. split; [|split].
  - intros Hmax. apply Forall_forall. intros g Hg.
    by apply (group_size_upper w source options groups g).
  - intros Hzero. destruct groups as [|g groups]; [done|].
    destruct (group_size_upper w source options (g :: groups) g)
      as [Hlow Hhigh]; [lia | done | apply list_elem_of_here | lia].
  - intros Hmax Hrange Hdecoded. apply Forall_forall. intros g Hg.
    by apply (group_size_lower w source options groups g).
Qed.

Lemma Disk_decoded_exists (files : list Disk.File) (dirs : list Disk.Dir)
    (collate : string → string → Z) (p : string) (width height : nat)
    (pixels : list Z) :
  sharp_raw (Disk.world files dirs collate) p width height = Some pixels →
  Utils.pathExists (Disk.world files dirs collate) p = true.
Proof.
  unfold Utils.pathExists. cbn [sharp_raw fs_access Disk.world].
  destruct (Disk.find_file files p); [done | discriminate].
Qed.

Lemma group_size_bounds_witness :
  Forall (λ g, 1 ≤ length g ∧
               (Z.of_nat (length g) ≤ maxDuplicates defaultOptions)%Z)
    [[ {| path := "dir/a.png"; width := 100; height := 100 |};
       {| path := "dir/B.png"; width := 100; height := 100 |} ]] ∧
  Forall (λ g, 2 ≤ length g)
    [[ {| path := "dir/a.png"; width := 100; height := 100 |};
       {| path := "dir/B.png"; width := 100; height := 100 |} ]].
Proof.
  destruct (group_size_bounds Disk.album (SourceDir "dir") defaultOptions
              [[ {| path := "dir/a.png"; width := 100; height := 100 |};
                 {| path := "dir/B.png"; width := 100; height := 100 |} ]])
    as (Hupper & _ & Hlower); [vm_compute; reflexivity|].
  split; [apply Hupper; simpl; lia|].
  apply Hlower; [simpl; lia | |].
  - intros points query k d idx. apply Reference_knn_in_range.
  - intros p width height pixels. apply Disk_decoded_exists.
Defined.

Lemma group_loop_no_neighbours (w : World) (imageFilePaths : list string)
    (hashList : list (list Z)) (maxDup maxDist : Z) (xs : list nat) :
  Forall (λ i, length (kdtree_knn w hashList (nth i hashList [])
                                  (maxDup + 1)%Z maxDist) ≤ 1) xs →
  fold_left (group_step w imageFilePaths hashList maxDup maxDist) xs (∅, [])
  = (∅, []).
Proof.
  induction 1 as [|i xs Hi _ IH]; [done|].
  cbn [fold_left]. unfold group_step at 2.
  destruct (decide (i ∈ (∅ : gset nat))) as [Hin|_]; [done|].
  by destruct (Nat.ltb_spec 1 (length (kdtree_knn w hashList (nth i hashList [])
                                                  (maxDup + 1)%Z maxDist)));
    [lia|].
Qed.

(** X11.  When the query for every hashed image returns at most one position
    (the image itself: nothing else is within [maxDistance]), no group is
    formed and the call returns the empty list. *)
Theorem no_neighbours_no_groups (w : World) (source : Source) (options : Options)
    (imageFilePaths : list string) (hashList : list (list Z)) :
  imageFilePathsOf w source = Ok imageFilePaths →
  hashListOf w imageFilePaths (hashSize options) = Ok hashList →
  (∀ i, i < length hashList →
        length (kdtree_knn w hashList (nth i hashList [])
                           (maxDuplicates options + 1)%Z (maxDistance options)) ≤ 1) →
  findDuplicateImages w source options = Ok [].
Proof.
  intros Hpaths Hhash Halone. unfold findDuplicateImages.
  rewrite Hpaths. simpl. rewrite Hhash. simpl.
  unfold duplicatesOf, group_loop. rewrite group_loop_no_neighbours; [done|].
  apply Forall_forall. intros i Hi%elem_of_seq. apply Halone. lia.
Qed.

Lemma no_neighbours_no_groups_witness :
  findDuplicateImages Disk.album (SourceArray ["dir/a.png"; "dir/c.png"])
                      defaultOptions = Ok [].
Proof.
  apply (no_neighbours_no_groups Disk.album
           (SourceArray ["dir/a.png"; "dir/c.png"]) defaultOptions
           ["dir/a.png"; "dir/c.png"] [replicate 8 0%Z; replicate 8 255%Z]).
  - vm_compute; reflexivity.
  - vm_compute; reflexivity.
  - intros i Hi. destruct i as [|[|i]]; [vm_compute; lia | vm_compute; lia|].
    simpl in Hi. lia.
Defined.

Lemma kept_paths_length (w : World) (imageFilePaths : list string) (idxs : list nat) :
  NoDup idxs →
  length (omap (kept w) (paths_at imageFilePaths idxs)) ≤ length imageFilePaths.
Proof.
  intros Hnodup.
  assert (length (omap (kept w) (paths_at imageFilePaths idxs))
          ≤ length (filter (λ i, i < length imageFilePaths) idxs)) as Hle.
  { clear Hnodup. induction idxs as [|i idxs IH]; [done|].
    cbn [paths_at map]. rewrite filter_cons. csimpl. fold (paths_at imageFilePaths idxs).
    destruct (decide (i < length imageFilePaths)) as [Hi|Hi].
    - destruct (kept w (imageFilePaths !! i)); simpl; lia.
    - rewrite lookup_ge_None_2 by lia. simpl. done. }
  etrans; [exact Hle|].
  trans (length (seq 0 (length imageFilePaths))); [|by rewrite length_seq].
  apply submseteq_length, NoDup_submseteq; [by apply NoDup_filter|].
  intros i [Hi _]%list_elem_of_filter. apply elem_of_seq. lia.
Qed.

(** X12.  When the index returns each position at most once, the output
    never holds more images than were hashed. *)
Theorem output_within_hashed (w : World) (source : Source) (options : Options)
    (imageFilePaths : list string) (groups : list (list Image)) :
  (∀ points query k d, NoDup (kdtree_knn w points query k d)) →
  imageFilePathsOf w source = Ok imageFilePaths →
  findDuplicateImages w source options = Ok groups →
  length (concat groups) ≤ length imageFilePaths.
Proof.
  intros Hknn Hpaths. unfold findDuplicateImages. rewrite Hpaths. simpl.
  destruct (hashListOf w imageFilePaths (hashSize options)) as [hashList|e];
    simpl; [|done].
  intros Hgroups%resolveGroups_paths.
  rewrite <-(length_map path), Hgroups, duplicatesOf_paths, concat_paths_at.
  apply kept_paths_length. by apply group_loop_NoDup.
Qed.

Lemma output_within_hashed_witness :
  length (concat [[ {| path := "dir/a.png"; width := 100; height := 100 |};
                    {| path := "dir/B.png"; width := 100; height := 100 |} ]])
  ≤ length ["dir/B.png"; "dir/a.png"; "dir/c.png"].
Proof.
  apply (output_within_hashed Disk.album (SourceDir "dir") defaultOptions).
  - apply Reference_knn_NoDup.
  - vm_compute; reflexivity.
  - vm_compute; reflexivity.
Defined.

(** ** Two calls on the same files *)

Lemma fold_left_agree {A B} (f g : A → B → A) (l : list B) (a : A) :
  (∀ a' x, x ∈ l → f a' x = g a' x) → fold_left f l a = fold_left g l a.
Proof.
  revert a. induction l as [|x l IH]; intros a Hfg; [done|].
  cbn [fold_left]. rewrite Hfg by apply list_elem_of_here.
  apply IH. intros a' y Hy. apply Hfg. by apply list_elem_of_further.
Qed.

Lemma another_run_paths (w : World) knn (source : Source) :
  imageFilePathsOf (another_run w knn) source = imageFilePathsOf w source.
Proof. reflexivity. Qed.

Lemma another_run_hashes (w : World) knn (imageFilePaths : list string)
    (hashSize : nat) :
  hashListOf (another_run w knn) imageFilePaths hashSize
  = hashListOf w imageFilePaths hashSize.
Proof. reflexivity. Qed.

Lemma another_run_groups (w : World) knn (imageFilePaths : list string)
    (hashList : list (list Z)) (options : Options) :
  same_answers w knn hashList options →
  duplicatesOf (another_run w knn) imageFilePaths hashList
               (maxDuplicates options) (maxDistance options)
  = duplicatesOf w imageFilePaths hashList
                 (maxDuplicates options) (maxDistance options).
Proof.
  intros Hsame. unfold duplicatesOf, group_loop. f_equal.
  apply fold_left_agree. intros [claimed groups] i Hi%elem_of_seq.
  unfold group_step. cbn [kdtree_knn another_run].
  by rewrite Hsame by lia.
Qed.

Lemma another_run_result (w : World) knn (source1 source2 : Source)
    (options : Options) (imageFilePaths : list string) :
  imageFilePathsOf w source1 = Ok imageFilePaths →
  imageFilePathsOf w source2 = Ok imageFilePaths →
  (∀ hashList,
     hashListOf w imageFilePaths (hashSize options) = Ok hashList →
     same_answers w knn hashList options) →
  findDuplicateImages (another_run w knn) source2 options
  = findDuplicateImages w source1 options.
Proof.
  intros Hpaths1 Hpaths2 Hsame. unfold findDuplicateImages.
  rewrite another_run_paths, Hpaths1, Hpaths2. simpl.
  rewrite another_run_hashes.
  destruct (hashListOf w imageFilePaths (hashSize options)) as [hashList|e];
    simpl; [|done].
  by rewrite (another_run_groups w knn _ hashList options (Hsame _ eq_refl)).
Qed.

(** C7, as amended.  Two array inputs that are permutations of each other,
    in the same file system and with the same options, make the two calls
    hash the same list of paths, in ascending order of code units and
    holding exactly the paths gathered from the items, with the same
    fingerprints; the two outputs are the same whenever the trees of the two
    calls answer the queries of the grouping loop alike. *)
Theorem findDuplicateImages_input_order (w : World)
    (knn : list (list Z) → list Z → Z → Z → list nat)
    (source1 source2 : list string) (options : Options) :
  source1 ≡ₚ source2 →
  ∃ imageFilePaths,
    imageFilePathsOf w (SourceArray source1) = Ok imageFilePaths ∧
    imageFilePathsOf (another_run w knn) (SourceArray source2) = Ok imageFilePaths ∧
    StronglySorted String.le imageFilePaths ∧
    (∀ p, p ∈ imageFilePaths ↔ gathered w source1 p) ∧
    hashListOf (another_run w knn) imageFilePaths (hashSize options)
      = hashListOf w imageFilePaths (hashSize options) ∧
    ((∀ hashList,
        hashListOf w imageFilePaths (hashSize options) = Ok hashList →
        same_answers w knn hashList options) →
     findDuplicateImages (another_run w knn) (SourceArray source2) options
     = findDuplicateImages w (SourceArray source1) options).
Proof.
  intros Hperm.
  assert (imageFilePathsOf (another_run w knn) (SourceArray source2)
          = imageFilePathsOf w (SourceArray source1)) as Hpaths.
  { rewrite another_run_paths. simpl. f_equal.
    by apply Array_sort_strings_unique, allImagePaths_Permutation. }
  exists (Array_sort default_compare (allImagePaths w source1)).
  split; [reflexivity|]. split; [exact Hpaths|]. split; [|split; [|split]].
  - apply Array_sort_StronglySorted;
      [apply _ | apply default_compare_le | apply default_compare_gt].
  - intros p. rewrite Array_sort_Permutation, allImagePaths_concat.
    rewrite elem_of_concat. unfold gathered. split.
    + intros (l & Hl & Hp). apply list_elem_of_fmap in Hl as (item & -> & Hitem).
      apply elem_of_collect_item in Hp as [Hex Hcases]. by exists item.
    + intros (item & Hitem & Hex & Hcases).
      exists (collect_item w [] item). split.
      * apply list_elem_of_fmap. by exists item.
      * by apply elem_of_collect_item.
  - apply another_run_hashes.
  - intros Hsame.
    apply (another_run_result w knn (SourceArray source1) (SourceArray source2)
             options (Array_sort default_compare (allImagePaths w source1)));
      [reflexivity | exact Hpaths | exact Hsame].
Qed.

Lemma findDuplicateImages_input_order_witness :
  findDuplicateImages (another_run Disk.album Reference.knn)
                      (SourceArray ["dir"; "dir/c.png"]) defaultOptions
  = findDuplicateImages Disk.album (SourceArray ["dir/c.png"; "dir"])
                        defaultOptions.
Proof.
  destruct (findDuplicateImages_input_order Disk.album Reference.knn
              ["dir/c.png"; "dir"] ["dir"; "dir/c.png"] defaultOptions)
    as (imageFilePaths & _ & _ & _ & _ & _ & Hout); [apply Permutation_swap|].
  apply Hout. intros hashList _ i _. reflexivity.
Defined.

(** C7 as stated fails: the same three files, listed in two orders and
    searched for pairs, give two outputs when the trees of the two calls
    order the three equal distances differently, each answer being a
    nearest-neighbour answer. *)
Lemma input_order_counterexample :
  ["dir/a.png"; "dir/B.png"; "dir/d.png"] ≡ₚ ["dir/d.png"; "dir/B.png"; "dir/a.png"] ∧
  (∃ hashList,
     hashListOf Triplets.world ["dir/B.png"; "dir/a.png"; "dir/d.png"] 8
       = Ok hashList ∧
     Forall (λ hash,
               is_knn_answer hashList hash 3 5 (Reference.knn hashList hash 3 5)
                 = true ∧
               is_knn_answer hashList hash 3 5 (knn_backwards hashList hash 3 5)
                 = true) hashList) ∧
  findDuplicateImages Triplets.world
    (SourceArray ["dir/a.png"; "dir/B.png"; "dir/d.png"]) Triplets.pairs
    = Ok [[ {| path := "dir/a.png"; width := 100; height := 100 |};
            {| path := "dir/B.png"; width := 100; height := 100 |} ]] ∧
  findDuplicateImages (another_run Triplets.world knn_backwards)
    (SourceArray ["dir/d.png"; "dir/B.png"; "dir/a.png"]) Triplets.pairs
    = Ok [[ {| path := "dir/a.png"; width := 100; height := 100 |};
            {| path := "dir/d.png"; width := 100; height := 100 |} ]] ∧
  findDuplicateImages (another_run Triplets.world knn_backwards)
    (SourceArray ["dir/d.png"; "dir/B.png"; "dir/a.png"]) Triplets.pairs
  ≠ findDuplicateImages Triplets.world
      (SourceArray ["dir/a.png"; "dir/B.png"; "dir/d.png"]) Triplets.pairs.
Proof.
  split; [|split; [|split; [|split]]].
  - symmetry. apply (reverse_Permutation ["dir/a.png"; "dir/B.png"; "dir/d.png"]).
  - eexists. split; [vm_compute; reflexivity|].
    repeat constructor; vm_compute; reflexivity.
  - vm_compute. reflexivity.
  - vm_compute. reflexivity.
  - vm_compute. discriminate.
Qed.

(** ** One directory, given as a string or in an array *)

Lemma Array_sort_sorted (l : list string) :
  StronglySorted String.le l → Array_sort default_compare l = l.
Proof.
  intros Hsorted. apply (StronglySorted_unique String.le); [|done|].
  - apply Array_sort_StronglySorted;
      [apply _ | apply default_compare_le | apply default_compare_gt].
  - apply Array_sort_Permutation.
Qed.

(** X13.  A directory that can be listed gives, as the only item of an
    array, the sorted version of the path list it gives as a string; when
    that list is already in code-unit order the two calls hash the same
    list, and they return the same whenever their trees answer the queries
    of the grouping loop alike.  A string source that cannot be listed makes
    the call fail, while the same path in an array (missing, or a directory)
    is skipped and gives no groups. *)
Theorem single_directory_two_ways (w : World) (dir : string) (options : Options) :
  (∀ files,
     fs_readdir w dir = Some files →
     Utils.pathExists w dir = true → Utils.isFolder w dir = true →
     imageFilePathsOf w (SourceDir dir) = Ok (imagePathsOf dir files) ∧
     imageFilePathsOf w (SourceArray [dir])
       = Ok (Array_sort default_compare (imagePathsOf dir files)) ∧
     (StronglySorted String.le (imagePathsOf dir files) →
      imageFilePathsOf w (SourceArray [dir]) = imageFilePathsOf w (SourceDir dir) ∧
      ∀ knn,
        (∀ hashList,
           hashListOf w (imagePathsOf dir files) (hashSize options) = Ok hashList →
           same_answers w knn hashList options) →
        findDuplicateImages (another_run w knn) (SourceArray [dir]) options
        = findDuplicateImages w (SourceDir dir) options)) ∧
  (fs_readdir w dir = None →
   findDuplicateImages w (SourceDir dir) options = Err (ReaddirFailure dir) ∧
   (Utils.pathExists w dir = false ∨ Utils.isFolder w dir = true →
    findDuplicateImages w (SourceArray [dir]) options = Ok [])).
Proof.
  split.
  - intros files Hread Hex Hdir.
    assert (imageFilePathsOf w (SourceArray [dir])
            = Ok (Array_sort default_compare (imagePathsOf dir files))) as Harray.
    { simpl. unfold allImagePaths. simpl. unfold collect_item.
      by rewrite Hex, Hdir, Hread. }
    assert (imageFilePathsOf w (SourceDir dir) = Ok (imagePathsOf dir files))
      as Hstring by (simpl; by rewrite Hread).
    split; [done|]. split; [done|].
    intros Hsorted. rewrite Array_sort_sorted in Harray by done.
    split; [by rewrite Harray, Hstring|].
    intros knn Hsame.
    by apply (another_run_result w knn (SourceDir dir) (SourceArray [dir])
                options (imagePathsOf dir files)).
  - intros Hread. split.
    + unfold findDuplicateImages. simpl. by rewrite Hread.
    + intros Hskip. unfold findDuplicateImages. simpl.
      rewrite (allImagePaths_nothing w [dir]); [done|].
      constructor; [|constructor].
      destruct Hskip as [Hmissing|Hfolder]; [by left|].
      right. right. split; [done|]. intros files Hfiles. congruence.
Qed.

Lemma single_directory_two_ways_witness :
  (imageFilePathsOf Disk.album (SourceDir "dir")
     = Ok (imagePathsOf "dir" ["a.png"; "B.png"; "c.png"; "x.txt"]) ∧
   imageFilePathsOf Disk.album (SourceArray ["dir"])
     = imageFilePathsOf Disk.album (SourceDir "dir") ∧
   findDuplicateImages (another_run Disk.album Reference.knn)
                       (SourceArray ["dir"]) defaultOptions
     = findDuplicateImages Disk.album (SourceDir "dir") defaultOptions) ∧
  (findDuplicateImages Disk.album (SourceDir "nowhere") defaultOptions
     = Err (ReaddirFailure "nowhere") ∧
   findDuplicateImages Disk.album (SourceArray ["nowhere"]) defaultOptions = Ok []).
Proof.
  destruct (single_directory_two_ways Disk.album "dir" defaultOptions)
    as [Hlisted _].
  destruct (Hlisted ["a.png"; "B.png"; "c.png"; "x.txt"])
    as (Hstring & _ & Hsame); [reflexivity | reflexivity | reflexivity |].
  destruct (single_directory_two_ways Disk.album "nowhere" defaultOptions)
    as [_ Hmissing].
  destruct Hmissing as [Hfail Hskip]; [reflexivity|].
  split.
  - split; [exact Hstring|].
    destruct Hsame as [Hlists Hruns].
    { assert (imagePathsOf "dir" ["a.png"; "B.png"; "c.png"; "x.txt"]
              = ["dir/B.png"; "dir/a.png"; "dir/c.png"]) as -> by reflexivity.
      repeat (constructor; [|repeat constructor; vm_compute; exact I]).
      constructor. }
    split; [exact Hlists|]. apply Hruns. intros hashList _ i _. reflexivity.
  - split; [exact Hfail|]. apply Hskip. left. reflexivity.
Defined.

(** * Properties of the command line *)

(** ** Validation *)

Lemma lt_Some (x y : Z) : Cli.lt (Some x) (Some y) = (x <? y)%Z.
Proof. reflexivity. Qed.

(** X14.  [validateOptions] changes nothing but the console: it returns
    without a line, or writes one error line and exits with code 1.  It
    returns exactly when the hash size is NaN or in 1..32, the maximum of
    duplicates is NaN or at least 1, the maximum distance is NaN or at least
    0, and the two delete flags are not both set: NaN is never rejected. *)
Theorem validateOptions_decides (options : Cli.CLIOptions) (p : Cli.Process) :
  (Cli.validateOptions options p = (p, Cli.Returns tt) ∨
   ∃ text, Cli.validateOptions options p
           = (wrote (Cli.ErrorLog text) p, Cli.Exits 1%Z)) ∧
  (Cli.validateOptions options p = (p, Cli.Returns tt) ↔
   number_between 1 (Some 32%Z) (Cli.hashSize options) ∧
   number_between 1 None (Cli.maxDuplicates options) ∧
   number_between 0 None (Cli.maxDistance options) ∧
   ¬ (Cli.delete options = true ∧ Cli.forceDelete options = true)).
Proof.
  destruct options as [src hs md dist del force hlp ver].
  unfold Cli.validateOptions, number_between, Cli.gt, Cli.lt. simpl.
  destruct hs as [h|], md as [d|], dist as [m|], del, force;
    repeat match goal with
    | |- context [(?x <? ?y)%Z] => destruct (Z.ltb_spec x y)
    end;
    cbn; (split; [first [by left | right; eexists; reflexivity]|]);
    (split; [try discriminate; intros _; repeat split; try lia; by intros [? ?]
            | try reflexivity; intros (? & ? & ? & Hflags); try lia;
              try (exfalso; by apply Hflags)]).
Qed.

Lemma validateOptions_decides_witness :
  Cli.validateOptions
    {| Cli.source := ["/d"]; Cli.hashSize := None; Cli.maxDuplicates := Some 100%Z;
       Cli.maxDistance := Some 5%Z; Cli.delete := true; Cli.forceDelete := false;
       Cli.help := false; Cli.version := false |}
    {| Cli.console := []; Cli.disk := ∅ |}
  = ({| Cli.console := []; Cli.disk := ∅ |}, Cli.Returns tt).
Proof.
  apply (validateOptions_decides _ {| Cli.console := []; Cli.disk := ∅ |}).
  simpl. repeat split; try lia.
Defined.

(** X15.  An option value in which [parseInt] finds no number is not
    rejected: [parseArguments] turns it into NaN, and [validateOptions] lets
    NaN through, without a line on the console.  An empty value counts as
    not given and yields the default. *)
Theorem non_numeric_hash_size_passes (value : string) (positionals : list string)
    (p : Cli.Process) :
  Cli.parseInt value = None → value ≠ "" →
  (∃ options,
     Cli.parseArguments (inr (only_hash_size value, positionals)) p
       = (p, Cli.Returns options) ∧
     Cli.hashSize options = None ∧
     Cli.validateOptions options p = (p, Cli.Returns tt)) ∧
  (∃ options,
     Cli.parseArguments (inr (only_hash_size "", positionals)) p
       = (p, Cli.Returns options) ∧
     Cli.hashSize options = Some 8%Z).
Proof.
  intros Hnan Hne. split.
  - assert (Cli.number_option (Some value) 8 = None) as Hnumber.
    { unfold Cli.number_option. rewrite Hnan.
      by destruct (String.eqb_spec value ""). }
    eexists. split.
    + unfold Cli.parseArguments, only_hash_size.
      cbn [Cli.hash_size]. rewrite Hnumber. reflexivity.
    + split; reflexivity.
  - eexists. split; reflexivity.
Qed.

Lemma non_numeric_hash_size_passes_witness :
  ∃ options,
    Cli.parseArguments (inr (only_hash_size "abc", ["/d"]))
                       {| Cli.console := []; Cli.disk := ∅ |}
      = ({| Cli.console := []; Cli.disk := ∅ |}, Cli.Returns options) ∧
    Cli.hashSize options = None ∧
    Cli.validateOptions options {| Cli.console := []; Cli.disk := ∅ |}
      = ({| Cli.console := []; Cli.disk := ∅ |}, Cli.Returns tt).
Proof.
  apply (non_numeric_hash_size_passes "abc" ["/d"]
           {| Cli.console := []; Cli.disk := ∅ |}); [reflexivity | discriminate].
Defined.

(** ** Path validation *)

Lemma cli_bind_run {A B} (m : Cli.cli A) (f : A → Cli.cli B) (p : Cli.Process) :
  (m ≫= f) p =
  match m p with
  | (p', Cli.Returns a) => f a p'
  | (p', Cli.Exits code) => (p', Cli.Exits code)
  end.
Proof. reflexivity. Qed.

Lemma cli_for_each_cons {A S} (x : A) (xs : list A) (body : A → S → Cli.cli S)
    (s : S) (p : Cli.Process) :
  Cli.for_each (x :: xs) body s p =
  match body x s p with
  | (p', Cli.Returns s') => Cli.for_each xs body s' p'
  | (p', Cli.Exits code) => (p', Cli.Exits code)
  end.
Proof. reflexivity. Qed.

Lemma validate_path_present (env : Cli.Env) (path : string) (acc : list string)
    (p : Cli.Process) :
  Cli.resolve env path ∈ Cli.disk p →
  Cli.validate_path env path acc p
  = (p, Cli.Returns (acc ++ [Cli.resolve env path])).
Proof.
  intros Hin. unfold Cli.validate_path. rewrite cli_bind_run.
  unfold Cli.access. by rewrite bool_decide_eq_true_2.
Qed.

Lemma validate_path_missing (env : Cli.Env) (path : string) (acc : list string)
    (p : Cli.Process) :
  Cli.resolve env path ∉ Cli.disk p →
  Cli.validate_path env path acc p
  = (wrote (Cli.ErrorLog ("Error: Path does not exist: " +:+ path)) p,
     Cli.Exits 1%Z).
Proof.
  intros Hin. unfold Cli.validate_path. rewrite cli_bind_run.
  unfold Cli.access. by rewrite bool_decide_eq_false_2.
Qed.

Lemma validatePaths_loop (env : Cli.Env) (paths : list string) (acc : list string)
    (p : Cli.Process) :
  (Forall (λ path, Cli.resolve env path ∈ Cli.disk p) paths →
   Cli.for_each paths (Cli.validate_path env) acc p
   = (p, Cli.Returns (acc ++ map (Cli.resolve env) paths))) ∧
  (∀ before path after,
     paths = before ++ path :: after →
     Forall (λ path, Cli.resolve env path ∈ Cli.disk p) before →
     Cli.resolve env path ∉ Cli.disk p →
     Cli.for_each paths (Cli.validate_path env) acc p
     = (wrote (Cli.ErrorLog ("Error: Path does not exist: " +:+ path)) p,
        Cli.Exits 1%Z)).
Proof.
  revert acc. induction paths as [|x paths IH]; intros acc.
  - split.
    + intros _. simpl. by rewrite app_nil_r.
    + intros [|??] ?? Heq; discriminate Heq.
  - split.
    + intros [Hx Hrest]%Forall_cons. rewrite cli_for_each_cons.
      rewrite validate_path_present by done.
      rewrite (proj1 (IH _)) by done. by rewrite <-app_assoc.
    + intros before path after Heq Hbefore Hmissing.
      rewrite cli_for_each_cons. destruct before as [|y before].
      * injection Heq as -> ->. by rewrite validate_path_missing.
      * injection Heq as -> ->. apply Forall_cons in Hbefore as [Hy Hbefore].
        rewrite validate_path_present by done.
        by apply (proj2 (IH _) before path after).
Qed.

(** X16.  [validatePaths] never changes the disk.  When every path, resolved
    against the working directory, exists, it returns the resolved paths in
    the order given and writes nothing; otherwise it writes one error line
    naming the first missing path as it was typed and exits with code 1. *)
Theorem validatePaths_all_or_exit (env : Cli.Env) (paths : list string)
    (p : Cli.Process) :
  Cli.disk (Cli.validatePaths env paths p).1 = Cli.disk p ∧
  (Forall (λ path, Cli.resolve env path ∈ Cli.disk p) paths →
   Cli.validatePaths env paths p = (p, Cli.Returns (map (Cli.resolve env) paths))) ∧
  (∀ before path after,
     paths = before ++ path :: after →
     Forall (λ path, Cli.resolve env path ∈ Cli.disk p) before →
     Cli.resolve env path ∉ Cli.disk p →
     Cli.validatePaths env paths p
     = (wrote (Cli.ErrorLog ("Error: Path does not exist: " +:+ path)) p,
        Cli.Exits 1%Z)).
Proof.
  destruct (validatePaths_loop env paths [] p) as [Hall Hfirst].
  split; [|split; [exact Hall | exact Hfirst]].
  unfold Cli.validatePaths.
  destruct (decide (Forall (λ path, Cli.resolve env path ∈ Cli.disk p) paths))
    as [Hpresent|Hmissing].
  - by rewrite Hall.
  - apply not_Forall_Exists in Hmissing; [|intros x; apply _].
    assert (∃ before path after,
              paths = before ++ path :: after ∧
              Forall (λ path, Cli.resolve env path ∈ Cli.disk p) before ∧
              Cli.resolve env path ∉ Cli.disk p) as (b & x & a & Heq & Hb & Hx).
    { clear Hall Hfirst. induction paths as [|y paths IH]; [by inversion Hmissing|].
      destruct (decide (Cli.resolve env y ∈ Cli.disk p)) as [Hy|Hy].
      - apply Exists_cons in Hmissing as [?|Hrest]; [done|].
        destruct (IH Hrest) as (b & x & a & -> & Hb & Hx).
        exists (y :: b), x, a. split; [done|]. split; [by constructor | done].
      - exists [], y, paths. split; [done|]. split; [constructor | done]. }
    by rewrite (Hfirst b x a).
Qed.

Lemma validatePaths_all_or_exit_witness :
  Cli.validatePaths
    {| Cli.cwd := "/home/u"; Cli.unlinkable := λ _, true;
       Cli.unlink_message := λ _, "EPERM"; Cli.answer := "";
       Cli.library := λ _ _ _ _, inr [] |}
    ["pics"; "/tmp/x.png"]
    {| Cli.console := []; Cli.disk := {["/home/u/pics"]} |}
  = (wrote (Cli.ErrorLog "Error: Path does not exist: /tmp/x.png")
           {| Cli.console := []; Cli.disk := {["/home/u/pics"]} |},
     Cli.Exits 1%Z).
Proof.
  apply (validatePaths_all_or_exit _ ["pics"; "/tmp/x.png"]
           {| Cli.console := []; Cli.disk := {["/home/u/pics"]} |})
    with (before := ["pics"]) (after := []).
  - reflexivity.
  - constructor; [|constructor]. vm_compute. set_solver.
  - vm_compute. set_solver.
Defined.

(** ** Deleting *)

Lemma quiet_ret {A} (a : A) : quiet (mret a : Cli.cli A).
Proof. intros p. by exists p, a. Qed.

Lemma quiet_log (text : string) : quiet (Cli.log text).
Proof. intros p. by eexists _, tt. Qed.

Lemma quiet_bind {A B} (m : Cli.cli A) (f : A → Cli.cli B) :
  quiet m → (∀ a, quiet (f a)) → quiet (m ≫= f).
Proof.
  intros Hm Hf p. destruct (Hm p) as (p1 & a & Hrun & Hdisk).
  destruct (Hf a p1) as (p2 & b & Hrun' & Hdisk').
  exists p2, b. rewrite cli_bind_run, Hrun, Hrun'. split; [done | congruence].
Qed.

Lemma quiet_for_each {A S} (xs : list A) (body : A → S → Cli.cli S) (s : S) :
  (∀ x s', quiet (body x s')) → quiet (Cli.for_each xs body s).
Proof.
  intros Hbody. revert s. induction xs as [|x xs IH]; intros s.
  - apply quiet_ret.
  - apply quiet_bind; [apply Hbody | apply IH].
Qed.

Lemma formatResults_quiet (duplicates : list (list Image)) (showDelete : bool) :
  quiet (Cli.formatResults duplicates showDelete).
Proof.
  unfold Cli.formatResults. destruct (length duplicates =? 0); [apply quiet_log|].
  apply quiet_bind; [apply quiet_log|]. intros _.
  apply quiet_for_each. intros [index group] [].
  apply quiet_bind; [apply quiet_log|]. intros _.
  apply quiet_bind; [|intros _; apply quiet_log].
  apply quiet_for_each. intros [imageIndex image] []. apply quiet_log.
Qed.

Lemma removable_cons (env : Cli.Env) (file : string) (files : list string) :
  removable env (file :: files) =
  if Cli.unlinkable env file then {[file]} ∪ removable env files
  else removable env files.
Proof. unfold removable. simpl. by destruct (Cli.unlinkable env file). Qed.

Lemma removable_subseteq (env : Cli.Env) (files : list string) :
  removable env files ⊆ list_to_set files.
Proof.
  unfold removable. intros x. rewrite !elem_of_list_to_set, !list_elem_of_In.
  rewrite filter_In. by intros [? _].
Qed.

Lemma elem_of_removable (env : Cli.Env) (files : list string) (x : string) :
  x ∈ removable env files ↔ x ∈ files ∧ Cli.unlinkable env x = true.
Proof.
  unfold removable.
  by rewrite elem_of_list_to_set, list_elem_of_In, filter_In, <-list_elem_of_In.
Qed.

Lemma log_run (text : string) (p : Cli.Process) :
  Cli.log text p = (wrote (Cli.Log text) p, Cli.Returns tt).
Proof. reflexivity. Qed.

Lemma mret_run {A} (a : A) (p : Cli.Process) :
  (mret a : Cli.cli A) p = (p, Cli.Returns a).
Proof. reflexivity. Qed.

Lemma delete_file_run (env : Cli.Env) (file : string) (d e : nat) (p : Cli.Process) :
  Cli.delete_file env file (d, e) p =
  if bool_decide (file ∈ Cli.disk p) && Cli.unlinkable env file
  then (wrote (Cli.Log ("Deleted: " +:+ file))
              {| Cli.console := Cli.console p; Cli.disk := Cli.disk p ∖ {[file]} |},
        Cli.Returns (d + 1, e))
  else (wrote (Cli.ErrorLog ("Failed to delete " +:+ file +:+ ": "
                             +:+ Cli.unlink_message env file)) p,
        Cli.Returns (d, e + 1)).
Proof.
  unfold Cli.delete_file. rewrite cli_bind_run. unfold Cli.unlink.
  by destruct (bool_decide (file ∈ Cli.disk p) && Cli.unlinkable env file).
Qed.

(** The deletion loop: every file is tried once, a failure does not stop the
    loop, and what is gone is what was there and could be removed. *)
Lemma delete_loop (env : Cli.Env) (files : list string) (d e : nat)
    (p : Cli.Process) :
  ∃ p' d' e',
    Cli.for_each files (Cli.delete_file env) (d, e) p = (p', Cli.Returns (d', e')) ∧
    Cli.disk p' = Cli.disk p ∖ removable env files ∧
    d' + e' = d + e + length files ∧
    d ≤ d' ∧
    size (Cli.disk p) = size (Cli.disk p') + (d' - d).
Proof.
  revert d e p. induction files as [|file files IH]; intros d e p.
  - exists p, d, e. split; [done|]. split; [|simpl; lia].
    unfold removable. simpl. by rewrite difference_empty_L.
  - rewrite cli_for_each_cons, delete_file_run.
    destruct (bool_decide (file ∈ Cli.disk p) && Cli.unlinkable env file) eqn:Hcan.
    + apply andb_prop in Hcan as [Hin%bool_decide_eq_true_1 Hok].
      destruct (IH (d + 1) e
                  (wrote (Cli.Log ("Deleted: " +:+ file))
                     {| Cli.console := Cli.console p;
                        Cli.disk := Cli.disk p ∖ {[file]} |}))
        as (p' & d' & e' & Hrun & Hdisk & Hsum & Hle & Hsize).
      exists p', d', e'. split; [exact Hrun|].
      cbn [Cli.disk wrote] in Hdisk, Hsize.
      rewrite removable_cons, Hok. split.
      { rewrite Hdisk. apply set_eq. intros x.
        rewrite !elem_of_difference, elem_of_union. tauto. }
      split; [simpl; lia|].
      split; [lia|].
      assert (size (Cli.disk p ∖ {[file]}) = size (Cli.disk p) - 1) as Hone.
      { rewrite size_difference by by apply singleton_subseteq_l.
        by rewrite size_singleton. }
      assert (0 < size (Cli.disk p)) as Hpos.
      { pose proof (subseteq_size {[file]} (Cli.disk p)) as Hsub.
        rewrite size_singleton in Hsub. by apply Hsub, singleton_subseteq_l. }
      lia.
    + destruct (IH d (e + 1)
                  (wrote (Cli.ErrorLog ("Failed to delete " +:+ file +:+ ": "
                                        +:+ Cli.unlink_message env file)) p))
        as (p' & d' & e' & Hrun & Hdisk & Hsum & Hle & Hsize).
      exists p', d', e'. split; [exact Hrun|].
      cbn [Cli.disk wrote] in Hdisk, Hsize.
      split; [|split; [simpl; lia | split; [lia | exact Hsize]]].
      rewrite Hdisk, removable_cons.
      destruct (Cli.unlinkable env file); [|done].
      rewrite andb_true_r in Hcan. apply bool_decide_eq_false_1 in Hcan.
      apply set_eq. intros x.
      rewrite !elem_of_difference, elem_of_union, elem_of_singleton.
      split; [|tauto]. intros [Hx Hnot]. split; [done|].
      intros [-> | ?]; [by apply Hcan | by apply Hnot].
Qed.

Lemma announce_quiet (files : list string) :
  quiet (Cli.for_each files (λ file (_ : unit), Cli.log ("  " +:+ file)) tt).
Proof. apply quiet_for_each. intros file []. apply quiet_log. Qed.

(** What [deleteDuplicates] does, by cases. *)
Lemma deleteDuplicates_run (env : Cli.Env) (duplicates : list (list Image))
    (force : bool) (p : Cli.Process) :
  (Cli.filesToDelete duplicates = [] ∧
   Cli.disk (Cli.deleteDuplicates env duplicates force p).1 = Cli.disk p ∧
   (Cli.deleteDuplicates env duplicates force p).2 = Cli.Returns tt) ∨
  (Cli.filesToDelete duplicates ≠ [] ∧ force || confirmed env = false ∧
   ∃ p', Cli.deleteDuplicates env duplicates force p
         = (wrote (Cli.Log "Deletion cancelled.") p', Cli.Returns tt) ∧
         Cli.disk p' = Cli.disk p) ∨
  (Cli.filesToDelete duplicates ≠ [] ∧ force || confirmed env = true ∧
   ∃ p1 p2 d e,
     Cli.disk p1 = Cli.disk p ∧
     Cli.for_each (Cli.filesToDelete duplicates) (Cli.delete_file env) (0, 0) p1
       = (p2, Cli.Returns (d, e)) ∧
     Cli.deleteDuplicates env duplicates force p
       = (wrote (completed_line d e) p2, Cli.Returns tt)).
Proof.
  unfold Cli.deleteDuplicates.
  destruct duplicates as [|g duplicates]; [left; by repeat split|].
  cbn [length Nat.eqb].
  destruct (Cli.filesToDelete (g :: duplicates)) as [|file files] eqn:Hfiles;
    [left; by repeat split|].
  right. cbn [length Nat.eqb].
  rewrite cli_bind_run, log_run, cli_bind_run.
  match goal with
  | |- context [Cli.for_each (file :: files) _ tt ?q] =>
      destruct (announce_quiet (file :: files) q) as (pa & [] & -> & Hpa)
  end.
  cbn [Cli.disk wrote] in Hpa.
  rewrite cli_bind_run, log_run, cli_bind_run.
  destruct force.
  - right. split; [done|]. split; [done|].
    rewrite mret_run. cbn [negb]. rewrite cli_bind_run.
    destruct (delete_loop env (file :: files) 0 0 (wrote (Cli.Log "") pa))
      as (p2 & d & e & Hrun & _).
    exists (wrote (Cli.Log "") pa), p2, d, e.
    split; [done|]. split; [exact Hrun|]. by rewrite Hrun.
  - unfold Cli.askForConfirmation. rewrite cli_bind_run.
    change (Cli.prompt ?t ?q) with (wrote (Cli.Prompt t) q, Cli.Returns tt).
    cbv beta iota. rewrite mret_run. fold (confirmed env). cbn [orb].
    destruct (confirmed env) eqn:Hanswer; cbn [negb].
    + right. split; [done|]. split; [done|]. rewrite cli_bind_run.
      match goal with
      | |- context [Cli.for_each (file :: files) (Cli.delete_file env) _ ?q] =>
          destruct (delete_loop env (file :: files) 0 0 q)
            as (p2 & d & e & Hrun & _);
          exists q, p2, d, e
      end.
      split; [done|]. split; [exact Hrun|]. by rewrite Hrun.
    + left. split; [done|]. split; [done|].
      eexists. split; [reflexivity | done].
Qed.

(** X17.  [deleteDuplicates] never exits and never adds a path.  When it is
    forced, or the answer at the prompt is y or yes in any case, the paths
    left are those that were there minus the collected files whose removal
    is allowed; otherwise the disk is as before. *)
Theorem deleteDuplicates_disk (env : Cli.Env) (duplicates : list (list Image))
    (force : bool) (p : Cli.Process) :
  (Cli.deleteDuplicates env duplicates force p).2 = Cli.Returns tt ∧
  Cli.disk (Cli.deleteDuplicates env duplicates force p).1 ⊆ Cli.disk p ∧
  Cli.disk (Cli.deleteDuplicates env duplicates force p).1 =
    (if force || confirmed env
     then Cli.disk p ∖ removable env (Cli.filesToDelete duplicates)
     else Cli.disk p).
Proof.
  assert ((Cli.deleteDuplicates env duplicates force p).2 = Cli.Returns tt ∧
          Cli.disk (Cli.deleteDuplicates env duplicates force p).1 =
            (if force || confirmed env
             then Cli.disk p ∖ removable env (Cli.filesToDelete duplicates)
             else Cli.disk p)) as [Hreturns Hdisk].
  { destruct (deleteDuplicates_run env duplicates force p)
      as [(Hnone & Hdisk & Hret) | [(Hsome & Hno & p' & Hrun & Hdisk)
                                   | (Hsome & Hyes & p1 & p2 & d & e & Hp1 & Hloop & Hrun)]].
    - split; [done|]. rewrite Hdisk, Hnone. unfold removable. simpl.
      rewrite difference_empty_L. by destruct (force || confirmed env).
    - rewrite Hrun, Hno. by split.
    - rewrite Hrun, Hyes. split; [done|]. cbn [fst wrote Cli.disk].
      destruct (delete_loop env (Cli.filesToDelete duplicates) 0 0 p1)
        as (p' & d' & e' & Hloop' & Hdisk' & _).
      rewrite Hloop in Hloop'. injection Hloop' as <- <- <-.
      by rewrite Hdisk', Hp1. }
  split; [done|]. split; [|done].
  rewrite Hdisk. destruct (force || confirmed env); [|done].
  apply subseteq_difference_l. done.
Qed.

(** X18.  When [deleteDuplicates] goes ahead with a non-empty list, every
    collected file is tried once: the last line names the deleted and the
    failed, which add up to the number of collected files, and the number of
    deleted is the number of paths that are gone. *)
Theorem deleteDuplicates_counts (env : Cli.Env) (duplicates : list (list Image))
    (force : bool) (p : Cli.Process) :
  force || confirmed env = true → Cli.filesToDelete duplicates ≠ [] →
  ∃ deletedCount errorCount,
    last (Cli.console (Cli.deleteDuplicates env duplicates force p).1)
      = Some (completed_line deletedCount errorCount) ∧
    deletedCount + errorCount = length (Cli.filesToDelete duplicates) ∧
    size (Cli.disk p)
      = size (Cli.disk (Cli.deleteDuplicates env duplicates force p).1)
        + deletedCount.
Proof.
  intros Hyes Hsome.
  destruct (deleteDuplicates_run env duplicates force p)
    as [(Hnone & _) | [(_ & Hno & _)
                      | (_ & _ & p1 & p2 & d & e & Hp1 & Hloop & Hrun)]];
    [done | congruence |].
  destruct (delete_loop env (Cli.filesToDelete duplicates) 0 0 p1)
    as (p' & d' & e' & Hloop' & Hdisk' & Hsum & _ & Hsize).
  rewrite Hloop in Hloop'. injection Hloop' as <- <- <-.
  exists d, e. rewrite Hrun. cbn [fst wrote Cli.console Cli.disk].
  split; [apply last_snoc|]. split; [lia|]. rewrite <-Hp1. lia.
Qed.

Lemma deleteDuplicates_counts_witness :
  ∃ deletedCount errorCount,
    last (Cli.console
            (Cli.deleteDuplicates
               {| Cli.cwd := "/"; Cli.unlinkable := λ _, true;
                  Cli.unlink_message := λ _, "ENOENT"; Cli.answer := "";
                  Cli.library := λ _ _ _ _, inr [] |}
               [[ {| path := "/d/a.png"; width := 9; height := 9 |};
                  {| path := "/d/b.png"; width := 3; height := 3 |};
                  {| path := "/d/gone.png"; width := 3; height := 3 |} ]]
               true
               {| Cli.console := []; Cli.disk := {["/d/a.png"; "/d/b.png"]} |}).1)
      = Some (completed_line deletedCount errorCount) ∧
    deletedCount + errorCount = 2.
Proof.
  destruct (deleteDuplicates_counts
              {| Cli.cwd := "/"; Cli.unlinkable := λ _, true;
                 Cli.unlink_message := λ _, "ENOENT"; Cli.answer := "";
                 Cli.library := λ _ _ _ _, inr [] |}
              [[ {| path := "/d/a.png"; width := 9; height := 9 |};
                 {| path := "/d/b.png"; width := 3; height := 3 |};
                 {| path := "/d/gone.png"; width := 3; height := 3 |} ]]
              true
              {| Cli.console := []; Cli.disk := {["/d/a.png"; "/d/b.png"]} |})
    as (d & e & Hlast & Hsum & _); [reflexivity | discriminate |].
  exists d, e. split; [exact Hlast | exact Hsum].
Defined.

Lemma filesToDelete_cons (g : list Image) (duplicates : list (list Image)) :
  Cli.filesToDelete (g :: duplicates)
  = map path (drop 1 g) ++ Cli.filesToDelete duplicates.
Proof. reflexivity. Qed.

Lemma elem_of_filesToDelete (duplicates : list (list Image)) (x : string) :
  x ∈ Cli.filesToDelete duplicates ↔
  ∃ g other, g ∈ duplicates ∧ other ∈ drop 1 g ∧ x = path other.
Proof.
  induction duplicates as [|g duplicates IH].
  - split; [by intros ?%elem_of_nil | by intros (? & ? & ?%elem_of_nil & _)].
  - rewrite filesToDelete_cons, elem_of_app, IH, list_elem_of_fmap. split.
    + intros [(other & -> & Hother) | (g' & other & Hg' & Hother & ->)].
      * exists g, other. split; [apply list_elem_of_here | done].
      * exists g', other. split; [by apply list_elem_of_further | done].
    + intros (g' & other & Hg' & Hother & ->).
      apply elem_of_cons in Hg' as [-> | Hg'].
      * left. by exists other.
      * right. by exists g', other.
Qed.

Lemma filesToDelete_output_paths (duplicates : list (list Image)) (x : string) :
  x ∈ Cli.filesToDelete duplicates → x ∈ output_paths duplicates.
Proof.
  intros (g & other & Hg & Hother & ->)%elem_of_filesToDelete.
  unfold output_paths. apply list_elem_of_fmap. exists other. split; [done|].
  apply elem_of_concat. exists g. split; [done|].
  eapply elem_of_sublist; [exact Hother | apply sublist_drop].
Qed.

(** With no path twice in the groups, the first image of a group is not
    among the collected files. *)
Lemma first_not_collected (duplicates : list (list Image)) (g : list Image)
    (keeper : Image) :
  NoDup (output_paths duplicates) → g ∈ duplicates → head g = Some keeper →
  path keeper ∉ Cli.filesToDelete duplicates.
Proof.
  unfold output_paths. induction duplicates as [|g0 duplicates IH];
    intros Hnodup Hg Hhead; [by apply elem_of_nil in Hg|].
  simpl in Hnodup. rewrite map_app in Hnodup.
  apply NoDup_app in Hnodup as (Hg0 & Hdisjoint & Hrest).
  rewrite filesToDelete_cons, elem_of_app. intros [Hin | Hin].
  - apply elem_of_cons in Hg as [-> | Hg].
    + destruct g0 as [|k rest]; [done|]. injection Hhead as ->.
      simpl in Hin, Hg0. rewrite drop_0 in Hin. by apply NoDup_cons in Hg0 as [? _].
    + apply (Hdisjoint (path keeper)).
      * eapply elem_of_sublist; [exact Hin|].
        apply (fmap_sublist path), sublist_drop.
      * apply list_elem_of_fmap. exists keeper. split; [done|].
        apply elem_of_concat. exists g. split; [done|].
        destruct g; [done|]. injection Hhead as ->. apply list_elem_of_here.
  - apply elem_of_cons in Hg as [-> | Hg].
    + apply (Hdisjoint (path keeper)).
      * apply list_elem_of_fmap. exists keeper. split; [done|].
        destruct g0; [done|]. injection Hhead as ->. apply list_elem_of_here.
      * by apply filesToDelete_output_paths.
    + by apply (IH Hrest Hg Hhead).
Qed.

(** X19.  When no path occurs twice in the groups, [deleteDuplicates] leaves
    the first image of every group where it is, whether or not it goes
    ahead.  When it goes ahead, every image listed after the first of its
    group is gone if its removal is allowed, also when the same path is the
    first image of a group. *)
Theorem deleteDuplicates_keeps_the_first (env : Cli.Env)
    (duplicates : list (list Image)) (force : bool) (p : Cli.Process) :
  (NoDup (output_paths duplicates) →
   ∀ g keeper, g ∈ duplicates → head g = Some keeper →
     path keeper ∈ Cli.disk p →
     path keeper ∈ Cli.disk (Cli.deleteDuplicates env duplicates force p).1) ∧
  (force || confirmed env = true →
   ∀ g other, g ∈ duplicates → other ∈ drop 1 g →
     Cli.unlinkable env (path other) = true →
     path other ∉ Cli.disk (Cli.deleteDuplicates env duplicates force p).1).
Proof.
  assert (Cli.disk (Cli.deleteDuplicates env duplicates force p).1 =
            (if force || confirmed env
             then Cli.disk p ∖ removable env (Cli.filesToDelete duplicates)
             else Cli.disk p)) as Hdisk.
  { destruct (deleteDuplicates_run env duplicates force p)
      as [(Hnone & Hdisk & Hret) | [(Hsome & Hno & p' & Hrun & Hdisk)
                                   | (Hsome & Hyes & p1 & p2 & d & e & Hp1 & Hloop & Hrun)]].
    - rewrite Hdisk, Hnone. unfold removable. simpl.
      rewrite difference_empty_L. by destruct (force || confirmed env).
    - by rewrite Hrun, Hno.
    - rewrite Hrun, Hyes. cbn [fst wrote Cli.disk].
      destruct (delete_loop env (Cli.filesToDelete duplicates) 0 0 p1)
        as (p' & d' & e' & Hloop' & Hdisk' & _).
      rewrite Hloop in Hloop'. injection Hloop' as <- <- <-.
      by rewrite Hdisk', Hp1. }
  rewrite Hdisk. split.
  - intros Hnodup g keeper Hg Hhead Hthere.
    destruct (force || confirmed env); [|done].
    apply elem_of_difference. split; [done|].
    intros [Hin _]%elem_of_removable.
    by apply (first_not_collected duplicates g keeper).
  - intros -> g other Hg Hother Hok [_ Hnot]%elem_of_difference.
    apply Hnot, elem_of_removable. split; [|done].
    apply elem_of_filesToDelete. by exists g, other.
Qed.

Lemma deleteDuplicates_keeps_the_first_witness :
  "/d/a.png" ∈ Cli.disk
    (Cli.deleteDuplicates
       {| Cli.cwd := "/"; Cli.unlinkable := λ _, true;
          Cli.unlink_message := λ _, "ENOENT"; Cli.answer := "";
          Cli.library := λ _ _ _ _, inr [] |}
       [[ {| path := "/d/a.png"; width := 9; height := 9 |};
          {| path := "/d/b.png"; width := 3; height := 3 |} ]]
       true
       {| Cli.console := []; Cli.disk := {["/d/a.png"; "/d/b.png"]} |}).1 ∧
  "/d/b.png" ∉ Cli.disk
    (Cli.deleteDuplicates
       {| Cli.cwd := "/"; Cli.unlinkable := λ _, true;
          Cli.unlink_message := λ _, "ENOENT"; Cli.answer := "";
          Cli.library := λ _ _ _ _, inr [] |}
       [[ {| path := "/d/a.png"; width := 9; height := 9 |};
          {| path := "/d/b.png"; width := 3; height := 3 |} ]]
       true
       {| Cli.console := []; Cli.disk := {["/d/a.png"; "/d/b.png"]} |}).1.
Proof.
  destruct (deleteDuplicates_keeps_the_first
              {| Cli.cwd := "/"; Cli.unlinkable := λ _, true;
                 Cli.unlink_message := λ _, "ENOENT"; Cli.answer := "";
                 Cli.library := λ _ _ _ _, inr [] |}
              [[ {| path := "/d/a.png"; width := 9; height := 9 |};
                 {| path := "/d/b.png"; width := 3; height := 3 |} ]]
              true
              {| Cli.console := []; Cli.disk := {["/d/a.png"; "/d/b.png"]} |})
    as [Hkeeps Hremoves].
  split.
  - apply (Hkeeps) with
      (g := [ {| path := "/d/a.png"; width := 9; height := 9 |};
              {| path := "/d/b.png"; width := 3; height := 3 |} ])
      (keeper := {| path := "/d/a.png"; width := 9; height := 9 |}).
    + apply (bool_decide_unpack _). vm_compute. exact I.
    + apply list_elem_of_here.
    + reflexivity.
    + apply (bool_decide_unpack _). vm_compute. exact I.
  - apply (Hremoves eq_refl
             [ {| path := "/d/a.png"; width := 9; height := 9 |};
               {| path := "/d/b.png"; width := 3; height := 3 |} ]
             {| path := "/d/b.png"; width := 3; height := 3 |}).
    + apply list_elem_of_here.
    + apply list_elem_of_here.
    + reflexivity.
Defined.

(** ** The whole run *)


(** ** The whole run *)

Lemma deleteDuplicates_disk_eq (env : Cli.Env) (duplicates : list (list Image))
    (force : bool) (p : Cli.Process) :
  (Cli.deleteDuplicates env duplicates force p).2 = Cli.Returns tt ∧
  Cli.disk (Cli.deleteDuplicates env duplicates force p).1 =
    (if force || confirmed env
     then Cli.disk p ∖ removable env (Cli.filesToDelete duplicates)
     else Cli.disk p).
Proof.
  destruct (deleteDuplicates_run env duplicates force p)
    as [(Hnone & Hdisk & Hret) | [(Hsome & Hno & p' & Hrun & Hdisk)
                                 | (Hsome & Hyes & p1 & p2 & d & e & Hp1 & Hloop & Hrun)]].
  - split; [done|]. rewrite Hdisk, Hnone. unfold removable. simpl.
    rewrite difference_empty_L. by destruct (force || confirmed env).
  - rewrite Hrun, Hno. by split.
  - rewrite Hrun, Hyes. split; [done|]. cbn [fst wrote Cli.disk].
    destruct (delete_loop env (Cli.filesToDelete duplicates) 0 0 p1)
      as (p' & d' & e' & Hloop' & Hdisk' & _).
    rewrite Hloop in Hloop'. injection Hloop' as <- <- <-.
    by rewrite Hdisk', Hp1.
Qed.

Lemma validateOptions_cases (options : Cli.CLIOptions) (p : Cli.Process) :
  (Cli.validateOptions options p = (p, Cli.Returns tt) ∧
   Cli.delete options && Cli.forceDelete options = false) ∨
  ∃ text, Cli.validateOptions options p
          = (wrote (Cli.ErrorLog text) p, Cli.Exits 1%Z).
Proof.
  destruct options as [src hs md dist del force hlp ver].
  unfold Cli.validateOptions.
  cbn [Cli.hashSize Cli.maxDuplicates Cli.maxDistance Cli.delete Cli.forceDelete].
  destruct (Cli.lt hs (Some 1%Z) || Cli.gt hs (Some 32%Z));
    [right; eexists; reflexivity|].
  destruct (Cli.lt md (Some 1%Z)); [right; eexists; reflexivity|].
  destruct (Cli.lt dist (Some 0%Z)); [right; eexists; reflexivity|].
  destruct (del && force); [right; eexists; reflexivity|].
  by left.
Qed.

Lemma first_failing {A} (P : A → Prop) `{∀ x, Decision (P x)} (l : list A) :
  ¬ Forall P l →
  ∃ before x after, l = before ++ x :: after ∧ Forall P before ∧ ¬ P x.
Proof.
  induction l as [|y l IH]; intros Hnot; [by destruct Hnot|].
  destruct (decide (P y)) as [Hy|Hy].
  - destruct IH as (before & x & after & -> & Hbefore & Hx).
    { intros Hl. apply Hnot. by constructor. }
    exists (y :: before), x, after. split; [done|]. split; [by constructor | done].
  - exists [], y, l. split; [done|]. split; [constructor | done].
Qed.

Lemma validatePaths_cases (env : Cli.Env) (paths : list string) (p : Cli.Process) :
  (Forall (λ path, Cli.resolve env path ∈ Cli.disk p) paths ∧
   Cli.validatePaths env paths p = (p, Cli.Returns (map (Cli.resolve env) paths))) ∨
  ∃ text, Cli.validatePaths env paths p
          = (wrote (Cli.ErrorLog text) p, Cli.Exits 1%Z).
Proof.
  destruct (validatePaths_loop env paths [] p) as [Hall Hfirst].
  destruct (decide (Forall (λ path, Cli.resolve env path ∈ Cli.disk p) paths))
    as [Hpresent|Hmissing].
  - left. split; [done|]. by apply Hall.
  - right. apply first_failing in Hmissing as (b & x & a & Heq & Hb & Hx);
      [|intros y; apply _].
    eexists. by apply (Hfirst b x a).
Qed.

(** [main] once [parseArgs] has returned, step by step. *)
Lemma main_run (env : Cli.Env) (values : Cli.Values) (positionals : list string)
    (p : Cli.Process) :
  Cli.main env (inr (values, positionals)) p =
  let options := built_options values positionals in
  if Cli.help options then (wrote (Cli.Log Cli.HELP_TEXT) p, Cli.Exits 0%Z)
  else if Cli.version options then (wrote (Cli.Log "1.0.0") p, Cli.Exits 0%Z)
  else if length (Cli.source options) =? 0 then
    (wrote (Cli.Log Cli.HELP_TEXT)
           (wrote (Cli.ErrorLog "Error: No source paths provided") p),
     Cli.Exits 1%Z)
  else
    match Cli.validateOptions options p with
    | (p1, Cli.Exits code) => (p1, Cli.Exits code)
    | (p1, Cli.Returns _) =>
        match Cli.validatePaths env (Cli.source options) p1 with
        | (p2, Cli.Exits code) => (p2, Cli.Exits code)
        | (p2, Cli.Returns validatedPaths) =>
            let p3 := wrote (Cli.Log "Searching for duplicate images...") p2 in
            match Cli.library env validatedPaths (Cli.hashSize options)
                              (Cli.maxDuplicates options) (Cli.maxDistance options) with
            | inl message =>
                (wrote (Cli.ErrorLog ("Error finding duplicates: " +:+ message)) p3,
                 Cli.Exits 1%Z)
            | inr duplicates =>
                let shouldDelete := Cli.delete options || Cli.forceDelete options in
                match Cli.formatResults duplicates shouldDelete p3 with
                | (p4, Cli.Exits code) => (p4, Cli.Exits code)
                | (p4, Cli.Returns _) =>
                    if shouldDelete
                    then Cli.deleteDuplicates env duplicates (Cli.forceDelete options) p4
                    else (p4, Cli.Returns tt)
                end
            end
        end
    end.
Proof.
  unfold Cli.main. rewrite cli_bind_run.
  change (Cli.parseArguments (inr (values, positionals)) p)
    with (p, Cli.Returns (built_options values positionals)).
  cbv zeta. generalize (built_options values positionals) as options.
  intros options.
  destruct (Cli.help options); [reflexivity|].
  destruct (Cli.version options); [reflexivity|].
  destruct (length (Cli.source options) =? 0); [reflexivity|].
  unfold mbind, Cli.cli_bind, mret, Cli.cli_ret. cbv beta iota.
  destruct (Cli.validateOptions options p) as [p1 [[]|code]]; [|reflexivity].
  destruct (Cli.validatePaths env (Cli.source options) p1)
    as [p2 [validated|code]]; [|reflexivity].
  rewrite log_run. cbv beta iota.
  destruct (Cli.library env validated _ _ _) as [message|duplicates];
    [reflexivity|].
  destruct (Cli.formatResults duplicates _ _) as [p4 [[]|code]]; [|reflexivity].
  by destruct (Cli.delete options || Cli.forceDelete options).
Qed.

(** X20.  A run of [main] never adds a path, and it removes one only when
    asked to: when the disk has changed, the arguments were parsed, neither
    [--help] nor [--version] was given, exactly one of [--delete] and
    [--force-delete] was, every source path existed, the library returned
    groups, the deletion was forced or confirmed at the prompt, and what is
    gone is the removable part of the files collected from those groups. *)
Theorem main_removes_only_on_request (env : Cli.Env)
    (parsed : string + Cli.Values * list string) (p : Cli.Process) :
  Cli.disk (Cli.main env parsed p).1 ⊆ Cli.disk p ∧
  (Cli.disk (Cli.main env parsed p).1 ≠ Cli.disk p →
   ∃ values positionals duplicates,
     parsed = inr (values, positionals) ∧
     default false (Cli.help_flag values) = false ∧
     default false (Cli.version_flag values) = false ∧
     default false (Cli.delete_flag values)
       ≠ default false (Cli.force_delete_flag values) ∧
     Forall (λ path, Cli.resolve env path ∈ Cli.disk p) positionals ∧
     Cli.library env (map (Cli.resolve env) positionals)
       (Cli.number_option (Cli.hash_size values) 8)
       (Cli.number_option (Cli.max_duplicates values) 100)
       (Cli.number_option (Cli.max_distance values) 5) = inr duplicates ∧
     default false (Cli.force_delete_flag values) || confirmed env = true ∧
     Cli.disk (Cli.main env parsed p).1
       = Cli.disk p ∖ removable env (Cli.filesToDelete duplicates)).
Proof.
  destruct parsed as [message | [values positionals]].
  { split; [done|]. intros Hchanged. by destruct Hchanged. }
  rewrite main_run. cbv zeta.
  cbn [built_options Cli.help Cli.version Cli.source Cli.hashSize
       Cli.maxDuplicates Cli.maxDistance Cli.delete Cli.forceDelete].
  destruct (default false (Cli.help_flag values)) eqn:Hhelp;
    [split; [done | intros Hc; by destruct Hc]|].
  destruct (default false (Cli.version_flag values)) eqn:Hversion;
    [split; [done | intros Hc; by destruct Hc]|].
  destruct (length positionals =? 0);
    [split; [done | intros Hc; by destruct Hc]|].
  destruct (validateOptions_cases (built_options values positionals) p)
    as [[-> Hflags] | [text ->]];
    [|split; [done | intros Hc; by destruct Hc]].
  cbn [built_options Cli.delete Cli.forceDelete] in Hflags.
  destruct (validatePaths_cases env positionals p) as [[Hexist ->] | [text ->]];
    [|split; [done | intros Hc; by destruct Hc]].
  destruct (Cli.library env (map (Cli.resolve env) positionals) _ _ _)
    as [message|duplicates] eqn:Hlibrary;
    [split; [done | intros Hc; by destruct Hc]|].
  match goal with
  | |- context [Cli.formatResults duplicates ?show ?q] =>
      destruct (formatResults_quiet duplicates show q) as (p4 & [] & -> & Hp4)
  end.
  cbn [wrote Cli.disk] in Hp4.
  destruct (default false (Cli.delete_flag values)) eqn:Hdelete,
           (default false (Cli.force_delete_flag values)) eqn:Hforce;
    try discriminate Hflags; cbn [orb].
  - destruct (deleteDuplicates_disk_eq env duplicates false p4) as [_ Hdisk].
    rewrite Hdisk, Hp4. cbn [orb]. destruct (confirmed env) eqn:Hanswer.
    + split; [by apply subseteq_difference_l|]. intros _.
      exists values, positionals, duplicates.
      rewrite Hhelp, Hversion, Hdelete, Hforce. by repeat split.
    + split; [done | intros Hc; by destruct Hc].
  - destruct (deleteDuplicates_disk_eq env duplicates true p4) as [_ Hdisk].
    rewrite Hdisk, Hp4. cbn [orb].
    split; [by apply subseteq_difference_l|]. intros _.
    exists values, positionals, duplicates.
    rewrite Hhelp, Hversion, Hdelete, Hforce. by repeat split.
  - cbn [fst]. rewrite Hp4. split; [done | intros Hc; by destruct Hc].
Qed.

(** X21.  The exits of [main] that come before any search: a failure of the
    argument parser exits with 1; [--help] prints the help text and exits
    with 0 whatever else was given; [--version] without [--help] prints
    1.0.0 and exits with 0; without a source path the error and the help
    text are printed and the exit code is 1.  A rejection by the library is
    reported after the search line and exits with 1. *)
Theorem main_exits (env : Cli.Env) (p : Cli.Process) :
  (∀ message,
     Cli.main env (inl message) p
     = (wrote (Cli.ErrorLog ("Error parsing arguments: " +:+ message)) p,
        Cli.Exits 1%Z)) ∧
  (∀ values positionals,
     (Cli.help_flag values = Some true →
      Cli.main env (inr (values, positionals)) p
      = (wrote (Cli.Log Cli.HELP_TEXT) p, Cli.Exits 0%Z)) ∧
     (default false (Cli.help_flag values) = false →
      Cli.version_flag values = Some true →
      Cli.main env (inr (values, positionals)) p
      = (wrote (Cli.Log "1.0.0") p, Cli.Exits 0%Z)) ∧
     (default false (Cli.help_flag values) = false →
      default false (Cli.version_flag values) = false →
      positionals = [] →
      Cli.main env (inr (values, positionals)) p
      = (wrote (Cli.Log Cli.HELP_TEXT)
               (wrote (Cli.ErrorLog "Error: No source paths provided") p),
         Cli.Exits 1%Z)) ∧
     (∀ message,
        default false (Cli.help_flag values) = false →
        default false (Cli.version_flag values) = false →
        positionals ≠ [] →
        Cli.validateOptions (built_options values positionals) p
          = (p, Cli.Returns tt) →
        Forall (λ path, Cli.resolve env path ∈ Cli.disk p) positionals →
        Cli.library env (map (Cli.resolve env) positionals)
          (Cli.number_option (Cli.hash_size values) 8)
          (Cli.number_option (Cli.max_duplicates values) 100)
          (Cli.number_option (Cli.max_distance values) 5) = inl message →
        Cli.main env (inr (values, positionals)) p
        = (wrote (Cli.ErrorLog ("Error finding duplicates: " +:+ message))
                 (wrote (Cli.Log "Searching for duplicate images...") p),
           Cli.Exits 1%Z))).
Proof.
  split; [done|]. intros values positionals. split; [|split; [|split]].
  - intros Hhelp. rewrite main_run. cbv zeta.
    cbn [built_options Cli.help]. by rewrite Hhelp.
  - intros Hhelp Hversion. rewrite main_run. cbv zeta.
    cbn [built_options Cli.help Cli.version]. by rewrite Hhelp, Hversion.
  - intros Hhelp Hversion ->. rewrite main_run. cbv zeta.
    cbn [built_options Cli.help Cli.version Cli.source]. by rewrite Hhelp, Hversion.
  - intros message Hhelp Hversion Hsome Hvalid Hexist Hlibrary.
    rewrite main_run. cbv zeta.
    cbn [built_options Cli.help Cli.version Cli.source Cli.hashSize
         Cli.maxDuplicates Cli.maxDistance].
    rewrite Hhelp, Hversion.
    destruct positionals as [|x positionals]; [done|]. cbn [length Nat.eqb].
    rewrite Hvalid.
    destruct (validatePaths_loop env (x :: positionals) [] p) as [Hall _].
    unfold Cli.validatePaths. rewrite (Hall Hexist). cbn [app].
    by rewrite Hlibrary.
Qed.

Lemma output_paths_distinct (w : World) (source : Source) (options : Options)
    (imageFilePaths : list string) (groups : list (list Image)) :
  (∀ points query k d, NoDup (kdtree_knn w points query k d)) →
  imageFilePathsOf w source = Ok imageFilePaths →
  NoDup imageFilePaths →
  findDuplicateImages w source options = Ok groups →
  NoDup (output_paths groups).
Proof.
  intros Hknn Hpaths Hnodup. unfold findDuplicateImages.
  rewrite Hpaths. simpl.
  destruct (hashListOf w imageFilePaths (hashSize options)) as [hashList|e];
    simpl; [|done].
  intros Hgroups%resolveGroups_paths. unfold output_paths.
  rewrite Hgroups, duplicatesOf_paths, concat_paths_at.
  apply kept_paths_NoDup; [done|]. by apply group_loop_NoDup.
Qed.

(** X22.  Deleting after finding: when the index returns each position at
    most once and no path is listed twice, then in every group the library
    returns the first image has the largest resolution of the group, and
    [deleteDuplicates] on those groups, forced or not, leaves that image on
    the disk. *)
Theorem delete_after_find_keeps_largest (w : World) (source : Source)
    (options : Options) (imageFilePaths : list string)
    (groups : list (list Image)) (env : Cli.Env) (force : bool)
    (p : Cli.Process) :
  (∀ points query k d, NoDup (kdtree_knn w points query k d)) →
  imageFilePathsOf w source = Ok imageFilePaths →
  NoDup imageFilePaths →
  findDuplicateImages w source options = Ok groups →
  ∀ g keeper, g ∈ groups → head g = Some keeper →
    (∀ other, other ∈ g → (resolution other ≤ resolution keeper)%Z) ∧
    (path keeper ∈ Cli.disk p →
     path keeper ∈ Cli.disk (Cli.deleteDuplicates env groups force p).1).
Proof.
  intros Hknn Hpaths Hnodup Hrun g keeper Hg Hhead. split.
  - intros other Hother.
    destruct (output_group_origin w source options groups g Hrun Hg)
      as (_ & _ & _ & imgs & _ & _ & _ & _ & _ & ->).
    apply list_elem_of_lookup in Hother as [j Hj].
    rewrite head_lookup in Hhead.
    destruct j as [|j]; [rewrite Hj in Hhead; injection Hhead as ->; lia|].
    apply (Array_sort_ordered (compareImages w) by_resolution
             by_resolution_trans
             (compareImages_le_resolution w) (compareImages_gt_resolution w)
             imgs 0 (S j) keeper other); [lia | done | done].
  - intros Hthere.
    pose proof (output_paths_distinct w source options imageFilePaths groups
                  Hknn Hpaths Hnodup Hrun) as Hdistinct.
    destruct (deleteDuplicates_disk_eq env groups force p) as [_ ->].
    destruct (force || confirmed env); [|done].
    apply elem_of_difference. split; [done|].
    intros [Hin _]%elem_of_removable.
    by apply (first_not_collected groups g keeper).
Qed.

Lemma delete_after_find_keeps_largest_witness :
  (∀ other,
     other ∈ [ {| path := "dir/a.png"; width := 100; height := 100 |};
               {| path := "dir/B.png"; width := 100; height := 100 |} ] →
     (resolution other
      ≤ resolution {| path := "dir/a.png"; width := 100; height := 100 |})%Z) ∧
  ("dir/a.png" ∈ ({["dir/a.png"; "dir/B.png"]} : gset string) →
   "dir/a.png" ∈ Cli.disk
     (Cli.deleteDuplicates
        {| Cli.cwd := "/"; Cli.unlinkable := λ _, true;
           Cli.unlink_message := λ _, "ENOENT"; Cli.answer := "";
           Cli.library := λ _ _ _ _, inr [] |}
        [[ {| path := "dir/a.png"; width := 100; height := 100 |};
           {| path := "dir/B.png"; width := 100; height := 100 |} ]]
        true
        {| Cli.console := []; Cli.disk := {["dir/a.png"; "dir/B.png"]} |}).1).
Proof.
  refine (delete_after_find_keeps_largest Disk.album (SourceDir "dir")
           defaultOptions ["dir/B.png"; "dir/a.png"; "dir/c.png"]
           [[ {| path := "dir/a.png"; width := 100; height := 100 |};
              {| path := "dir/B.png"; width := 100; height := 100 |} ]]
           {| Cli.cwd := "/"; Cli.unlinkable := λ _, true;
              Cli.unlink_message := λ _, "ENOENT"; Cli.answer := "";
              Cli.library := λ _ _ _ _, inr [] |}
           true
           {| Cli.console := []; Cli.disk := {["dir/a.png"; "dir/B.png"]} |}
           _ _ _ _
           [ {| path := "dir/a.png"; width := 100; height := 100 |};
             {| path := "dir/B.png"; width := 100; height := 100 |} ]
           {| path := "dir/a.png"; width := 100; height := 100 |} _ _).
  - apply Reference_knn_NoDup.
  - vm_compute; reflexivity.
  - apply (bool_decide_unpack _). vm_compute. exact I.
  - vm_compute; reflexivity.
  - apply list_elem_of_here.
  - reflexivity.
Defined.

Lemma main_removes_only_on_request_witness :
  let env :=
    {| Cli.cwd := "/home/u"; Cli.unlinkable := λ _, true;
       Cli.unlink_message := λ _, "EPERM"; Cli.answer := "";
       Cli.library := λ _ _ _ _,
         inr [[ {| path := "/home/u/pics/a.png"; width := 100; height := 100 |};
                {| path := "/home/u/pics/b.png"; width := 90; height := 90 |} ]] |} in
  let forced :=
    {| Cli.hash_size := None; Cli.max_duplicates := None;
       Cli.max_distance := None; Cli.delete_flag := None;
       Cli.force_delete_flag := Some true; Cli.help_flag := None;
       Cli.version_flag := None |} in
  let p :=
    {| Cli.console := [];
       Cli.disk := {["/home/u/pics"; "/home/u/pics/a.png"; "/home/u/pics/b.png"]} |} in
  Cli.disk (Cli.main env (inr (forced, ["pics"])) p).1 ≠ Cli.disk p ∧
  ∃ values positionals duplicates,
    (inr (forced, ["pics"]) : string + Cli.Values * list string)
      = inr (values, positionals) ∧
    default false (Cli.help_flag values) = false ∧
    default false (Cli.version_flag values) = false ∧
    default false (Cli.delete_flag values)
      ≠ default false (Cli.force_delete_flag values) ∧
    Forall (λ path, Cli.resolve env path ∈ Cli.disk p) positionals ∧
    Cli.library env (map (Cli.resolve env) positionals)
      (Cli.number_option (Cli.hash_size values) 8)
      (Cli.number_option (Cli.max_duplicates values) 100)
      (Cli.number_option (Cli.max_distance values) 5) = inr duplicates ∧
    default false (Cli.force_delete_flag values) || confirmed env = true ∧
    Cli.disk (Cli.main env (inr (forced, ["pics"])) p).1
      = Cli.disk p ∖ removable env (Cli.filesToDelete duplicates).
Proof.
  intros env forced p.
  assert (Cli.disk (Cli.main env (inr (forced, ["pics"])) p).1 ≠ Cli.disk p)
    as Hchanged.
  { intros Heq.
    assert ("/home/u/pics/b.png" ∈ Cli.disk p) as Hthere
      by (apply (bool_decide_unpack _); vm_compute; exact I).
    rewrite <-Heq in Hthere. revert Hthere.
    apply (bool_decide_unpack _). vm_compute. exact I. }
  split; [exact Hchanged|].
  exact (proj2 (main_removes_only_on_request env (inr (forced, ["pics"])) p)
           Hchanged).
Defined.

Lemma main_exits_witness :
  Cli.main
    {| Cli.cwd := "/home/u"; Cli.unlinkable := λ _, true;
       Cli.unlink_message := λ _, "EPERM"; Cli.answer := "";
       Cli.library := λ _ _ _ _, inl "Source is not a directory" |}
    (inr (only_hash_size "16", ["pics"]))
    {| Cli.console := []; Cli.disk := {["/home/u/pics"]} |}
  = (wrote (Cli.ErrorLog "Error finding duplicates: Source is not a directory")
           (wrote (Cli.Log "Searching for duplicate images...")
                  {| Cli.console := []; Cli.disk := {["/home/u/pics"]} |}),
     Cli.Exits 1%Z).
Proof.
  refine (proj2 (proj2 (proj2 (proj2
            (main_exits
               {| Cli.cwd := "/home/u"; Cli.unlinkable := λ _, true;
                  Cli.unlink_message := λ _, "EPERM"; Cli.answer := "";
                  Cli.library := λ _ _ _ _, inl "Source is not a directory" |}
               {| Cli.console := []; Cli.disk := {["/home/u/pics"]} |})
            (only_hash_size "16") ["pics"])))
            "Source is not a directory" _ _ _ _ _ _).
  - reflexivity.
  - reflexivity.
  - discriminate.
  - vm_compute; reflexivity.
  - constructor; [|constructor].
    apply (bool_decide_unpack _). vm_compute. exact I.
  - reflexivity.
Defined.

(** ** The report *)

Lemma wrote_lines (p : Cli.Process) (lines : list string) (text : string) :
  wrote (Cli.Log text)
        {| Cli.console := Cli.console p ++ map Cli.Log lines; Cli.disk := Cli.disk p |}
  = {| Cli.console := Cli.console p ++ map Cli.Log (lines ++ [text]);
       Cli.disk := Cli.disk p |}.
Proof. unfold wrote. cbn [Cli.console Cli.disk]. by rewrite map_app, app_assoc. Qed.

Lemma map_imap_snd {A B} (f : A → B) (h : nat → A → nat * A) (l : list A) :
  (∀ i x, (h i x).2 = x) → map (λ ix, f ix.2) (imap h l) = map f l.
Proof.
  revert h. induction l as [|x l IH]; intros h Hh; [done|].
  cbn [imap map]. rewrite Hh. f_equal. apply IH. intros i y. apply Hh.
Qed.

Lemma sum_list_ones {A} (l : list A) : sum_list (map (λ _, 1) l) = length l.
Proof. induction l as [|x l IH]; [done|]. cbn [map length]. simpl. by rewrite IH. Qed.

Lemma report_loop {A} (line_count : A → nat) (body : A → unit → Cli.cli unit)
    (xs : list A) :
  (∀ x p lines, ∃ more,
     body x tt {| Cli.console := Cli.console p ++ map Cli.Log lines;
                  Cli.disk := Cli.disk p |}
     = ({| Cli.console := Cli.console p ++ map Cli.Log (lines ++ more);
           Cli.disk := Cli.disk p |}, Cli.Returns tt) ∧
     length more = line_count x) →
  ∀ p lines, ∃ more,
    Cli.for_each xs body tt
      {| Cli.console := Cli.console p ++ map Cli.Log lines; Cli.disk := Cli.disk p |}
    = ({| Cli.console := Cli.console p ++ map Cli.Log (lines ++ more);
          Cli.disk := Cli.disk p |}, Cli.Returns tt) ∧
    length more = sum_list (map line_count xs).
Proof.
  intros Hbody. induction xs as [|x xs IH]; intros p lines.
  - exists []. by rewrite app_nil_r.
  - destruct (Hbody x p lines) as (now & Hrun & Hnow).
    destruct (IH p (lines ++ now)) as (rest & Hrest & Hlen).
    exists (now ++ rest). rewrite cli_for_each_cons, Hrun, Hrest.
    split; [by rewrite app_assoc|].
    rewrite length_app, Hnow, Hlen. reflexivity.
Qed.

(** X23.  [formatResults] returns without touching the disk and writes to
    the standard output only: one line when there is no group, and
    otherwise a heading followed, for every group, by a title, one line for
    each image and an empty line. *)
Theorem formatResults_report (duplicates : list (list Image)) (showDelete : bool)
    (p : Cli.Process) :
  ∃ lines,
    Cli.formatResults duplicates showDelete p
    = ({| Cli.console := Cli.console p ++ map Cli.Log lines;
          Cli.disk := Cli.disk p |}, Cli.Returns tt) ∧
    length lines
    = match duplicates with
      | [] => 1
      | _ => 1 + sum_list (map (λ group, 2 + length group) duplicates)
      end.
Proof.
  unfold Cli.formatResults. destruct duplicates as [|g duplicates].
  { exists ["No duplicate images found."]. split; reflexivity. }
  cbn [length Nat.eqb]. rewrite cli_bind_run, log_run.
  set (groups := g :: duplicates).
  assert (groups ≠ []) as Hsome by done. clearbody groups.
  match goal with
  | |- context [wrote (Cli.Log ?text) p] =>
      set (heading := text); change (wrote (Cli.Log heading) p)
        with {| Cli.console := Cli.console p ++ map Cli.Log [heading];
                Cli.disk := Cli.disk p |}
  end.
  match goal with
  | |- context [Cli.for_each ?xs ?body tt] =>
      destruct (report_loop (λ ig : nat * list Image, 2 + length ig.2) body xs)
        with p [heading] as (more & Hrun & Hlen)
  end.
  { intros [index group] q lines.
    rewrite cli_bind_run, log_run, wrote_lines, cli_bind_run.
    match goal with
    | |- context [Cli.for_each ?xs ?body tt ?r] =>
        match r with
        | {| Cli.console := _ ++ map Cli.Log ?ls; Cli.disk := _ |} =>
            destruct (report_loop (λ _ : nat * Image, 1) body xs) with q ls
              as (images & Himages & Hcount)
        end
    end.
    { intros [imageIndex image] r ls. eexists [_].
      split; [|reflexivity]. cbv zeta. by rewrite log_run, wrote_lines. }
    rewrite Himages, log_run, wrote_lines.
    eexists (_ :: images ++ [""]). split.
    - by rewrite <-!app_assoc.
    - cbn [length snd]. rewrite length_app, Hcount, sum_list_ones, length_imap.
      cbn [length]. lia. }
  exists (heading :: more). split; [exact Hrun|].
  cbn [length]. rewrite Hlen.
  rewrite (map_imap_snd (λ group, 2 + length group) pair) by done.
  by destruct groups.
Qed.

(** ** Extensions *)

Lemma substring_whole (s : string) : substring 0 (String.length s) s = s.
Proof. induction s as [|c s IH]; [done|]. simpl. by rewrite IH. Qed.

Lemma substring_after (stem s : string) :
  substring (String.length stem) (String.length s) (stem +:+ s) = s.
Proof.
  induction stem as [|c stem IH]; [apply substring_whole|].
  rewrite append_cons. simpl. exact IH.
Qed.

Lemma substring_split (k : nat) (s : string) :
  k ≤ String.length s →
  s = substring 0 k s +:+ substring k (String.length s - k) s.
Proof.
  revert k. induction s as [|c s IH]; intros k Hk.
  - by destruct k.
  - destruct k as [|k].
    + change (String c s = "" +:+ substring 0 (String.length (String c s)) (String c s)).
      by rewrite substring_whole.
    + simpl in Hk. cbn [substring String.length Nat.sub].
      rewrite append_cons. f_equal. apply IH. lia.
Qed.

Lemma endsWith_iff (s suffix : string) :
  Utils.endsWith s suffix = true ↔ ∃ stem, s = stem +:+ suffix.
Proof.
  unfold Utils.endsWith. split.
  - destruct (Nat.leb_spec (String.length suffix) (String.length s)) as [Hle|];
      [|discriminate].
    intros Heq%String.eqb_eq.
    exists (substring 0 (String.length s - String.length suffix) s).
    rewrite (substring_split (String.length s - String.length suffix) s) at 1 by lia.
    f_equal.
    replace (String.length s - (String.length s - String.length suffix))
      with (String.length suffix) by lia.
    exact Heq.
  - intros [stem ->]. rewrite length_append.
    destruct (Nat.leb_spec (String.length suffix)
                (String.length stem + String.length suffix)); [|lia].
    replace (String.length stem + String.length suffix - String.length suffix)
      with (String.length stem) by lia.
    rewrite substring_after. apply String.eqb_refl.
Qed.

(** X24.  [isImageFile] looks at the end of the path only and compares it as
    it is written: a path is accepted exactly when it is some text, possibly
    empty, followed by one of the nine extensions in lower case.  So what is
    accepted stays accepted with anything put in front of it. *)
Theorem isImageFile_by_suffix (path : string) :
  (Utils.isImageFile path = true ↔
   ∃ stem ext,
     ext ∈ [".png"; ".jpg"; ".jpeg"; ".webp"; ".gif"; ".avif"; ".tiff"; ".tif";
            ".svg"] ∧
     path = stem +:+ ext) ∧
  (Utils.isImageFile path = true →
   ∀ front, Utils.isImageFile (front +:+ path) = true).
Proof.
  assert (∀ p, Utils.isImageFile p = true ↔
               ∃ stem ext,
                 ext ∈ [".png"; ".jpg"; ".jpeg"; ".webp"; ".gif"; ".avif";
                        ".tiff"; ".tif"; ".svg"] ∧
                 p = stem +:+ ext) as Hiff.
  { intros p. unfold Utils.isImageFile. rewrite !orb_true_iff, !endsWith_iff. split.
    - intros H. repeat destruct H as [H|H]; destruct H as [stem ->];
        eexists stem, _; (split; [|reflexivity]);
        repeat first [apply list_elem_of_here | apply list_elem_of_further].
    - intros (stem & ext & Hext & ->).
      repeat (apply elem_of_cons in Hext as [->|Hext]; [eauto 12|]).
      by apply elem_of_nil in Hext. }
  split; [apply Hiff|].
  intros (stem & ext & Hext & ->)%Hiff front.
  apply Hiff. exists (front +:+ stem), ext. by rewrite append_assoc.
Qed.

Lemma isImageFile_by_suffix_witness :
  Utils.isImageFile ("holiday/" +:+ "a.tiff") = true.
Proof.
  apply (proj2 (isImageFile_by_suffix "a.tiff")). reflexivity.
Defined.
